(** * Data-parallel array primitives: map, scan and filter

    A shallow embedding of [6_Example_PackingProblem/main.cpp] ([doMap],
    [doScan], [doFilter], [vecFilter], [main]) and of
    [6_Example_PackingProblem/seqvsparallel.cpp] ([Body], [DoParallelScan],
    [DoSerialScan]), together with a model of the two oneTBB algorithms the
    code calls, [tbb::parallel_for] and [tbb::parallel_scan].

    Conventions.
    - An array is a list; the subscript operator of the source does no
      bounds check, so an access outside the array is undefined behaviour
      and is modelled as [None].
    - The cells of an array ([Mem]) are independent locations: a write
      to one cell leaves the others alone, also when the writes come from
      different threads.  A [std::vector<bool>] is not such an array: its
      elements are bits packed into words, and an assignment to one of
      them loads, changes and stores a whole word.  It has a model of its
      own ([bit_vector]), in which the steps of calls that run at the same
      time interleave; [vecFilter] keeps its [bolMatch] in one.  The
      element type of [vecFilter] is taken to be another type than
      [bool], so that its [filteredVec] is an array of independent cells.
    - An input array is not changed while a primitive runs ([doScan]
      takes its input by value; in [vecFilter] and in both [main]s input
      and output are distinct arrays).
    - An output array carries, next to its cells, the log of the writes
      made to it, so that "which writes are performed" can be stated.
    - Loop indices and range bounds are [nat] (they never wrap: a loop
      runs from [r.begin()] up to [r.end()]); values of type [size_t] are
      [N] with the wrap-around at [2^64] written out.
    - Printing ([printVec], [cout]) and timing ([tick_count]) are left out
      of the functions above; [printVec] and the text that [vecFilter]
      prints are modelled on their own ([vecFilter_cout]), with [cout] as
      the text written so far. *)

From stdpp Require Import base numbers option list gmap strings pretty.
From Stdlib Require Import Permutation Ascii.

(* ===================================================================== *)
(** ** Arrays and index ranges *)
(* ===================================================================== *)

(** [tbb::blocked_range<size_t>]: the half-open interval
    [[r_begin, r_end)]. *)
Record blocked_range := Range { r_begin : nat; r_end : nat }.

Definition range_empty (r : blocked_range) : bool :=
  negb (r_begin r <? r_end r).

(** An output array: its cells and the writes made so far, oldest first. *)
Record Mem (T : Type) := MkMem { cells : list T; wlog : list (nat * T) }.
Arguments MkMem {T} _ _.
Arguments cells {T} _.
Arguments wlog {T} _.

(** A freshly allocated vector [vector<T> v(n)]: [n] value-initialised
    cells, nothing written yet. *)
Definition new_vec {T} (n : nat) (d : T) : Mem T := MkMem (replicate n d) [].

(** [out[i] = v]. *)
Definition store {T} (i : nat) (v : T) (out : Mem T) : option (Mem T) :=
  if decide (i < length (cells out))
  then Some (MkMem (<[i := v]> (cells out)) (wlog out ++ [(i, v)]))
  else None.

(** The effect of a list of writes on the cells, used to read a log. *)
Definition apply_writes {T} (ws : list (nat * T)) (l : list T) : list T :=
  foldl (λ acc w, <[w.1 := w.2]> acc) l ws.

(* ===================================================================== *)
(** ** [size_t] arithmetic *)
(* ===================================================================== *)

Definition SIZE_MOD : N := 2 ^ 64.

(** [a + b] on [size_t]. *)
Definition size_add (a b : N) : N := ((a + b) mod SIZE_MOD)%N.

(** [a - 1] on [size_t]; [0 - 1] wraps to [2^64 - 1]. *)
Definition size_pred (a : N) : N := ((a + (SIZE_MOD - 1)) mod SIZE_MOD)%N.

(** The implicit conversion [bool -> size_t]. *)
Definition bool_to_size (b : bool) : N := if b then 1%N else 0%N.

(** [out[idx] = v] for an index of type [size_t]. *)
Definition store_at {T} (idx : N) (v : T) (out : Mem T) : option (Mem T) :=
  if (idx <? N.of_nat (length (cells out)))%N
  then store (N.to_nat idx) v out
  else None.

(* ===================================================================== *)
(** ** Model of the oneTBB range splitting and of [tbb::parallel_for] *)
(* ===================================================================== *)

(** The way a run has split a range.  [Run] is a subrange handed to the
    body in one call.  [Cont m l r] and [Steal m l r] split at [m]; they
    differ only for [parallel_scan]: after [Cont] the worker that did the
    left part goes on with the right part, using the same body object,
    after [Steal] the right part is taken by another body, split off the
    first.  The split point is arbitrary (grain size and partitioner are
    not fixed), both parts are non-empty. *)
Inductive sched :=
| Run
| Cont (mid : nat) (l r : sched)
| Steal (mid : nat) (l r : sched).

Fixpoint steal_free (t : sched) : bool :=
  match t with
  | Run => true
  | Cont _ l r => steal_free l && steal_free r
  | Steal _ _ _ => false
  end.

(** [splits t b e]: [t] is a splitting of the non-empty range [[b, e)].
    A right part that is not stolen is run at once, without further
    splitting, and a body only continues after a part it did alone. *)
Fixpoint splits (t : sched) (b e : nat) : Prop :=
  match t with
  | Run => b < e
  | Cont m l r => b < m ∧ m < e ∧ splits l b m ∧ splits r m e
                  ∧ steal_free l = true ∧ r = Run
  | Steal m l r => b < m ∧ m < e ∧ splits l b m ∧ splits r m e
  end.

(** The subranges handed to the body, left to right. *)
Fixpoint leaves (t : sched) (b e : nat) : list blocked_range :=
  match t with
  | Run => [Range b e]
  | Cont m l r | Steal m l r => leaves l b m ++ leaves r m e
  end.

(** [chunk_order n order]: [order] lists, in the order in which they are
    executed, the subranges of some splitting of [[0, n)].  For [n = 0]
    nothing is executed. *)
Definition chunk_order (n : nat) (order : list blocked_range) : Prop :=
  (n = 0 ∧ order = []) ∨ (∃ t, splits t 0 n ∧ order ≡ₚ leaves t 0 n).

(** [tbb::parallel_for(range, body)]: nothing is done for an empty
    range; otherwise the body is called once on every subrange of the
    splitting.  The calls may run on different threads; a run is
    represented by the order in which the calls take effect.  (For a
    body that writes whole cells of a [Mem], calls that overlap in time
    are covered too: an interleaving of the iterations of several calls
    is the chunk order of a finer splitting, down to one index per
    subrange.  The writes to a [std::vector<bool>] are not of this kind,
    see [doMap_vector_bool].) *)
Definition parallel_for {S} (r : blocked_range) (order : list blocked_range)
    (body : blocked_range → S → option S) (s : S) : option S :=
  if range_empty r then Some s
  else foldl (λ acc c, s' ← acc; body c s') (Some s) order.

(* ===================================================================== *)
(** ** [std::vector<bool>] *)
(* ===================================================================== *)

(** A [std::vector<bool>] packs its elements into words, [WORD_BITS] to
    the word (64 where the word is an [unsigned long] of 64 bits, as in
    libstdc++ on x86-64): element [i] is bit [i mod WORD_BITS] of word
    [i / WORD_BITS]. *)
Definition WORD_BITS : nat := 64.

Record bit_vector := BitVec { bv_size : nat; bv_words : list N }.

Definition word_of (i : nat) : nat := i / WORD_BITS.
Definition bit_of (i : nat) : N := N.of_nat (i mod WORD_BITS).

(** [vector<bool> v(n)]: [n] elements, all [false]. *)
Definition new_bits (n : nat) : bit_vector :=
  BitVec n (replicate ((n + (WORD_BITS - 1)) / WORD_BITS) 0%N).

(** [v[i]], read. *)
Definition get_bit (v : bit_vector) (i : nat) : bool :=
  N.testbit (bv_words v !!! word_of i) (bit_of i).

(** The elements of [v] from first to last, as a copy of [v] or a loop
    over it reads them. *)
Definition bits (v : bit_vector) : list bool := get_bit v <$> seq 0 (bv_size v).

(** [v[i] = x] is not one step.  The reference that [v[i]] returns
    assigns with [*p |= mask] or [*p &= ~mask]: it loads the word of
    bit [i], sets or clears the bit in the value it has loaded, and
    stores the result.  [Load i] and [Store i] are the two memory accesses
    of the assignment to element [i]. *)
Inductive bit_event :=
| Load (i : nat)
| Store (i : nat).

#[export] Instance bit_event_eq_dec : EqDecision bit_event.
Proof. solve_decision. Defined.

(** The vector, and for the assignments under way the word each one has
    loaded. *)
Record bit_state := BitState { st_vec : bit_vector; st_loaded : gmap nat N }.

(** One memory access of [out[i] = func(in[i])].  The right-hand side
    is evaluated first, so [in[i]] has been read when the word is
    loaded.  What [Store i] writes is made from the word that [Load i]
    read, whatever has been stored to that word since. *)
Definition bit_step {InT} (func : InT → bool) (inp : list InT) (ev : bit_event)
    (st : bit_state) : option bit_state :=
  match ev with
  | Load i =>
      _ ← inp !! i;
      if decide (i < bv_size (st_vec st)) then
        w ← bv_words (st_vec st) !! word_of i;
        Some (BitState (st_vec st) (<[i := w]> (st_loaded st)))
      else None
  | Store i =>
      v ← inp !! i;
      w ← st_loaded st !! i;
      let w' := if func v then N.setbit w (bit_of i) else N.clearbit w (bit_of i) in
      Some (BitState (BitVec (bv_size (st_vec st))
                             (<[word_of i := w']> (bv_words (st_vec st))))
                     (st_loaded st))
  end.

(** The accesses of a run, made one after the other. *)
Definition bit_steps {InT} (func : InT → bool) (inp : list InT)
    (run : list bit_event) (st : bit_state) : option bit_state :=
  foldl (λ acc ev, st' ← acc; bit_step func inp ev st') (Some st) run.

(** The memory accesses of the assignments to the elements [ixs], one
    assignment after the other. *)
Definition assign_events (ixs : list nat) : list bit_event :=
  ixs ≫= λ i, [Load i; Store i].

(** The memory accesses of one call of the lambda of [doMap] on the
    subrange [r], in program order. *)
Definition chunk_events (r : blocked_range) : list bit_event :=
  assign_events (seq (r_begin r) (r_end r - r_begin r)).

(** The threads after the one whose next access is [ev] has made it. *)
Fixpoint pop_event (ev : bit_event) (ths : list (list bit_event))
    : option (list (list bit_event)) :=
  match ths with
  | [] => None
  | th :: ths' =>
      match th with
      | ev' :: th' =>
          if decide (ev' = ev) then Some (th' :: ths')
          else (th ::.) <$> pop_event ev ths'
      | [] => (th ::.) <$> pop_event ev ths'
      end
  end.

(** [run] is an interleaving of the access sequences [ths]: every access
    of [run] is the next one of some thread, and none is left over. *)
Fixpoint is_merge (ths : list (list bit_event)) (run : list bit_event) : bool :=
  match run with
  | [] => forallb (λ th, match th with [] => true | _ :: _ => false end) ths
  | ev :: run' =>
      match pop_event ev ths with
      | Some ths' => is_merge ths' run'
      | None => false
      end
  end.

(** [bit_run n run]: [run] is a run of the calls that [parallel_for]
    makes on some splitting of [[0, n)], each call on a thread of its
    own, the accesses of the calls interleaved in any way. *)
Definition bit_run (n : nat) (run : list bit_event) : Prop :=
  (n = 0 ∧ run = [])
  ∨ (∃ t, splits t 0 n ∧ is_merge (chunk_events <$> leaves t 0 n) run = true).

(** The run in which the calls are made one after the other, in the
    order [order]: no two of them overlap in time. *)
Definition serial_run (order : list blocked_range) : list bit_event :=
  order ≫= chunk_events.

(* ===================================================================== *)
(** ** Model of [tbb::parallel_scan] *)
(* ===================================================================== *)

(** The model follows the oneTBB implementation ([start_scan],
    [sum_node], [final_sum], [finish_scan] in [parallel_scan.h]): a first
    pass scans for good as far as the original body gets on its own and
    pre-scans what was stolen, joining summaries from left to right; a
    second pass makes the final scan of what was only pre-scanned, each
    part entered with the joined summary of everything to its left. *)

(** The Body concept of [parallel_scan]; [M] is the shared state the body
    works on (here the output array).
    - [body_call r is_final b m]: [b(r, Tag)] with
      [Tag::is_final_scan() = is_final];
    - [body_split b]: the splitting constructor [B(b, split)];
    - [body_reverse_join a this]: [this.reverse_join(a)], where [a] holds
      the summary of the subrange to the left of the one of [this];
    - [body_assign this b]: [this.assign(b)]. *)
Class ScanBody (B M : Type) := {
  body_call : blocked_range → bool → B → M → option (B * M);
  body_split : B → B;
  body_reverse_join : B → B → B;
  body_assign : B → B → B;
}.

(** What the first pass leaves behind for the second one: a subrange
    done by one body ([SLeaf]), or a node whose right part was stolen,
    with the summary [left_sum] of its left part. *)
Inductive sum_node (B : Type) :=
| SLeaf
| SNode (left_sum : B) (mid : nat) (l r : sum_node B).
Arguments SLeaf {B}.
Arguments SNode {B} _ _ _ _.

Section parallel_scan.
Context {B M : Type} `{!ScanBody B M}.

(** First pass.  [is_final] holds as long as nothing to the left was
    stolen: the body then knows the summary of everything before [b]
    and scans for good.  A stolen part is pre-scanned by a body split
    off, whose summary is then joined with the one of the left part.
    Returns the summary known once [[b, e)] is done.  (The library
    skips the pre-scan of a part whose summary nobody needs; a
    pre-scan writes nothing.) *)
Fixpoint pass1 (is_final : bool) (t : sched) (b e : nat) (bd : B) (m : M)
    : option (B * sum_node B * M) :=
  match t with
  | Run =>
      '(bd1, m1) ← body_call (Range b e) is_final bd m;
      Some (bd1, SLeaf, m1)
  | Cont mid l r =>
      '(bd1, _, m1) ← pass1 is_final l b mid bd m;
      '(bd2, _, m2) ← pass1 is_final r mid e bd1 m1;
      Some (bd2, SLeaf, m2)
  | Steal mid l r =>
      '(bl, sl, m1) ← pass1 is_final l b mid bd m;
      '(br, sr, m2) ← pass1 false r mid e (body_split bd) m1;
      Some (body_reverse_join bl br, SNode bl mid sl sr, m2)
  end.

(** Second pass: the final scan of what was only pre-scanned.  [bd]
    holds the summary of everything before [b]; [has_incoming] is
    false on the leftmost path, where the first pass already scanned
    for good and [left_sum] is already the summary from the start.
    Returns the body after the rightmost subrange. *)
Fixpoint pass2 (has_incoming : bool) (s : sum_node B) (b e : nat) (bd : B) (m : M)
    : option (B * M) :=
  match s with
  | SLeaf =>
      if has_incoming then body_call (Range b e) true bd m else Some (bd, m)
  | SNode left_sum mid l r =>
      let right_body :=
        if has_incoming then body_reverse_join bd left_sum else left_sum in
      '(_, m1) ← pass2 has_incoming l b mid bd m;
      pass2 true r mid e right_body m1
  end.

(** [parallel_scan(range, body)] with the splitting [t].  Nothing is
    done for an empty range.  Otherwise the work is done by [temp_body],
    split off [body] and joined with it at once
    ([temp_body.reverse_join(body)]); in the end [body] is assigned from
    the body that did the final scan of the rightmost subrange.  The
    body is passed by reference: the updated body is returned. *)
Definition parallel_scan (r : blocked_range) (t : sched) (body : B) (m : M)
    : option (B * M) :=
  if range_empty r then Some (body, m)
  else
    let temp_body := body_reverse_join body (body_split body) in
    '(bd1, s, m1) ← pass1 true t (r_begin r) (r_end r) temp_body m;
    match s with
    | SLeaf => Some (body_assign body bd1, m1)
    | SNode _ _ _ _ =>
        '(last, m2) ← pass2 false s (r_begin r) (r_end r) bd1 m1;
        Some (body_assign body last, m2)
    end.
End parallel_scan.

(** The body that the functional form
    [parallel_scan(range, identity, scan, reverse_join)] wraps around its
    two functions. *)
Record lambda_scan_body (T M : Type) := LambdaBody {
  m_sum_slot : T;
  identity_element : T;
  m_scan : blocked_range → T → bool → M → option (T * M);
  m_reverse_join : T → T → T;
}.
Arguments LambdaBody {T M} _ _ _ _.
Arguments m_sum_slot {T M} _.
Arguments identity_element {T M} _.
Arguments m_scan {T M} _.
Arguments m_reverse_join {T M} _.

Definition with_sum {T M} (b : lambda_scan_body T M) (s : T) : lambda_scan_body T M :=
  LambdaBody s (identity_element b) (m_scan b) (m_reverse_join b).

#[export] Instance lambda_ScanBody {T M} : ScanBody (lambda_scan_body T M) M := {
  body_call r is_final b m :=
    '(s, m1) ← m_scan b r (m_sum_slot b) is_final m;
    Some (with_sum b s, m1);
  body_split b := with_sum b (identity_element b);
  body_reverse_join a this :=
    with_sum this (m_reverse_join this (m_sum_slot a) (m_sum_slot this));
  body_assign this b := with_sum this (m_sum_slot b);
}.

(** [parallel_scan(range, identity, scan, reverse_join)]: returns the
    summary over the whole range. *)
Definition parallel_scan_fn {T M} (r : blocked_range) (t : sched) (identity : T)
    (scan : blocked_range → T → bool → M → option (T * M))
    (reverse_join : T → T → T) (m : M) : option (T * M) :=
  '(body, m1) ← parallel_scan r t (LambdaBody identity identity scan reverse_join) m;
  Some (m_sum_slot body, m1).

(* ===================================================================== *)
(** ** [main.cpp]: [doMap], [doScan], [doFilter], [vecFilter] *)
(* ===================================================================== *)

Section doMap.
Context {OutT InT : Type}.

(** [for (i = r.begin(); i != r.end(); i++) out[i] = func(in[i]);]
    with [k] iterations left. *)
Fixpoint map_loop (func : InT → OutT) (inp : list InT) (k i : nat) (out : Mem OutT)
    : option (Mem OutT) :=
  match k with
  | 0 => Some out
  | S k' =>
      v ← inp !! i;
      out1 ← store i (func v) out;
      map_loop func inp k' (S i) out1
  end.

(** The lambda given to [parallel_for].  The loop test is [!=]: it
    only terminates as intended on a range with [begin ≤ end], which is
    all the library ever passes. *)
Definition map_lambda (func : InT → OutT) (inp : list InT) (r : blocked_range)
    (out : Mem OutT) : option (Mem OutT) :=
  if decide (r_begin r ≤ r_end r)
  then map_loop func inp (r_end r - r_begin r) (r_begin r) out
  else None.

Definition doMap (order : list blocked_range) (out : Mem OutT) (inp : list InT)
    (func : InT → OutT) (n : nat) : option (Mem OutT) :=
  parallel_for (Range 0 n) order (map_lambda func inp) out.
End doMap.

(** [doMap] with a [std::vector<bool>] for [out], which is how
    [vecFilter] calls it.  The lambda is the same, [out[i] = func(in[i])]
    for the indices of its subrange, but each assignment is a [Load] and
    a [Store], and [run] is the order in which the accesses of all the
    calls are made.  (Two calls that store to one word without
    synchronisation are a data race, which the language leaves
    undefined; the model takes each access of a word as one step, which
    is how the compiled code makes them.) *)
Definition doMap_vector_bool {InT} (run : list bit_event) (out : bit_vector)
    (inp : list InT) (func : InT → bool) (n : nat) : option bit_vector :=
  if range_empty (Range 0 n) then Some out
  else
    st ← bit_steps func inp run (BitState out ∅);
    Some (st_vec st).

Section doScan.
Context {T InT : Type}.
(** The implicit conversion of an input value to the output type. *)
Context (cast : InT → T).

(** [for (...) { tmp = func(tmp, in[i]); if (is_final_scan) out[i] = tmp; }] *)
Fixpoint scan_loop (func : T → T → T) (inp : list InT) (is_final_scan : bool)
    (k i : nat) (tmp : T) (out : Mem T) : option (T * Mem T) :=
  match k with
  | 0 => Some (tmp, out)
  | S k' =>
      v ← inp !! i;
      let tmp1 := func tmp (cast v) in
      out1 ← (if is_final_scan then store i tmp1 out else Some out);
      scan_loop func inp is_final_scan k' (S i) tmp1 out1
  end.

(** The scan lambda: [T tmp = sum; for ...; return tmp;]. *)
Definition scan_lambda (func : T → T → T) (inp : list InT) (r : blocked_range)
    (sum : T) (is_final_scan : bool) (out : Mem T) : option (T * Mem T) :=
  if decide (r_begin r ≤ r_end r)
  then scan_loop func inp is_final_scan (r_end r - r_begin r) (r_begin r) sum out
  else None.

Definition doScan (t : sched) (out : Mem T) (inp : list InT) (ident : T)
    (func : T → T → T) (n : nat) : option (T * Mem T) :=
  parallel_scan_fn (Range 0 n) t ident (scan_lambda func inp) func out.
End doScan.

Section doFilter.
Context {T : Type}.

(** [for (i = r.begin(); i < r.end(); i++)
       if (bolMatch[i]) out[ixMatch[i] - 1] = in[i];] *)
Fixpoint filter_loop (inp : list T) (bolMatch : list bool) (ixMatch : list N)
    (k i : nat) (out : Mem T) : option (Mem T) :=
  match k with
  | 0 => Some out
  | S k' =>
      bm ← bolMatch !! i;
      out1 ← (if bm : bool
              then ix ← ixMatch !! i; v ← inp !! i; store_at (size_pred ix) v out
              else Some out);
      filter_loop inp bolMatch ixMatch k' (S i) out1
  end.

Definition filter_lambda (inp : list T) (bolMatch : list bool) (ixMatch : list N)
    (r : blocked_range) (out : Mem T) : option (Mem T) :=
  filter_loop inp bolMatch ixMatch (r_end r - r_begin r) (r_begin r) out.

Definition doFilter (order : list blocked_range) (out : Mem T) (inp : list T)
    (bolMatch : list bool) (ixMatch : list N) (n : nat) : option (Mem T) :=
  parallel_for (Range 0 n) order (filter_lambda inp bolMatch ixMatch) out.

(** [vecFilter], for an element type [T] other than [bool].  [dflt] is
    the value-initialised [T()] that fills the freshly allocated
    [filteredVec]; [om], [ts], [os] are the runs of the three parallel
    steps.  [bolMatch] is a [std::vector<bool>]. *)
Definition vecFilter (dflt : T) (om : list bit_event) (ts : sched)
    (os : list blocked_range) (inputVec : list T) (predicate : T → bool)
    : option (list T) :=
  let n := length inputVec in
  bolMatch ← doMap_vector_bool om (new_bits n) inputVec predicate n;
  let scanFunc := size_add in
  let identity := 0%N in
  '(outSize, ixMatch) ←
    doScan bool_to_size ts (new_vec n 0%N) (bits bolMatch) identity scanFunc n;
  filteredVec ←
    doFilter os (new_vec (N.to_nat outSize) dflt) inputVec
             (bits bolMatch) (cells ixMatch) n;
  Some (cells filteredVec).
End doFilter.

(** [main]: the input vector and the predicate [x > 10]. *)
Definition main_input : list Z := [7; 1; 0; 13; 0; 15; 20; -1]%Z.
Definition main_predicate (x : Z) : bool := (10 <? x)%Z.

(* ===================================================================== *)
(** ** [main.cpp]: [printVec], and [vecFilter] with what it prints *)
(* ===================================================================== *)

(** [n] spaces, the fill characters of [setw]. *)
Fixpoint spaces (n : nat) : string :=
  match n with
  | 0 => EmptyString
  | S n' => String " "%char (spaces n')
  end.

(** [os << s]. *)
Definition put (s : string) (os : string) : string := os +:+ s.

(** [os << setw(w) << s]: [s] is adjusted to the right of a field of [w]
    characters, filled up with spaces; a longer [s] is written in full. *)
Definition put_setw (w : nat) (s : string) (os : string) : string :=
  put s (put (spaces (w - String.length s)) os).

(** [endl]: a newline. *)
Definition endl : string := String "010"%char EmptyString.

(** [printVec(vec, name)]; [show] is the text that [cout << e] writes for
    an element, [to_string] of the size is its decimal numeral. *)
Definition printVec {T} (show : T → string) (vec : list T) (name : string)
    (cout : string) : string :=
  let prefix := name +:+ " ["%string +:+ pretty (length vec) +:+ "]:"%string in
  let cout := put_setw 16 prefix cout in
  let cout := foldl (λ os e, put ","%string (put_setw 4 (show e) os)) cout vec in
  put endl cout.

(** [cout << e] for an element of a [vector<bool>]: [1] or [0]. *)
Definition show_bool (b : bool) : string := if b then "1"%string else "0"%string.

(** [vecFilter] together with the text it writes to [cout]. *)
Definition vecFilter_cout {T} (show : T → string) (dflt : T)
    (om : list bit_event) (ts : sched) (os : list blocked_range)
    (inputVec : list T) (predicate : T → bool) (cout : string)
    : option (string * list T) :=
  let n := length inputVec in
  let cout := printVec show inputVec "inputVec"%string cout in
  bolMatch ← doMap_vector_bool om (new_bits n) inputVec predicate n;
  let cout := printVec show_bool (bits bolMatch) "bolMatch"%string cout in
  let scanFunc := size_add in
  let identity := 0%N in
  '(outSize, ixMatch) ←
    doScan bool_to_size ts (new_vec n 0%N) (bits bolMatch) identity scanFunc n;
  let cout := printVec pretty (cells ixMatch) "ixMatch"%string cout in
  filteredVec ←
    doFilter os (new_vec (N.to_nat outSize) dflt) inputVec
             (bits bolMatch) (cells ixMatch) n;
  let cout := printVec show (cells filteredVec) "filteredVec"%string cout in
  Some (cout, cells filteredVec).

(* ===================================================================== *)
(** ** [seqvsparallel.cpp]: [Body], [DoParallelScan], [DoSerialScan] *)
(* ===================================================================== *)

Module SeqVsParallel.

Definition USE_OPTIMISED_LOOP : bool := false.

Section Body.
Context {T : Type}.
(** [T] comes with the constant [0] and with [operator+]. *)
Context (zero : T) (plus : T → T → T).

(** [class Body]: the running [sum] and the input array [x]; the
    output array [y], shared by all bodies, is the state passed
    along. *)
Record Body := MkBody { sum : T; x : list T }.

(** [Body(y_, x_) : sum(0), x(x_), y(y_)] *)
Definition Body_new (x_ : list T) : Body := MkBody zero x_.

Definition get_sum (b : Body) : T := sum b.

(** [for (...) { sum = sum + x[i]; y[i] = sum; }] *)
Fixpoint loop_final (xs : list T) (k i : nat) (s : T) (y : Mem T)
    : option (T * Mem T) :=
  match k with
  | 0 => Some (s, y)
  | S k' =>
      v ← xs !! i;
      let s1 := plus s v in
      y1 ← store i s1 y;
      loop_final xs k' (S i) s1 y1
  end.

(** [for (...) { sum = sum + x[i]; }] *)
Fixpoint loop_pre (xs : list T) (k i : nat) (s : T) (y : Mem T)
    : option (T * Mem T) :=
  match k with
  | 0 => Some (s, y)
  | S k' =>
      v ← xs !! i;
      loop_pre xs k' (S i) (plus s v) y
  end.

(** [for (...) { sum = sum + x[i]; if (Tag::is_final_scan()) y[i] = sum; }] *)
Fixpoint loop_tagged (is_final_scan : bool) (xs : list T) (k i : nat) (s : T)
    (y : Mem T) : option (T * Mem T) :=
  match k with
  | 0 => Some (s, y)
  | S k' =>
      v ← xs !! i;
      let s1 := plus s v in
      y1 ← (if is_final_scan then store i s1 y else Some y);
      loop_tagged is_final_scan xs k' (S i) s1 y1
  end.

(** [operator()] compiled with [USE_OPTIMISED_LOOP 1]. *)
Definition call_optimised (r : blocked_range) (is_final_scan : bool) (b : Body)
    (y : Mem T) : option (Body * Mem T) :=
  '(s, y1) ← (if is_final_scan
              then loop_final (x b) (r_end r - r_begin r) (r_begin r) (sum b) y
              else loop_pre (x b) (r_end r - r_begin r) (r_begin r) (sum b) y);
  Some (MkBody s (x b), y1).

(** [operator()] compiled with [USE_OPTIMISED_LOOP 0]. *)
Definition call_plain (r : blocked_range) (is_final_scan : bool) (b : Body)
    (y : Mem T) : option (Body * Mem T) :=
  '(s, y1) ← loop_tagged is_final_scan (x b) (r_end r - r_begin r) (r_begin r) (sum b) y;
  Some (MkBody s (x b), y1).

Definition call (r : blocked_range) (is_final_scan : bool) (b : Body) (y : Mem T)
    : option (Body * Mem T) :=
  if USE_OPTIMISED_LOOP then call_optimised r is_final_scan b y
  else call_plain r is_final_scan b y.

(** [Body(Body& b, split) : x(b.x), y(b.y), sum(0)] *)
Definition Body_split (b : Body) : Body := MkBody zero (x b).

(** [this.reverse_join(a)]: [sum = a.sum + sum]. *)
Definition reverse_join (a this : Body) : Body :=
  MkBody (plus (sum a) (sum this)) (x this).

(** [this.assign(b)]: [sum = b.sum]. *)
Definition assign (this b : Body) : Body := MkBody (sum b) (x this).

#[export] Instance Body_ScanBody : ScanBody Body (Mem T) := {
  body_call := call;
  body_split := Body_split;
  body_reverse_join := reverse_join;
  body_assign := assign;
}.

Definition DoParallelScan (t : sched) (y : Mem T) (x_ : list T) (n : nat)
    : option (T * Mem T) :=
  '(body, y1) ← parallel_scan (Range 0 n) t (Body_new x_) y;
  Some (get_sum body, y1).

(** [for (i = 0; i < n; ++i) { temp = temp + x[i]; y[i] = temp; }] *)
Fixpoint serial_loop (xs : list T) (k i : nat) (temp : T) (y : Mem T)
    : option (T * Mem T) :=
  match k with
  | 0 => Some (temp, y)
  | S k' =>
      v ← xs !! i;
      let temp1 := plus temp v in
      y1 ← store i temp1 y;
      serial_loop xs k' (S i) temp1 y1
  end.

Definition DoSerialScan (y : Mem T) (x_ : list T) (n : nat) : option (T * Mem T) :=
  serial_loop x_ n 0 zero y.
End Body.

End SeqVsParallel.

(* ===================================================================== *)
(** ** Vocabulary of the statements *)
(* ===================================================================== *)

(** [run f xs s b e = ((s ⊕ xs[b]) ⊕ xs[b+1]) ⊕ … ⊕ xs[e-1]]: the
    sequential left-to-right fold over [[b, e)], started at [s]. *)
Definition run {T} (f : T → T → T) (xs : list T) (s : T) (b e : nat) : T :=
  foldl f s (take (e - b) (drop b xs)).

(** The combiner laws, on a set [C] of values that contains the inputs
    and is closed under the combiner.  For an operation that is total on
    its type, [C] is the whole type. *)
Record monoid_on {T} (f : T → T → T) (e0 : T) (C : T → Prop) : Prop := {
  mon_closed : ∀ a b, C a → C b → C (f a b);
  mon_unit : C e0;
  mon_assoc : ∀ a b c, C a → C b → C c → f (f a b) c = f a (f b c);
  mon_left_id : ∀ a, C a → f e0 a = a;
  mon_right_id : ∀ a, C a → f a e0 = a;
}.
Arguments mon_closed {T f e0 C} _.
Arguments mon_unit {T f e0 C} _.
Arguments mon_assoc {T f e0 C} _.
Arguments mon_left_id {T f e0 C} _.
Arguments mon_right_id {T f e0 C} _.

(** The writes of a final scan of [[i, i + k)] entered with the sum [s]. *)
Definition scan_writes {T InT} (cast : InT → T) (func : T → T → T)
    (inp : list InT) (s : T) (i k : nat) : list (nat * T) :=
  (λ j, (j, run func (cast <$> inp) s i (S j))) <$> seq i k.

(** [R bd s]: the body [bd] holds the summary [s].  The laws say that a
    call folds the subrange into the summary, from left to right, that a
    final call moreover writes every running value, and that splitting,
    joining and assigning act on the summary as their names say. *)
Record scan_body_laws {B T} `{!ScanBody B (Mem T)} (R : B → T → Prop)
    (f : T → T → T) (e0 : T) (xs : list T) : Prop := {
  law_call : ∀ b e is_final bd s m,
    R bd s → b ≤ e → e ≤ length xs →
    (is_final = true → e ≤ length (cells m)) →
    ∃ bd' m',
      body_call (Range b e) is_final bd m = Some (bd', m')
      ∧ R bd' (run f xs s b e)
      ∧ length (cells m') = length (cells m)
      ∧ (∀ j, cells m' !! j =
              if is_final && bool_decide (b ≤ j < e)
              then Some (run f xs s b (S j)) else cells m !! j)
      ∧ (is_final = false → m' = m);
  law_split : ∀ bd s, R bd s → R (body_split bd) e0;
  law_reverse_join : ∀ a s this s',
    R a s → R this s' → R (body_reverse_join a this) (f s s');
  law_assign : ∀ this s bd s',
    R this s → R bd s' → R (body_assign this bd) s';
}.

(** The nodes left by the first pass cover non-empty ranges and hold
    summaries. *)
Fixpoint sum_shape {B T} (R : B → T → Prop) (s : sum_node B) (b e : nat) : Prop :=
  match s with
  | SLeaf => b < e
  | SNode ls mid l r =>
      b < mid ∧ mid < e ∧ (∃ v, R ls v)
      ∧ sum_shape R l b mid ∧ sum_shape R r mid e
  end.

(** Invariants of the two passes, for a combiner that obeys the laws.
    [P i] is the value due in cell [i - 1], [G b e] the summary of
    [[b, e)]. *)
Definition step_ok {T} (P : nat → T) (b e : nat) (m m' : Mem T) : Prop :=
  length (cells m') = length (cells m)
  ∧ ∀ j, cells m' !! j = cells m !! j
         ∨ (b ≤ j < e ∧ cells m' !! j = Some (P (S j))).

Definition filled {T} (P : nat → T) (b e : nat) (m : Mem T) : Prop :=
  ∀ j, b ≤ j < e → cells m !! j = Some (P (S j)).

Fixpoint annot {B T} (R : B → T → Prop) (G : nat → nat → T)
    (st : sum_node B) (b e : nat) : Prop :=
  match st with
  | SLeaf => b < e
  | SNode ls mid l r =>
      b < mid ∧ mid < e ∧ R ls (G b mid) ∧ annot R G l b mid ∧ annot R G r mid e
  end.

Fixpoint spine_ok {B T} (R : B → T → Prop) (P : nat → T) (G : nat → nat → T)
    (st : sum_node B) (b e : nat) (m : Mem T) : Prop :=
  match st with
  | SLeaf => b < e ∧ filled P b e m
  | SNode ls mid l r =>
      b < mid ∧ mid < e ∧ R ls (P mid)
      ∧ spine_ok R P G l b mid m ∧ annot R G r mid e
  end.

(** The body built by [doScan], holding the summary [s]. *)
Definition doScan_body {T InT} (cast : InT → T) (func : T → T → T) (ident : T)
    (inp : list InT) (s : T) : lambda_scan_body T (Mem T) :=
  LambdaBody s ident (scan_lambda cast func inp) func.

(** The indices of a subrange, in loop order. *)
Definition indices (r : blocked_range) : list nat :=
  seq (r_begin r) (r_end r - r_begin r).

(** Performing a list of writes, first to last. *)
Definition do_writes {T} (ws : list (nat * T)) (out : Mem T) : option (Mem T) :=
  foldl (λ acc w, o ← acc; store w.1 w.2 o) (Some out) ws.

(** The write of [doMap] at index [i]: [out[i] = func(in[i])]. *)
Definition map_write {OutT InT} (func : InT → OutT) (inp : list InT) (i : nat)
    : option (nat * OutT) :=
  v ← inp !! i; Some (i, func v).

(** The write of [doFilter] at index [i], if there is one:
    [out[ixMatch[i] - 1] = in[i]] when [bolMatch[i]]. *)
Definition filter_write {T} (inp : list T) (bolMatch : list bool) (ixMatch : list N)
    (i : nat) : option (nat * T) :=
  bm ← bolMatch !! i;
  if bm : bool
  then ix ← ixMatch !! i; v ← inp !! i; Some (N.to_nat (size_pred ix), v)
  else None.

(** [matches_before p l i]: how many of [l[0 … i-1]] satisfy [p]. *)
Definition matches_before {T} (p : T → bool) (l : list T) (i : nat) : nat :=
  length (List.filter p (take i l)).

(** The arrays can be read wherever the loop of [doFilter] over [[0, n)]
    reads them. *)
Definition filter_readable {T} (inp : list T) (bolMatch : list bool)
    (ixMatch : list N) (n : nat) : Prop :=
  n ≤ length bolMatch
  ∧ ∀ i, i < n → bolMatch !! i = Some true →
         i < length ixMatch ∧ i < length inp.

(** A splitting for [parallel_scan] over [[0, n)]; for [n = 0] the
    range is empty and is not split at all. *)
Definition scan_sched (n : nat) (t : sched) : Prop := n = 0 ∨ splits t 0 n.

(** How many elements of [l] satisfy [p]. *)
Fixpoint count_matches {T} (p : T → bool) (l : list T) : nat :=
  match l with
  | [] => 0
  | v :: l' => (if p v then 1 else 0) + count_matches p l'
  end.

(** The indices that the first pass writes, in the order of the writes:
    those of the subranges scanned for good. *)
Fixpoint written1 (is_final : bool) (t : sched) (b e : nat) : list nat :=
  match t with
  | Run => if is_final then seq b (e - b) else []
  | Cont mid l r => written1 is_final l b mid ++ written1 is_final r mid e
  | Steal mid l r => written1 is_final l b mid
  end.

(** The indices that the second pass writes. *)
Fixpoint written2 {B} (has_incoming : bool) (s : sum_node B) (b e : nat) : list nat :=
  match s with
  | SLeaf => if has_incoming then seq b (e - b) else []
  | SNode _ mid l r => written2 has_incoming l b mid ++ written2 true r mid e
  end.

(** [node_of t s]: [s] has a node exactly where [t] has a stolen part. *)
Fixpoint node_of {B} (t : sched) (s : sum_node B) : Prop :=
  match t, s with
  | Steal mid l r, SNode _ mid' sl sr => mid = mid' ∧ node_of l sl ∧ node_of r sr
  | Steal _ _ _, SLeaf => False
  | _, SLeaf => True
  | _, SNode _ _ _ _ => False
  end.

(** A final call logs one write per index of its range, in order. *)
Definition final_call_logs {B T} `{!ScanBody B (Mem T)} (R : B → T → Prop) : Prop :=
  ∀ b e bd s (m : Mem T) bd' m',
    R bd s → body_call (Range b e) true bd m = Some (bd', m') →
    (wlog m').*1 = (wlog m).*1 ++ seq b (e - b).

(** The characters that [printVec] writes for one element: the fill,
    the element, a comma. *)
Definition cell_chars {T} (show : T → string) (e : T) : list ascii :=
  replicate (4 - String.length (show e)) " "%char
  ++ String.list_ascii_of_string (show e) ++ [","%char].

(** A final call on a non-empty range ends its log with the write of the
    last cell of the range, and the value written there is the summary
    it returns. *)
Definition final_call_writes {B T} `{!ScanBody B (Mem T)} (R : B → T → Prop)
    (xs : list T) : Prop :=
  ∀ b e bd s (m : Mem T),
    R bd s → b < e → e ≤ length xs → e ≤ length (cells m) →
    ∃ bd' s' m' ws,
      body_call (Range b e) true bd m = Some (bd', m')
      ∧ R bd' s'
      ∧ wlog m' = wlog m ++ ws
      ∧ last ws = Some (e - 1, s').

(** The scatter pass in the words of the specification: for an index
    [i] with [boolMatch[i]] true, [output[idxMatch[i] - 1] = input[i]],
    the subtraction being the one of the natural numbers. *)
Definition scatter_write {T} (inp : list T) (bolMatch : list bool)
    (ixMatch : list N) (i : nat) : option (nat * T) :=
  match bolMatch !! i, ixMatch !! i, inp !! i with
  | Some true, Some ix, Some v => Some (N.to_nat ix - 1, v)
  | _, _, _ => None
  end.

(** The elements of [l] at the positions where [bs] holds [true], in
    the order of [l]. *)
Definition selected {T} (bs : list bool) (l : list T) : list T :=
  (List.filter snd (zip l bs)).*1.

(** A [bit_vector] has a word for each of its elements. *)
Definition bv_wf (v : bit_vector) : Prop :=
  bv_size v ≤ WORD_BITS * length (bv_words v).

(** Every bit set in the word [w], taken as word number [k] of the
    vector, is the bit of an element for which [func] holds. *)
Definition sound_word {InT} (func : InT → bool) (inp : list InT) (k : nat) (w : N)
    : Prop :=
  ∀ j, N.testbit w j = true →
       ∃ i x, word_of i = k ∧ bit_of i = j ∧ inp !! i = Some x ∧ func x = true.

(** In a run of [doMap] on a vector that starts out all [false], a bit
    is only ever set for an element for which [func] holds, in the words
    of the vector and in the words the threads have loaded. *)
Definition bit_inv {InT} (func : InT → bool) (inp : list InT) (size len : nat)
    (st : bit_state) : Prop :=
  bv_size (st_vec st) = size
  ∧ length (bv_words (st_vec st)) = len
  ∧ (∀ k w, bv_words (st_vec st) !! k = Some w → sound_word func inp k w)
  ∧ (∀ i w, st_loaded st !! i = Some w → sound_word func inp (word_of i) w).

(** What is left of the access sequence of a thread working on indices
    below [n]: whole assignments, possibly after the [Store] of an
    assignment whose [Load] has been made. *)
Definition thread_ok (n : nat) (loaded : gmap nat N) (th : list bit_event) : Prop :=
  (∃ ixs, th = assign_events ixs ∧ Forall (λ i, i < n) ixs)
  ∨ (∃ i ixs, th = Store i :: assign_events ixs ∧ is_Some (loaded !! i)
             ∧ i < n ∧ Forall (λ i, i < n) ixs).

(** Two runs of the calls of [doMap] on [[0, 1)] and [[1, 2)]: one call
    after the other, and the two at the same time, both loading the
    word before either stores it. *)
Definition serial_run_2 : list bit_event := [Load 0; Store 0; Load 1; Store 1].
Definition race_run_2 : list bit_event := [Load 0; Load 1; Store 0; Store 1].

(** A run of the map step of [main] in which the calls on [[0, 4)] and
    [[4, 8)] run at the same time: the first call loads the word for
    [bolMatch[3]] after the second has loaded it for [bolMatch[6]], and
    stores it after the second has stored. *)
Definition main_race_run : list bit_event :=
  [Load 0; Store 0; Load 1; Store 1; Load 2; Store 2;
   Load 4; Store 4; Load 5; Store 5; Load 6;
   Load 3; Store 6; Store 3;
   Load 7; Store 7].

(** A call on a non-empty range that comes to its end has stayed inside
    the arrays. *)
Definition call_in_bounds {B T} `{!ScanBody B (Mem T)} (R : B → T → Prop)
    (xs : list T) : Prop :=
  ∀ b e is_final bd s (m : Mem T) bd' m',
    R bd s → b < e → body_call (Range b e) is_final bd m = Some (bd', m') →
    e ≤ length xs ∧ (is_final = true → e ≤ length (cells m)).

(* ===================================================================== *)
(** ** Folding a segment of the input *)
(* ===================================================================== *)

Section run.
Context {T : Type} (f : T → T → T) (xs : list T).

Lemma run_nil s b : run f xs s b b = s.
Proof. unfold run. by rewrite Nat.sub_diag. Qed.

Lemma run_cons s b e v :
  xs !! b = Some v → b < e → run f xs s b e = run f xs (f s v) (S b) e.
Proof.
  intros Hv Hlt. unfold run.
  rewrite (drop_S _ _ _ Hv).
  replace (e - b) with (S (e - S b)) by lia. done.
Qed.

Lemma run_snoc s b e v :
  xs !! e = Some v → b ≤ e → run f xs s b (S e) = f (run f xs s b e) v.
Proof.
  intros Hv Hle. unfold run.
  replace (S e - b) with (S (e - b)) by lia.
  rewrite (take_S_r _ _ v).
  - by rewrite foldl_app.
  - rewrite lookup_drop. by replace (b + (e - b)) with e by lia.
Qed.

Lemma run_split s b m e :
  b ≤ m → m ≤ e → run f xs (run f xs s b m) m e = run f xs s b e.
Proof.
  intros Hbm Hme. unfold run.
  rewrite <- foldl_app. f_equal.
  replace (e - b) with ((m - b) + (e - m)) by lia.
  rewrite <- take_take_drop, drop_drop.
  by replace (b + (m - b)) with m by lia.
Qed.
End run.

Section monoid.
Context {T : Type} (f : T → T → T) (e0 : T) (C : T → Prop).
Context (HM : monoid_on f e0 C).

Lemma foldl_closed s l : C s → Forall C l → C (foldl f s l).
Proof.
  intros Hs Hl. revert s Hs.
  induction Hl as [|v l Hv Hl IH]; intros s Hs; simpl; [done|].
  apply IH. by apply (mon_closed HM).
Qed.

Lemma foldl_from_unit s l :
  C s → Forall C l → foldl f s l = f s (foldl f e0 l).
Proof.
  intros Hs Hl. revert s Hs.
  induction Hl as [|v l Hv Hl IH]; intros s Hs; simpl.
  - by rewrite (mon_right_id HM).
  - rewrite (IH (f s v)) by by apply (mon_closed HM).
    rewrite (IH (f e0 v)) by (apply (mon_closed HM); [apply (mon_unit HM)|done]).
    rewrite (mon_left_id HM) by done.
    rewrite (mon_assoc HM); [done..|].
    apply foldl_closed; [apply (mon_unit HM)|done].
Qed.

Context (xs : list T) (Hxs : Forall C xs).

Lemma seg_closed b e : Forall C (take (e - b) (drop b xs)).
Proof. by apply Forall_take, Forall_drop. Qed.

Lemma run_closed s b e : C s → C (run f xs s b e).
Proof. intros. apply foldl_closed; [done|apply seg_closed]. Qed.

Lemma run_from_unit s b e :
  C s → run f xs s b e = f s (run f xs e0 b e).
Proof. intros. apply foldl_from_unit; [done|apply seg_closed]. Qed.

(** Joining the summaries of two adjacent segments. *)
Lemma run_join b m e :
  b ≤ m → m ≤ e →
  f (run f xs e0 b m) (run f xs e0 m e) = run f xs e0 b e.
Proof.
  intros. rewrite <- (run_split f xs e0 b m e) by done.
  symmetry. apply run_from_unit. apply run_closed, (mon_unit HM).
Qed.
End monoid.

(* ===================================================================== *)
(** ** The loops of the scan bodies *)
(* ===================================================================== *)

Lemma store_Some {T} i (v : T) out :
  i < length (cells out) →
  store i v out = Some (MkMem (<[i := v]> (cells out)) (wlog out ++ [(i, v)])).
Proof. intros. unfold store. by rewrite decide_True. Qed.

Section scan_loop.
Context {T InT : Type} (cast : InT → T) (func : T → T → T) (inp : list InT).

Lemma scan_loop_spec is_final k i tmp out :
  i + k ≤ length inp →
  (is_final = true → i + k ≤ length (cells out)) →
  ∃ out',
    scan_loop cast func inp is_final k i tmp out
      = Some (run func (cast <$> inp) tmp i (i + k), out')
    ∧ length (cells out') = length (cells out)
    ∧ (∀ j, cells out' !! j =
            if is_final && bool_decide (i ≤ j < i + k)
            then Some (run func (cast <$> inp) tmp i (S j))
            else cells out !! j)
    ∧ wlog out' = wlog out
                  ++ (if is_final then scan_writes cast func inp tmp i k else [])
    ∧ (is_final = false → out' = out).
Proof.
  revert i tmp out. induction k as [|k IH]; intros i tmp out Hin Hout.
  - exists out. rewrite Nat.add_0_r, run_nil. simpl. split_and!; try done.
    + intros j. rewrite bool_decide_eq_false_2 by lia. by rewrite andb_false_r.
    + unfold scan_writes. simpl. destruct is_final; by rewrite app_nil_r.
  - destruct (lookup_lt_is_Some_2 inp i) as [v Hv]; [lia|].
    assert (Hxv : (cast <$> inp) !! i = Some (cast v))
      by by rewrite list_lookup_fmap, Hv.
    simpl. rewrite Hv. simpl.
    destruct is_final.
    + rewrite store_Some by (specialize (Hout eq_refl); lia). simpl.
      destruct (IH (S i) (func tmp (cast v))
                  (MkMem (<[i:=func tmp (cast v)]> (cells out))
                         (wlog out ++ [(i, func tmp (cast v))])))
        as (out' & Hrun & Hlen & Hcells & Hlog & _).
      { lia. }
      { intros _. simpl. rewrite length_insert. specialize (Hout eq_refl). lia. }
      exists out'. simpl in Hlen, Hcells, Hlog.
      rewrite (run_cons func _ tmp i (i + S k) _ Hxv) by lia.
      replace (i + S k) with (S i + k) by lia.
      split_and!; try done.
      * by rewrite Hlen, length_insert.
      * intros j. rewrite Hcells. simpl.
        destruct (decide (j = i)) as [->|Hne].
        -- rewrite bool_decide_eq_false_2 by lia.
           rewrite bool_decide_eq_true_2 by lia.
           rewrite list_lookup_insert_eq by (specialize (Hout eq_refl); lia).
           rewrite (run_cons func _ tmp i (S i) _ Hxv) by lia.
           by rewrite run_nil.
        -- destruct (decide (S i ≤ j < S i + k)).
           ++ rewrite !bool_decide_eq_true_2 by lia.
              by rewrite <- (run_cons func _ tmp i (S j) _ Hxv) by lia.
           ++ rewrite !bool_decide_eq_false_2 by lia.
              by rewrite list_lookup_insert_ne.
      * rewrite Hlog. unfold scan_writes. simpl.
        rewrite <- app_assoc. simpl. f_equal. f_equal.
        -- rewrite (run_cons func _ tmp i (S i) _ Hxv) by lia.
           by rewrite run_nil.
        -- apply list_fmap_ext. intros ? j Hj.
           apply lookup_seq in Hj as [-> ?].
           by rewrite <- (run_cons func _ tmp i (S (S i + _)) _ Hxv) by lia.
    + simpl.
      destruct (IH (S i) (func tmp (cast v)) out) as (out' & Hrun & Hlen & Hcells & Hlog & Heq);
        [lia|done|].
      rewrite (Heq eq_refl) in *. exists out.
      rewrite (run_cons func _ tmp i (i + S k) _ Hxv) by lia.
      replace (i + S k) with (S i + k) by lia.
      split_and!; done.
Qed.
End scan_loop.

(* ===================================================================== *)
(** ** What [parallel_scan] needs of a body, and what it then gives *)
(* ===================================================================== *)

Section scan_any_combiner.
Context {B T : Type} `{!ScanBody B (Mem T)}.
Context (R : B → T → Prop) (f : T → T → T) (e0 : T) (xs : list T).
Context (HL : scan_body_laws R f e0 xs).

Lemma R_split bd s : R bd s → R (body_split bd) e0.
Proof. apply HL. Qed.

Lemma R_join a s this s' :
  R a s → R this s' → R (body_reverse_join a this) (f s s').
Proof. apply HL. Qed.

Lemma R_assign this s bd s' :
  R this s → R bd s' → R (body_assign this bd) s'.
Proof. apply HL. Qed.

Lemma call_final_last b e bd s m :
  R bd s → b < e → e ≤ length xs → e ≤ length (cells m) →
  ∃ bd' s' m',
    body_call (Range b e) true bd m = Some (bd', m')
    ∧ R bd' s' ∧ length (cells m') = length (cells m)
    ∧ cells m' !! (e - 1) = Some s'.
Proof.
  intros HR Hbe Hxs Hm.
  destruct (law_call _ _ _ _ HL b e true bd s m) as (bd' & m' & Hc & HR' & Hlen & Hcells & _);
    [done|lia|done|done|].
  exists bd', (run f xs s b e), m'. split_and!; try done.
  rewrite Hcells. simpl. rewrite bool_decide_eq_true_2 by lia.
  by replace (S (e - 1)) with e by lia.
Qed.

Lemma pass1_total is_final t b e bd s m :
  R bd s → splits t b e → e ≤ length xs → e ≤ length (cells m) →
  ∃ bd' s' st m',
    pass1 is_final t b e bd m = Some (bd', st, m')
    ∧ R bd' s' ∧ length (cells m') = length (cells m)
    ∧ sum_shape R st b e
    ∧ (is_final = true → st = SLeaf → cells m' !! (e - 1) = Some s').
Proof.
  revert is_final b e bd s m.
  induction t as [|mid l IHl r IHr|mid l IHl r IHr];
    intros is_final b e bd s m HR Hsp Hxs Hm; simpl in Hsp.
  - destruct is_final.
    + destruct (call_final_last b e bd s m) as (bd' & s' & m' & Hc & HR' & Hlen & Hlast);
        [done..|].
      exists bd', s', SLeaf, m'. simpl. rewrite Hc. simpl. by split_and!.
    + destruct (law_call _ _ _ _ HL b e false bd s m) as (bd' & m' & Hc & HR' & Hlen & _);
        [done|lia|done|done|].
      exists bd', (run f xs s b e), SLeaf, m'. simpl. rewrite Hc. simpl. by split_and!.
  - destruct Hsp as (Hb & He & Hl & Hr & _ & ->).
    destruct (IHl is_final b mid bd s m) as (bd1 & s1 & st1 & m1 & H1 & HR1 & Hlen1 & _);
      [done|done|lia|lia|].
    destruct (IHr is_final mid e bd1 s1 m1) as (bd2 & s2 & st2 & m2 & H2 & HR2 & Hlen2 & _ & Hlast);
      [done|done|lia|lia|].
    exists bd2, s2, SLeaf, m2. simpl. rewrite H1. simpl.
    simpl in H2. rewrite H2. simpl.
    split_and!; try done; [congruence|lia|].
    intros Hf _. apply Hlast; [done|].
    destruct (body_call _ _ _ _) as [[??]|]; simpl in H2; congruence.
  - destruct Hsp as (Hb & He & Hl & Hr).
    destruct (IHl is_final b mid bd s m) as (bd1 & s1 & st1 & m1 & H1 & HR1 & Hlen1 & Hsh1 & _);
      [done|done|lia|lia|].
    destruct (IHr false mid e (body_split bd) e0 m1)
      as (bd2 & s2 & st2 & m2 & H2 & HR2 & Hlen2 & Hsh2 & _);
      [by eapply R_split|done|lia|lia|].
    exists (body_reverse_join bd1 bd2), (f s1 s2), (SNode bd1 mid st1 st2), m2.
    simpl. rewrite H1. simpl. rewrite H2. simpl.
    split_and!; try done; [by eapply R_join|congruence|by eauto].
Qed.

Lemma pass2_total has_incoming st b e bd s m :
  R bd s → sum_shape R st b e → e ≤ length xs → e ≤ length (cells m) →
  ∃ last s' m',
    pass2 has_incoming st b e bd m = Some (last, m')
    ∧ R last s' ∧ length (cells m') = length (cells m)
    ∧ (has_incoming = true ∨ st ≠ SLeaf → cells m' !! (e - 1) = Some s').
Proof.
  revert has_incoming b e bd s m.
  induction st as [|ls mid l IHl r IHr];
    intros has_incoming b e bd s m HR Hsh Hxs Hm; simpl in Hsh.
  - destruct has_incoming; simpl.
    + destruct (call_final_last b e bd s m) as (bd' & s' & m' & Hc & HR' & Hlen & Hlast);
        [done..|].
      exists bd', s', m'. by split_and!.
    + exists bd, s, m. split_and!; try done. by intros [|].
  - destruct Hsh as (Hb & He & [v Hv] & Hl & Hr).
    destruct (IHl has_incoming b mid bd s m) as (bd1 & s1 & m1 & H1 & _ & Hlen1 & _);
      [done|done|lia|lia|].
    set (rb := if has_incoming then body_reverse_join bd ls else ls).
    assert (∃ w, R rb w) as [w Hw].
    { unfold rb. destruct has_incoming; [|by eauto].
      eexists. by eapply R_join. }
    destruct (IHr true mid e rb w m1) as (last & s2 & m2 & H2 & HR2 & Hlen2 & Hlast);
      [done|done|lia|lia|].
    exists last, s2, m2. simpl. rewrite H1. simpl. fold rb. rewrite H2.
    split_and!; try done; [congruence|]. intros _. apply Hlast. by left.
Qed.

(** With any combiner at all, the body that [parallel_scan] hands back
    holds the value of the last cell written. *)
Lemma parallel_scan_last t b e body s m :
  R body s → splits t b e → e ≤ length xs → e ≤ length (cells m) →
  ∃ body' s' m',
    parallel_scan (Range b e) t body m = Some (body', m')
    ∧ R body' s' ∧ length (cells m') = length (cells m)
    ∧ cells m' !! (e - 1) = Some s'.
Proof.
  intros HR Hsp Hxs Hm.
  assert (Hbe : b < e) by (destruct t; simpl in Hsp; lia).
  unfold parallel_scan, range_empty. simpl.
  rewrite (proj2 (Nat.ltb_lt b e) Hbe). simpl.
  destruct (pass1_total true t b e (body_reverse_join body (body_split body)) (f s e0) m)
    as (bd1 & s1 & st & m1 & H1 & HR1 & Hlen1 & Hsh & Hlast1); [|done..|].
  { eapply R_join; [done|]. by eapply R_split. }
  rewrite H1. simpl. destruct st as [|ls mid sl sr].
  - exists (body_assign body bd1), s1, m1. split_and!; try done.
    + by eapply R_assign.
    + by apply Hlast1.
  - destruct (pass2_total false (SNode ls mid sl sr) b e bd1 s1 m1)
      as (last & s2 & m2 & H2 & HR2 & Hlen2 & Hlast2); [done|done|done|lia|].
    rewrite H2. simpl.
    exists (body_assign body last), s2, m2. split_and!; try done.
    + by eapply R_assign.
    + congruence.
    + apply Hlast2. by right.
Qed.
End scan_any_combiner.

Section step_ok.
Context {T : Type} (P : nat → T).

Lemma step_ok_refl b e (m : Mem T) : step_ok P b e m m.
Proof. split; [done|]. by left. Qed.

Lemma step_ok_mono b e b' e' (m m' : Mem T) :
  step_ok P b' e' m m' → b ≤ b' → e' ≤ e → step_ok P b e m m'.
Proof.
  intros [Hlen H] ??. split; [done|]. intros j.
  destruct (H j) as [|[? ?]]; [by left|right]. split; [lia|done].
Qed.

Lemma step_ok_trans b e (m m1 m2 : Mem T) :
  step_ok P b e m m1 → step_ok P b e m1 m2 → step_ok P b e m m2.
Proof.
  intros [Hlen1 H1] [Hlen2 H2]. split; [congruence|]. intros j.
  destruct (H2 j) as [Heq|?]; [|by right].
  rewrite Heq. apply H1.
Qed.

Lemma filled_step b e b' e' (m m' : Mem T) :
  filled P b e m → step_ok P b' e' m m' → filled P b e m'.
Proof.
  intros Hf [_ H] j Hj. destruct (H j) as [->|[_ ->]]; [by apply Hf|done].
Qed.

Lemma filled_app b mid e (m : Mem T) :
  filled P b mid m → filled P mid e m → filled P b e m.
Proof.
  intros H1 H2 j Hj. destruct (decide (j < mid)); [apply H1|apply H2]; lia.
Qed.

Lemma spine_ok_step {B} (R : B → T → Prop) G st b e b' e' (m m' : Mem T) :
  spine_ok R P G st b e m → step_ok P b' e' m m' → spine_ok R P G st b e m'.
Proof.
  revert b e. induction st as [|ls mid l IHl r IHr]; intros b e; simpl.
  - intros [? ?] ?. split; [done|]. by eapply filled_step.
  - intros (? & ? & ? & ? & ?) ?. split_and!; try done. by apply IHl.
Qed.
End step_ok.

Lemma pass1_steal_free {B M} `{!ScanBody B M} is_final t b e (bd bd' : B) (m m' : M) st :
  steal_free t = true →
  pass1 is_final t b e bd m = Some (bd', st, m') → st = SLeaf.
Proof.
  destruct t; simpl; intros Hsf Hp; [| |done].
  - destruct (body_call _ _ _ _) as [[??]|]; simpl in Hp; congruence.
  - destruct (pass1 is_final t1 _ _ _ _) as [[[??]?]|]; simpl in Hp; [|done].
    destruct (pass1 is_final t2 _ _ _ _) as [[[??]?]|]; simpl in Hp; congruence.
Qed.

Section scan_monoid.
Context {B T : Type} `{!ScanBody B (Mem T)}.
Context (R : B → T → Prop) (f : T → T → T) (e0 : T) (xs : list T).
Context (HL : scan_body_laws R f e0 xs).
Context (C : T → Prop) (HM : monoid_on f e0 C) (Hxs : Forall C xs).

Local Abbreviation pre := (run f xs e0 0).
Local Abbreviation seg := (run f xs e0).

Lemma pre_closed i : C (pre i).
Proof. apply (run_closed f e0 C HM xs Hxs), (mon_unit HM). Qed.

Lemma pre_run b e : b ≤ e → run f xs (pre b) b e = pre e.
Proof. intros. apply run_split; lia. Qed.

Lemma pre_join b e : b ≤ e → f (pre b) (seg b e) = pre e.
Proof. intros. apply (run_join f e0 C HM xs Hxs); lia. Qed.

Lemma pass1_pre t b e bd s m :
  R bd s → C s → s = e0 ∨ steal_free t = true →
  splits t b e → e ≤ length xs →
  ∃ bd' st,
    pass1 false t b e bd m = Some (bd', st, m)
    ∧ R bd' (run f xs s b e) ∧ annot R seg st b e.
Proof.
  revert b e bd s m.
  induction t as [|mid l IHl r IHr|mid l IHl r IHr];
    intros b e bd s m HR HC Hs Hsp Hx; simpl in Hsp.
  - destruct (law_call _ _ _ _ HL b e false bd s m)
      as (bd' & m' & Hc & HR' & _ & _ & Heq); [done|lia|done|done|].
    rewrite (Heq eq_refl) in Hc.
    exists bd', SLeaf. simpl. rewrite Hc. by split_and!.
  - destruct Hsp as (Hb & He & Hl & Hr & Hsf & ->).
    destruct (IHl b mid bd s m) as (bd1 & st1 & H1 & HR1 & _);
      [done|done|by right|done|lia|].
    destruct (IHr mid e bd1 (run f xs s b mid) m) as (bd2 & st2 & H2 & HR2 & _);
      [done|by apply (run_closed f e0 C HM xs Hxs)|by right|done|lia|].
    exists bd2, SLeaf. simpl. rewrite H1. simpl.
    simpl in H2. rewrite H2. simpl.
    rewrite run_split in HR2 by lia. split_and!; try done. lia.
  - destruct Hsp as (Hb & He & Hl & Hr).
    destruct Hs as [->|?]; [|done].
    destruct (IHl b mid bd e0 m) as (bd1 & st1 & H1 & HR1 & Ha1);
      [done|done|by left|done|lia|].
    destruct (IHr mid e (body_split bd) e0 m) as (bd2 & st2 & H2 & HR2 & Ha2);
      [by eapply (R_split R f e0 xs HL)|done|by left|done|lia|].
    exists (body_reverse_join bd1 bd2), (SNode bd1 mid st1 st2).
    simpl. rewrite H1. simpl. rewrite H2. simpl. split_and!; try done.
    rewrite <- (run_join f e0 C HM xs Hxs b mid e) by lia.
    by eapply (R_join R f e0 xs HL).
Qed.

Lemma call_final b e bd m :
  R bd (pre b) → b ≤ e → e ≤ length xs → e ≤ length (cells m) →
  ∃ bd' m',
    body_call (Range b e) true bd m = Some (bd', m')
    ∧ R bd' (pre e) ∧ step_ok pre b e m m' ∧ filled pre b e m'.
Proof.
  intros HR Hbe Hx Hm.
  destruct (law_call _ _ _ _ HL b e true bd (pre b) m)
    as (bd' & m' & Hc & HR' & Hlen & Hcells & _); [done..|].
  exists bd', m'. rewrite pre_run in HR' by done. split_and!; try done.
  - split; [done|]. intros j. rewrite Hcells. simpl. case_bool_decide.
    + right. split; [done|]. rewrite pre_run; [done|lia].
    + by left.
  - intros j Hj. rewrite Hcells. simpl.
    rewrite bool_decide_eq_true_2 by done. rewrite pre_run; [done|lia].
Qed.

Lemma pass1_fin t b e bd m :
  R bd (pre b) → splits t b e → e ≤ length xs → e ≤ length (cells m) →
  ∃ bd' st m',
    pass1 true t b e bd m = Some (bd', st, m')
    ∧ R bd' (pre e) ∧ step_ok pre b e m m' ∧ spine_ok R pre seg st b e m'.
Proof.
  revert b e bd m.
  induction t as [|mid l IHl r IHr|mid l IHl r IHr];
    intros b e bd m HR Hsp Hx Hm; simpl in Hsp.
  - destruct (call_final b e bd m) as (bd' & m' & Hc & HR' & Hst & Hf);
      [done|lia|done|done|].
    exists bd', SLeaf, m'. simpl. rewrite Hc. by split_and!.
  - destruct Hsp as (Hb & He & Hl & Hr & Hsf & ->).
    destruct (IHl b mid bd m) as (bd1 & st1 & m1 & H1 & HR1 & Hst1 & Hok1);
      [done|done|lia|lia|].
    assert (st1 = SLeaf) as -> by by eapply pass1_steal_free.
    destruct Hst1 as [Hlen1 Hst1].
    destruct (IHr mid e bd1 m1) as (bd2 & st2 & m2 & H2 & HR2 & Hst2 & Hok2);
      [done|done|lia|lia|].
    assert (st2 = SLeaf) as ->
      by by apply (pass1_steal_free true Run mid e bd1 bd2 m1 m2 st2).
    exists bd2, SLeaf, m2. simpl. rewrite H1. simpl.
    simpl in H2. rewrite H2. simpl.
    destruct Hok1 as [_ Hf1]. destruct Hok2 as [_ Hf2].
    split_and!; try done.
    + eapply step_ok_trans.
      * eapply (step_ok_mono pre b e b mid); [by split|lia|lia].
      * eapply step_ok_mono; [done|lia|lia].
    + lia.
    + eapply filled_app; [|done]. by eapply filled_step.
  - destruct Hsp as (Hb & He & Hl & Hr).
    destruct (IHl b mid bd m) as (bd1 & st1 & m1 & H1 & HR1 & Hst1 & Hok1);
      [done|done|lia|lia|].
    destruct (pass1_pre r mid e (body_split bd) e0 m1) as (bd2 & st2 & H2 & HR2 & Ha2);
      [by eapply (R_split R f e0 xs HL)|apply (mon_unit HM)|by left|done|lia|].
    exists (body_reverse_join bd1 bd2), (SNode bd1 mid st1 st2), m1.
    simpl. rewrite H1. simpl. rewrite H2. simpl. split_and!; try done.
    + rewrite <- (pre_join mid e) by lia. by eapply (R_join R f e0 xs HL).
    + eapply step_ok_mono; [done|lia|lia].
Qed.

Lemma pass2_inc st b e bd m :
  R bd (pre b) → annot R seg st b e → e ≤ length xs → e ≤ length (cells m) →
  ∃ last m',
    pass2 true st b e bd m = Some (last, m')
    ∧ R last (pre e) ∧ step_ok pre b e m m' ∧ filled pre b e m'.
Proof.
  revert b e bd m.
  induction st as [|ls mid l IHl r IHr]; intros b e bd m HR Ha Hx Hm; simpl in Ha.
  - simpl. apply call_final; [done|lia|done|done].
  - destruct Ha as (Hb & He & Hls & Hal & Har).
    destruct (IHl b mid bd m) as (bd1 & m1 & H1 & _ & Hst1 & Hf1);
      [done|done|lia|lia|].
    destruct (IHr mid e (body_reverse_join bd ls) m1) as (last & m2 & H2 & HR2 & Hst2 & Hf2).
    { rewrite <- (pre_join b mid) by lia. by eapply (R_join R f e0 xs HL). }
    { done. }
    { lia. }
    { destruct Hst1 as [-> _]. lia. }
    exists last, m2. simpl. rewrite H1. simpl. rewrite H2.
    split_and!; try done.
    + eapply step_ok_trans.
      * eapply (step_ok_mono pre b e b mid); [done|lia|lia].
      * eapply step_ok_mono; [done|lia|lia].
    + eapply filled_app; [|done]. by eapply filled_step.
Qed.

Lemma pass2_spine st b e bd m :
  spine_ok R pre seg st b e m → e ≤ length xs → e ≤ length (cells m) →
  ∃ last m',
    pass2 false st b e bd m = Some (last, m')
    ∧ step_ok pre b e m m' ∧ filled pre b e m'
    ∧ match st with SLeaf => last = bd | SNode _ _ _ _ => R last (pre e) end.
Proof.
  revert b e bd m.
  induction st as [|ls mid l IHl r IHr]; intros b e bd m Hok Hx Hm; simpl in Hok.
  - destruct Hok as [_ Hf]. exists bd, m. simpl. split_and!; try done.
    apply step_ok_refl.
  - destruct Hok as (Hb & He & Hls & Hokl & Har).
    destruct (IHl b mid bd m) as (bd1 & m1 & H1 & Hst1 & Hf1 & _);
      [done|lia|lia|].
    destruct (pass2_inc r mid e ls m1) as (last & m2 & H2 & HR2 & Hst2 & Hf2);
      [done|done|lia| |].
    { destruct Hst1 as [-> _]. lia. }
    exists last, m2. simpl. rewrite H1. simpl. rewrite H2.
    split_and!; try done.
    + eapply step_ok_trans.
      * eapply (step_ok_mono pre b e b mid); [done|lia|lia].
      * eapply step_ok_mono; [done|lia|lia].
    + eapply filled_app; [|done]. by eapply filled_step.
Qed.

(** [parallel_scan] over [[0, n)], whatever the splitting: cell [j] gets
    the fold of the inputs [0 … j], cells from [n] on are untouched, and
    the body handed back holds the fold of all [n] inputs. *)
Lemma parallel_scan_monoid t n body m :
  R body e0 → n = 0 ∨ splits t 0 n → n ≤ length xs → n ≤ length (cells m) →
  ∃ body' m',
    parallel_scan (Range 0 n) t body m = Some (body', m')
    ∧ R body' (pre n)
    ∧ length (cells m') = length (cells m)
    ∧ ∀ j, cells m' !! j = if bool_decide (j < n) then Some (pre (S j)) else cells m !! j.
Proof.
  intros HR Hsp Hx Hm. unfold parallel_scan, range_empty. simpl.
  destruct (decide (n = 0)) as [->|Hn].
  - exists body, m. simpl. rewrite run_nil. split_and!; try done.
  - destruct Hsp as [?|Hsp]; [done|].
    rewrite (proj2 (Nat.ltb_lt 0 n)) by lia. simpl.
    destruct (pass1_fin t 0 n (body_reverse_join body (body_split body)) m)
      as (bd1 & st & m1 & H1 & HR1 & Hst1 & Hok1); [|done..|].
    { rewrite run_nil.
      assert (Hee : f e0 e0 = e0) by apply (mon_left_id HM), (mon_unit HM).
      rewrite <- Hee.
      eapply (R_join R f e0 xs HL); [done|]. by eapply (R_split R f e0 xs HL). }
    rewrite H1. simpl.
    assert (Hfin : ∀ m', step_ok pre 0 n m m' → filled pre 0 n m' →
      length (cells m') = length (cells m)
      ∧ ∀ j, cells m' !! j = if bool_decide (j < n) then Some (pre (S j)) else cells m !! j).
    { intros m' [Hlen Hst] Hf. split; [done|]. intros j. case_bool_decide.
      - apply Hf. lia.
      - destruct (Hst j) as [|[? _]]; [done|lia]. }
    destruct st as [|ls mid sl sr].
    + exists (body_assign body bd1), m1. destruct Hok1 as [_ Hf].
      destruct (Hfin m1) as [? ?]; [done..|].
      split_and!; try done. by eapply (R_assign R f e0 xs HL).
    + destruct (pass2_spine (SNode ls mid sl sr) 0 n bd1 m1)
        as (last & m2 & H2 & Hst2 & Hf2 & HR2); [done|done| |].
      { destruct Hst1 as [-> _]. lia. }
      rewrite H2. simpl. exists (body_assign body last), m2.
      destruct (Hfin m2) as [? ?]; [by eapply step_ok_trans|done|].
      split_and!; try done. by eapply (R_assign R f e0 xs HL).
Qed.
End scan_monoid.

(* ===================================================================== *)
(** ** The two bodies obey the laws *)
(* ===================================================================== *)

Section doScan_laws.
Context {T InT : Type} (cast : InT → T) (func : T → T → T) (ident : T).
Context (inp : list InT).

Local Abbreviation doScan_body := (doScan_body cast func ident inp).

Lemma doScan_body_laws :
  scan_body_laws (λ bd s, bd = doScan_body s) func ident (cast <$> inp).
Proof.
  split.
  - intros b e is_final bd s m -> Hbe Hx Hm. rewrite length_fmap in Hx.
    destruct (scan_loop_spec cast func inp is_final (e - b) b s m)
      as (m' & Hrun & Hlen & Hcells & _ & Heq).
    { lia. }
    { intros Hf. specialize (Hm Hf). lia. }
    replace (b + (e - b)) with e in * by lia.
    exists (doScan_body (run func (cast <$> inp) s b e)), m'.
    split_and!; try done.
    simpl. unfold scan_lambda. simpl. rewrite decide_True by done.
    rewrite Hrun. done.
  - by intros bd s ->.
  - by intros a s this s' -> ->.
  - by intros this s bd s' -> ->.
Qed.

Lemma doScan_unfold t out n :
  doScan cast t out inp ident func n
  = '(body, m1) ← parallel_scan (Range 0 n) t (doScan_body ident) out;
    Some (m_sum_slot body, m1).
Proof. done. Qed.

(** [doScan] for a combiner that obeys the laws on [C]. *)
Lemma doScan_monoid C t out n :
  monoid_on func ident C → Forall C (cast <$> inp) →
  n = 0 ∨ splits t 0 n → n ≤ length inp → n ≤ length (cells out) →
  ∃ out',
    doScan cast t out inp ident func n
      = Some (run func (cast <$> inp) ident 0 n, out')
    ∧ length (cells out') = length (cells out)
    ∧ ∀ j, cells out' !! j =
           if bool_decide (j < n)
           then Some (run func (cast <$> inp) ident 0 (S j))
           else cells out !! j.
Proof.
  intros HM HC Hsp Hin Hout.
  destruct (parallel_scan_monoid _ func ident (cast <$> inp) (doScan_body_laws)
              C HM HC t n (doScan_body ident) out)
    as (body' & out' & Hp & -> & Hlen & Hcells);
    [done|done|by rewrite length_fmap|done|].
  exists out'. rewrite doScan_unfold, Hp. done.
Qed.

(** [doScan] for any combiner: the value returned is the last cell. *)
Lemma doScan_last t out n :
  splits t 0 n → n ≤ length inp → n ≤ length (cells out) →
  ∃ total out',
    doScan cast t out inp ident func n = Some (total, out')
    ∧ length (cells out') = length (cells out)
    ∧ cells out' !! (n - 1) = Some total.
Proof.
  intros Hsp Hin Hout.
  destruct (parallel_scan_last _ func ident (cast <$> inp) (doScan_body_laws)
              t 0 n (doScan_body ident) ident out)
    as (body' & s' & out' & Hp & -> & Hlen & Hlast);
    [done|done|by rewrite length_fmap|done|].
  exists s', out'. rewrite doScan_unfold, Hp. done.
Qed.
End doScan_laws.

Section Body_laws.
Import SeqVsParallel.
Context {T : Type} (zero : T) (plus : T → T → T).

Lemma loop_tagged_scan_loop is_final (xs : list T) k i s y :
  loop_tagged plus is_final xs k i s y = scan_loop id plus xs is_final k i s y.
Proof.
  revert i s y. induction k as [|k IH]; intros i s y; simpl; [done|].
  destruct (xs !! i) as [v|]; simpl; [|done].
  destruct (if is_final then store i (plus s v) y else Some y); simpl; [|done].
  apply IH.
Qed.

Lemma loop_final_tagged (xs : list T) k i s y :
  loop_final plus xs k i s y = loop_tagged plus true xs k i s y.
Proof.
  revert i s y. induction k as [|k IH]; intros i s y; simpl; [done|].
  destruct (xs !! i) as [v|]; simpl; [|done].
  destruct (store i (plus s v) y); simpl; [|done].
  apply IH.
Qed.

Lemma loop_pre_tagged (xs : list T) k i s y :
  loop_pre plus xs k i s y = loop_tagged plus false xs k i s y.
Proof.
  revert i s y. induction k as [|k IH]; intros i s y; simpl; [done|].
  destruct (xs !! i) as [v|]; simpl; [|done].
  apply IH.
Qed.

Lemma Body_laws (xs : list T) :
  scan_body_laws (ScanBody0 := Body_ScanBody zero plus)
    (λ bd s, bd = MkBody s xs) plus zero xs.
Proof.
  split.
  - intros b e is_final bd s m -> Hbe Hx Hm.
    destruct (scan_loop_spec id plus xs is_final (e - b) b s m)
      as (m' & Hrun & Hlen & Hcells & _ & Heq).
    { lia. }
    { intros Hf. specialize (Hm Hf). lia. }
    replace (b + (e - b)) with e in * by lia.
    rewrite list_fmap_id in *.
    exists (MkBody (run plus xs s b e) xs), m'.
    split_and!; try done.
    simpl. unfold call, call_plain. simpl.
    rewrite loop_tagged_scan_loop, Hrun. done.
  - by intros bd s ->.
  - by intros a s this s' -> ->.
  - by intros this s bd s' -> ->.
Qed.

(** [DoParallelScan] for an addition that obeys the laws on [C]. *)
Lemma DoParallelScan_monoid C t y (xs : list T) n :
  monoid_on plus zero C → Forall C xs →
  n = 0 ∨ splits t 0 n → n ≤ length xs → n ≤ length (cells y) →
  ∃ y',
    DoParallelScan zero plus t y xs n = Some (run plus xs zero 0 n, y')
    ∧ length (cells y') = length (cells y)
    ∧ ∀ j, cells y' !! j =
           if bool_decide (j < n) then Some (run plus xs zero 0 (S j))
           else cells y !! j.
Proof.
  intros HM HC Hsp Hin Hout.
  destruct (parallel_scan_monoid _ plus zero xs (Body_laws xs)
              C HM HC t n (Body_new zero xs) y)
    as (body' & y' & Hp & -> & Hlen & Hcells); [done..|].
  exists y'. unfold DoParallelScan. rewrite Hp. done.
Qed.

(** The sequential reference. *)
Lemma serial_loop_scan_loop (xs : list T) k i s y :
  serial_loop plus xs k i s y = scan_loop id plus xs true k i s y.
Proof.
  revert i s y. induction k as [|k IH]; intros i s y; simpl; [done|].
  destruct (xs !! i) as [v|]; simpl; [|done].
  destruct (store i (plus s v) y); simpl; [|done].
  apply IH.
Qed.

Lemma DoSerialScan_spec y (xs : list T) n :
  n ≤ length xs → n ≤ length (cells y) →
  ∃ y',
    DoSerialScan zero plus y xs n = Some (run plus xs zero 0 n, y')
    ∧ length (cells y') = length (cells y)
    ∧ (∀ j, cells y' !! j =
            if bool_decide (j < n) then Some (run plus xs zero 0 (S j))
            else cells y !! j)
    ∧ wlog y' = wlog y ++ ((λ j, (j, run plus xs zero 0 (S j))) <$> seq 0 n).
Proof.
  intros Hin Hout. unfold DoSerialScan. rewrite serial_loop_scan_loop.
  destruct (scan_loop_spec id plus xs true n 0 zero y)
    as (y' & Hrun & Hlen & Hcells & Hlog & _); [done|done|].
  rewrite list_fmap_id in *. simpl in *.
  exists y'. split_and!; try done.
  - intros j. rewrite Hcells. repeat case_bool_decide; try done; lia.
  - rewrite Hlog. unfold scan_writes. by rewrite list_fmap_id.
Qed.
End Body_laws.

(* ===================================================================== *)
(** ** The cells that [parallel_scan] writes *)
(* ===================================================================== *)

Lemma written1_pre t b e : written1 false t b e = [].
Proof.
  revert b e. induction t as [|mid l IHl r IHr|mid l IHl r IHr]; intros b e; simpl;
    [done|by rewrite IHl, IHr|done].
Qed.

Lemma seq_split b mid e :
  b ≤ mid → mid ≤ e → seq b (mid - b) ++ seq mid (e - mid) = seq b (e - b).
Proof.
  intros. replace (e - b) with ((mid - b) + (e - mid)) by lia.
  rewrite seq_app. by replace (b + (mid - b)) with mid by lia.
Qed.

Lemma written1_steal_free t b e :
  steal_free t = true → splits t b e → written1 true t b e = seq b (e - b).
Proof.
  revert b e. induction t as [|mid l IHl r IHr|mid l IHl r IHr]; intros b e Hsf Hsp;
    simpl in *; [done| |done].
  apply andb_prop in Hsf as [Hl Hr]. destruct Hsp as (? & ? & ? & ? & _).
  rewrite IHl, IHr by done. apply seq_split; lia.
Qed.

Lemma written2_incoming {B} t (st : sum_node B) b e :
  splits t b e → node_of t st → written2 true st b e = seq b (e - b).
Proof.
  revert st b e. induction t as [|mid l IHl r IHr|mid l IHl r IHr];
    intros [|ls mid' sl sr] b e Hsp Hn; simpl in *; try done.
  destruct Hn as (<- & Hnl & Hnr). destruct Hsp as (? & ? & ? & ?).
  rewrite (IHl sl), (IHr sr) by done. apply seq_split; lia.
Qed.

(** Between them the two passes write every index of the range once. *)
Lemma written_once {B} t (st : sum_node B) b e :
  splits t b e → node_of t st →
  written1 true t b e ++ written2 false st b e ≡ₚ seq b (e - b).
Proof.
  revert st b e. induction t as [|mid l IHl r IHr|mid l IHl r IHr];
    intros [|ls mid' sl sr] b e Hsp Hn; simpl in *; try done.
  - by rewrite app_nil_r.
  - destruct Hsp as (? & ? & ? & ? & ? & ->). rewrite app_nil_r.
    rewrite written1_steal_free by done. simpl. by rewrite seq_split by lia.
  - destruct Hn as (<- & Hnl & Hnr). destruct Hsp as (? & ? & ? & ?).
    rewrite app_assoc, (IHl sl) by done.
    rewrite (written2_incoming r sr) by done.
    by rewrite seq_split by lia.
Qed.

Section scan_log.
Context {B T : Type} `{!ScanBody B (Mem T)}.
Context (R : B → T → Prop) (f : T → T → T) (e0 : T) (xs : list T).
Context (HL : scan_body_laws R f e0 xs) (HW : final_call_logs R).

Lemma call_log is_final b e bd s m :
  R bd s → b < e → e ≤ length xs → e ≤ length (cells m) →
  ∃ bd' s' m',
    body_call (Range b e) is_final bd m = Some (bd', m')
    ∧ R bd' s' ∧ length (cells m') = length (cells m)
    ∧ (wlog m').*1 = (wlog m).*1 ++ (if is_final then seq b (e - b) else []).
Proof.
  intros HR Hbe Hx Hm.
  destruct (law_call _ _ _ _ HL b e is_final bd s m)
    as (bd' & m' & Hc & HR' & Hlen & _ & Heq); [done|lia|done|done|].
  exists bd', (run f xs s b e), m'. split_and!; try done.
  destruct is_final.
  - by apply (HW b e bd s m bd' m').
  - rewrite (Heq eq_refl). by rewrite app_nil_r.
Qed.

Lemma pass1_log is_final t b e bd s m :
  R bd s → splits t b e → e ≤ length xs → e ≤ length (cells m) →
  ∃ bd' s' st m',
    pass1 is_final t b e bd m = Some (bd', st, m')
    ∧ R bd' s' ∧ length (cells m') = length (cells m)
    ∧ sum_shape R st b e ∧ node_of t st
    ∧ (wlog m').*1 = (wlog m).*1 ++ written1 is_final t b e.
Proof.
  revert is_final b e bd s m.
  induction t as [|mid l IHl r IHr|mid l IHl r IHr];
    intros is_final b e bd s m HR Hsp Hx Hm; simpl in Hsp.
  - destruct (call_log is_final b e bd s m) as (bd' & s' & m' & Hc & HR' & Hlen & Hlog);
      [done..|].
    exists bd', s', SLeaf, m'. simpl. rewrite Hc. simpl. by split_and!.
  - destruct Hsp as (Hb & He & Hl & Hr & _ & ->).
    destruct (IHl is_final b mid bd s m)
      as (bd1 & s1 & st1 & m1 & H1 & HR1 & Hlen1 & _ & _ & Hlog1);
      [done|done|lia|lia|].
    destruct (IHr is_final mid e bd1 s1 m1)
      as (bd2 & s2 & st2 & m2 & H2 & HR2 & Hlen2 & _ & _ & Hlog2);
      [done|done|lia|lia|].
    exists bd2, s2, SLeaf, m2. simpl. rewrite H1. simpl.
    simpl in H2. rewrite H2. simpl.
    split_and!; try done; [congruence|lia|].
    simpl in Hlog2. by rewrite Hlog2, Hlog1, app_assoc.
  - destruct Hsp as (Hb & He & Hl & Hr).
    destruct (IHl is_final b mid bd s m)
      as (bd1 & s1 & st1 & m1 & H1 & HR1 & Hlen1 & Hsh1 & Hn1 & Hlog1);
      [done|done|lia|lia|].
    destruct (IHr false mid e (body_split bd) e0 m1)
      as (bd2 & s2 & st2 & m2 & H2 & HR2 & Hlen2 & Hsh2 & Hn2 & Hlog2);
      [by eapply (R_split R f e0 xs HL)|done|lia|lia|].
    exists (body_reverse_join bd1 bd2), (f s1 s2), (SNode bd1 mid st1 st2), m2.
    simpl. rewrite H1. simpl. rewrite H2. simpl.
    split_and!; try done.
    + by eapply (R_join R f e0 xs HL).
    + congruence.
    + by eauto.
    + by rewrite Hlog2, written1_pre, app_nil_r.
Qed.

Lemma pass2_log has_incoming st b e bd s m :
  R bd s → sum_shape R st b e → e ≤ length xs → e ≤ length (cells m) →
  ∃ last s' m',
    pass2 has_incoming st b e bd m = Some (last, m')
    ∧ R last s' ∧ length (cells m') = length (cells m)
    ∧ (wlog m').*1 = (wlog m).*1 ++ written2 has_incoming st b e.
Proof.
  revert has_incoming b e bd s m.
  induction st as [|ls mid l IHl r IHr];
    intros has_incoming b e bd s m HR Hsh Hx Hm; simpl in Hsh.
  - destruct has_incoming; simpl.
    + destruct (call_log true b e bd s m) as (bd' & s' & m' & Hc & HR' & Hlen & Hlog);
        [done..|].
      exists bd', s', m'. by split_and!.
    + exists bd, s, m. split_and!; try done. by rewrite app_nil_r.
  - destruct Hsh as (Hb & He & [v Hv] & Hl & Hr).
    destruct (IHl has_incoming b mid bd s m) as (bd1 & s1 & m1 & H1 & _ & Hlen1 & Hlog1);
      [done|done|lia|lia|].
    set (rb := if has_incoming then body_reverse_join bd ls else ls).
    assert (∃ w, R rb w) as [w Hw].
    { unfold rb. destruct has_incoming; [|by eauto].
      eexists. by eapply (R_join R f e0 xs HL). }
    destruct (IHr true mid e rb w m1) as (last & s2 & m2 & H2 & HR2 & Hlen2 & Hlog2);
      [done|done|lia|lia|].
    exists last, s2, m2. simpl. rewrite H1. simpl. fold rb. rewrite H2.
    split_and!; try done; [congruence|].
    by rewrite Hlog2, Hlog1, app_assoc.
Qed.

(** [parallel_scan] writes each cell of the range once, and no other. *)
Lemma parallel_scan_log t b e body s m :
  R body s → splits t b e → e ≤ length xs → e ≤ length (cells m) →
  ∃ body' m',
    parallel_scan (Range b e) t body m = Some (body', m')
    ∧ length (cells m') = length (cells m)
    ∧ ∃ ws, (wlog m').*1 = (wlog m).*1 ++ ws ∧ ws ≡ₚ seq b (e - b).
Proof.
  intros HR Hsp Hx Hm.
  assert (Hbe : b < e) by (destruct t; simpl in Hsp; lia).
  unfold parallel_scan, range_empty. simpl.
  rewrite (proj2 (Nat.ltb_lt b e) Hbe). simpl.
  destruct (pass1_log true t b e (body_reverse_join body (body_split body)) (f s e0) m)
    as (bd1 & s1 & st & m1 & H1 & HR1 & Hlen1 & Hsh & Hn & Hlog1); [|done..|].
  { eapply (R_join R f e0 xs HL); [done|]. by eapply (R_split R f e0 xs HL). }
  rewrite H1. simpl.
  pose proof (written_once t st b e Hsp Hn) as Hperm.
  destruct st as [|ls mid sl sr].
  - exists (body_assign body bd1), m1. split_and!; try done.
    exists (written1 true t b e). split; [done|].
    simpl in Hperm. by rewrite app_nil_r in Hperm.
  - destruct (pass2_log false (SNode ls mid sl sr) b e bd1 s1 m1)
      as (last & s2 & m2 & H2 & HR2 & Hlen2 & Hlog2); [done|done|done|lia|].
    rewrite H2. simpl. exists (body_assign body last), m2.
    split_and!; [done|congruence|].
    eexists. split; [|exact Hperm]. by rewrite Hlog2, Hlog1, app_assoc.
Qed.
End scan_log.

Lemma scan_loop_log {T InT} (cast : InT → T) func inp k i tmp (out : Mem T) r :
  scan_loop cast func inp true k i tmp out = Some r →
  (wlog r.2).*1 = (wlog out).*1 ++ seq i k.
Proof.
  revert i tmp out. induction k as [|k IH]; intros i tmp out Hs.
  - simpl in Hs. injection Hs as <-. simpl. by rewrite app_nil_r.
  - simpl in Hs. destruct (inp !! i) as [v|]; simpl in Hs; [|done].
    unfold store in Hs. case_decide; simpl in Hs; [|done].
    rewrite (IH _ _ _ Hs). simpl. by rewrite fmap_app, <- app_assoc.
Qed.

Lemma doScan_body_logs {T InT} (cast : InT → T) func ident (inp : list InT) :
  final_call_logs (λ bd s, bd = doScan_body cast func ident inp s).
Proof.
  intros b e bd s m bd' m' -> Hc. simpl in Hc. unfold scan_lambda in Hc.
  simpl in Hc. case_decide; [|done].
  destruct (scan_loop _ _ _ _ _ _ _ _) as [[s1 o1]|] eqn:Hl; simpl in Hc; [|done].
  injection Hc as _ <-. apply (scan_loop_log _ _ _ _ _ _ _ _ Hl).
Qed.

Lemma Body_logs {T} (zero : T) (plus : T → T → T) (xs : list T) :
  final_call_logs (ScanBody0 := SeqVsParallel.Body_ScanBody zero plus)
    (λ bd s, bd = SeqVsParallel.MkBody s xs).
Proof.
  intros b e bd s m bd' m' -> Hc. simpl in Hc.
  unfold SeqVsParallel.call, SeqVsParallel.call_plain in Hc. simpl in Hc.
  rewrite loop_tagged_scan_loop in Hc.
  destruct (scan_loop _ _ _ _ _ _ _ _) as [[s1 o1]|] eqn:Hl; simpl in Hc; [|done].
  injection Hc as _ <-. apply (scan_loop_log _ _ _ _ _ _ _ _ Hl).
Qed.

(* ===================================================================== *)
(** ** The last write of [parallel_scan] *)
(* ===================================================================== *)

Lemma last_scan_writes {T InT} (cast : InT → T) func (inp : list InT) s i k :
  0 < k →
  last (scan_writes cast func inp s i k)
  = Some (i + k - 1, run func (cast <$> inp) s i (i + k)).
Proof.
  intros Hk. destruct k as [|k]; [lia|]. unfold scan_writes.
  rewrite seq_S, fmap_app. simpl. rewrite last_snoc. do 2 f_equal; [lia|].
  f_equal. lia.
Qed.

(** In a list of writes that targets no cell twice, a cell has one value. *)
Lemma writes_functional {T} (ws : list (nat * T)) d v v' :
  NoDup ws.*1 → (d, v) ∈ ws → (d, v') ∈ ws → v = v'.
Proof.
  induction ws as [|[d0 v0] ws IH]; intros Hnd H1 H2.
  - by apply elem_of_nil in H1.
  - simpl in Hnd. apply NoDup_cons in Hnd as [Hnot Hnd].
    apply elem_of_cons in H1 as [H1|H1]; apply elem_of_cons in H2 as [H2|H2].
    + congruence.
    + injection H1 as -> ->. destruct Hnot.
      apply list_elem_of_fmap. by exists (d0, v').
    + injection H2 as -> ->. destruct Hnot.
      apply list_elem_of_fmap. by exists (d0, v).
    + by apply IH.
Qed.

Section scan_last.
Context {B T : Type} `{!ScanBody B (Mem T)}.
Context (R : B → T → Prop) (f : T → T → T) (e0 : T) (xs : list T).
Context (HL : scan_body_laws R f e0 xs) (HF : final_call_writes R xs).

Lemma call_last_write is_final b e bd s m :
  R bd s → b < e → e ≤ length xs → e ≤ length (cells m) →
  ∃ bd' s' m' ws,
    body_call (Range b e) is_final bd m = Some (bd', m')
    ∧ R bd' s' ∧ length (cells m') = length (cells m)
    ∧ wlog m' = wlog m ++ ws
    ∧ (is_final = true → last ws = Some (e - 1, s')).
Proof.
  intros HR Hbe Hx Hm.
  destruct (law_call _ _ _ _ HL b e is_final bd s m)
    as (bd' & m' & Hc & HR' & Hlen & _ & Heq); [done|lia|done|done|].
  destruct is_final.
  - destruct (HF b e bd s m) as (bd2 & s2 & m2 & ws & Hc2 & HR2 & Hlog & Hlast);
      [done..|].
    rewrite Hc in Hc2. injection Hc2 as <- <-.
    by exists bd', s2, m', ws.
  - rewrite (Heq eq_refl) in *. exists bd', (run f xs s b e), m, [].
    split_and!; try done. by rewrite app_nil_r.
Qed.

Lemma pass1_last_write is_final t b e bd s m :
  R bd s → splits t b e → e ≤ length xs → e ≤ length (cells m) →
  ∃ bd' s' st m' ws,
    pass1 is_final t b e bd m = Some (bd', st, m')
    ∧ R bd' s' ∧ length (cells m') = length (cells m)
    ∧ sum_shape R st b e
    ∧ wlog m' = wlog m ++ ws
    ∧ (is_final = true → st = SLeaf → last ws = Some (e - 1, s')).
Proof.
  revert is_final b e bd s m.
  induction t as [|mid l IHl r IHr|mid l IHl r IHr];
    intros is_final b e bd s m HR Hsp Hx Hm; simpl in Hsp.
  - destruct (call_last_write is_final b e bd s m)
      as (bd' & s' & m' & ws & Hc & HR' & Hlen & Hlog & Hlast); [done..|].
    exists bd', s', SLeaf, m', ws. simpl. rewrite Hc. simpl.
    split_and!; try done. by intros Hf _; apply Hlast.
  - destruct Hsp as (Hb & He & Hl & Hr & _ & ->).
    destruct (IHl is_final b mid bd s m)
      as (bd1 & s1 & st1 & m1 & ws1 & H1 & HR1 & Hlen1 & _ & Hlog1 & _);
      [done|done|lia|lia|].
    destruct (IHr is_final mid e bd1 s1 m1)
      as (bd2 & s2 & st2 & m2 & ws2 & H2 & HR2 & Hlen2 & _ & Hlog2 & Hlast);
      [done|done|lia|lia|].
    exists bd2, s2, SLeaf, m2, (ws1 ++ ws2). simpl. rewrite H1. simpl.
    simpl in H2. rewrite H2. simpl.
    split_and!; try done; [congruence|lia|by rewrite Hlog2, Hlog1, app_assoc|].
    intros Hf _. rewrite last_app, Hlast; [done|done|].
    destruct (body_call _ _ _ _) as [[??]|]; simpl in H2; congruence.
  - destruct Hsp as (Hb & He & Hl & Hr).
    destruct (IHl is_final b mid bd s m)
      as (bd1 & s1 & st1 & m1 & ws1 & H1 & HR1 & Hlen1 & Hsh1 & Hlog1 & _);
      [done|done|lia|lia|].
    destruct (IHr false mid e (body_split bd) e0 m1)
      as (bd2 & s2 & st2 & m2 & ws2 & H2 & HR2 & Hlen2 & Hsh2 & Hlog2 & _);
      [by eapply (R_split R f e0 xs HL)|done|lia|lia|].
    exists (body_reverse_join bd1 bd2), (f s1 s2), (SNode bd1 mid st1 st2), m2,
      (ws1 ++ ws2).
    simpl. rewrite H1. simpl. rewrite H2. simpl.
    split_and!; try done.
    + by eapply (R_join R f e0 xs HL).
    + congruence.
    + by eauto.
    + by rewrite Hlog2, Hlog1, app_assoc.
Qed.

Lemma pass2_last_write has_incoming st b e bd s m :
  R bd s → sum_shape R st b e → e ≤ length xs → e ≤ length (cells m) →
  ∃ bd' s' m' ws,
    pass2 has_incoming st b e bd m = Some (bd', m')
    ∧ R bd' s' ∧ length (cells m') = length (cells m)
    ∧ wlog m' = wlog m ++ ws
    ∧ (has_incoming = true ∨ st ≠ SLeaf → last ws = Some (e - 1, s')).
Proof.
  revert has_incoming b e bd s m.
  induction st as [|ls mid l IHl r IHr];
    intros has_incoming b e bd s m HR Hsh Hx Hm; simpl in Hsh.
  - destruct has_incoming; simpl.
    + destruct (call_last_write true b e bd s m)
        as (bd' & s' & m' & ws & Hc & HR' & Hlen & Hlog & Hlast); [done..|].
      exists bd', s', m', ws. split_and!; try done. by intros _; apply Hlast.
    + exists bd, s, m, []. split_and!; try done; [by rewrite app_nil_r|]. by intros [|].
  - destruct Hsh as (Hb & He & [v Hv] & Hl & Hr).
    destruct (IHl has_incoming b mid bd s m)
      as (bd1 & s1 & m1 & ws1 & H1 & _ & Hlen1 & Hlog1 & _); [done|done|lia|lia|].
    set (rb := if has_incoming then body_reverse_join bd ls else ls).
    assert (∃ w, R rb w) as [w Hw].
    { unfold rb. destruct has_incoming; [|by eauto].
      eexists. by eapply (R_join R f e0 xs HL). }
    destruct (IHr true mid e rb w m1)
      as (bd2 & s2 & m2 & ws2 & H2 & HR2 & Hlen2 & Hlog2 & Hlast);
      [done|done|lia|lia|].
    exists bd2, s2, m2, (ws1 ++ ws2). simpl. rewrite H1. simpl. fold rb. rewrite H2.
    split_and!; try done; [congruence|by rewrite Hlog2, Hlog1, app_assoc|].
    intros _. rewrite last_app, Hlast; [done|by left].
Qed.

(** With any combiner at all: the last write of [parallel_scan] is that
    of the last cell of the range, and the value written there is the
    summary that the body is handed back with. *)
Lemma parallel_scan_last_write t b e body s m :
  R body s → splits t b e → e ≤ length xs → e ≤ length (cells m) →
  ∃ body' s' m' ws,
    parallel_scan (Range b e) t body m = Some (body', m')
    ∧ R body' s'
    ∧ wlog m' = wlog m ++ ws
    ∧ last ws = Some (e - 1, s').
Proof.
  intros HR Hsp Hx Hm.
  assert (Hbe : b < e) by (destruct t; simpl in Hsp; lia).
  unfold parallel_scan, range_empty. simpl.
  rewrite (proj2 (Nat.ltb_lt b e) Hbe). simpl.
  destruct (pass1_last_write true t b e (body_reverse_join body (body_split body))
              (f s e0) m)
    as (bd1 & s1 & st & m1 & ws1 & H1 & HR1 & Hlen1 & Hsh & Hlog1 & Hlast1); [|done..|].
  { eapply (R_join R f e0 xs HL); [done|]. by eapply (R_split R f e0 xs HL). }
  rewrite H1. simpl. destruct st as [|ls mid sl sr].
  - exists (body_assign body bd1), s1, m1, ws1. split_and!; try done.
    + by eapply (R_assign R f e0 xs HL).
    + by apply Hlast1.
  - destruct (pass2_last_write false (SNode ls mid sl sr) b e bd1 s1 m1)
      as (bd2 & s2 & m2 & ws2 & H2 & HR2 & Hlen2 & Hlog2 & Hlast2);
      [done|done|done|lia|].
    rewrite H2. simpl.
    exists (body_assign body bd2), s2, m2, (ws1 ++ ws2). split_and!; try done.
    + by eapply (R_assign R f e0 xs HL).
    + by rewrite Hlog2, Hlog1, app_assoc.
    + rewrite last_app, Hlast2; [done|by right].
Qed.
End scan_last.

Lemma doScan_body_final_writes {T InT} (cast : InT → T) func ident (inp : list InT) :
  final_call_writes (λ bd s, bd = doScan_body cast func ident inp s) (cast <$> inp).
Proof.
  intros b e bd s m -> Hbe Hx Hm. rewrite length_fmap in Hx.
  destruct (scan_loop_spec cast func inp true (e - b) b s m)
    as (m' & Hrun & _ & _ & Hlog & _); [lia|intros _; lia|].
  replace (b + (e - b)) with e in Hrun by lia.
  eexists _, _, m', _. split_and!; [|reflexivity|exact Hlog|].
  - simpl. unfold scan_lambda. simpl. rewrite decide_True by lia.
    rewrite Hrun. done.
  - rewrite last_scan_writes by lia. do 2 f_equal; [lia|]. f_equal. lia.
Qed.

Lemma Body_final_writes {T} (zero : T) (plus : T → T → T) (xs : list T) :
  final_call_writes (ScanBody0 := SeqVsParallel.Body_ScanBody zero plus)
    (λ bd s, bd = SeqVsParallel.MkBody s xs) xs.
Proof.
  intros b e bd s m -> Hbe Hx Hm.
  destruct (scan_loop_spec id plus xs true (e - b) b s m)
    as (m' & Hrun & _ & _ & Hlog & _); [lia|intros _; lia|].
  replace (b + (e - b)) with e in Hrun by lia.
  eexists _, _, m', _. split_and!; [|reflexivity|exact Hlog|].
  - simpl. unfold SeqVsParallel.call, SeqVsParallel.call_plain. simpl.
    rewrite loop_tagged_scan_loop, Hrun. done.
  - rewrite last_scan_writes by lia. do 2 f_equal; [lia|]. f_equal. lia.
Qed.

(* ===================================================================== *)
(** ** Runs of [parallel_for] as lists of writes *)
(* ===================================================================== *)

Section writes.
Context {T : Type}.
Implicit Types (ws : list (nat * T)) (l : list T) (out : Mem T).

Lemma apply_writes_snoc ws w l :
  apply_writes (ws ++ [w]) l = <[w.1 := w.2]> (apply_writes ws l).
Proof. unfold apply_writes. by rewrite foldl_app. Qed.

Lemma length_apply_writes ws l : length (apply_writes ws l) = length l.
Proof.
  induction ws as [|w ws IH] using rev_ind; [done|].
  by rewrite apply_writes_snoc, length_insert.
Qed.

(** A cell that no write targets keeps its value. *)
Lemma apply_writes_other ws l d :
  (∀ v, (d, v) ∉ ws) → apply_writes ws l !! d = l !! d.
Proof.
  induction ws as [|[d' v'] ws IH] using rev_ind; intros Hd; [done|].
  rewrite apply_writes_snoc. simpl.
  rewrite list_lookup_insert_ne.
  - apply IH. intros v Hv. apply (Hd v). apply elem_of_app. by left.
  - intros ->. apply (Hd v'). apply elem_of_app. right. by apply list_elem_of_singleton.
Qed.

(** A cell whose writes all carry the value [v] ends up with [v]. *)
Lemma apply_writes_lookup ws l d v :
  (d, v) ∈ ws → (∀ v', (d, v') ∈ ws → v' = v) → d < length l →
  apply_writes ws l !! d = Some v.
Proof.
  induction ws as [|[d' v'] ws IH] using rev_ind; intros Hin Hall Hd.
  - by apply elem_of_nil in Hin.
  - rewrite apply_writes_snoc. simpl.
    destruct (decide (d' = d)) as [->|Hne].
    + rewrite list_lookup_insert_eq by by rewrite length_apply_writes.
      f_equal. apply Hall. apply elem_of_app. right. by apply list_elem_of_singleton.
    + rewrite list_lookup_insert_ne by done.
      apply IH; [|intros v'' Hv''; apply Hall, elem_of_app; by left|done].
      apply elem_of_app in Hin as [?|Hin]; [done|].
      apply list_elem_of_singleton in Hin. congruence.
Qed.

Lemma do_writes_app ws1 ws2 out :
  do_writes (ws1 ++ ws2) out = do_writes ws1 out ≫= do_writes ws2.
Proof.
  unfold do_writes. rewrite foldl_app.
  destruct (foldl _ (Some out) ws1) as [o|]; simpl; [done|].
  induction ws2 as [|w ws2 IH]; [done|]. simpl. apply IH.
Qed.

Lemma do_writes_cons w ws out :
  do_writes (w :: ws) out = store w.1 w.2 out ≫= do_writes ws.
Proof. apply (do_writes_app [w] ws out). Qed.

Lemma do_writes_Some ws out :
  (∀ w, w ∈ ws → w.1 < length (cells out)) →
  do_writes ws out = Some (MkMem (apply_writes ws (cells out)) (wlog out ++ ws)).
Proof.
  induction ws as [|w ws IH] using rev_ind; intros Hb.
  - unfold do_writes. simpl. rewrite app_nil_r. by destruct out.
  - destruct w as [d v].
    rewrite do_writes_app, IH by (intros; apply Hb, elem_of_app; by left).
    simpl. rewrite do_writes_cons. unfold do_writes. simpl.
    rewrite store_Some.
    + simpl. by rewrite apply_writes_snoc, app_assoc.
    + simpl. rewrite length_apply_writes. apply (Hb (d, v)), elem_of_app. right.
      by apply list_elem_of_singleton.
Qed.

Lemma store_at_store idx (v : T) out :
  store_at idx v out = store (N.to_nat idx) v out.
Proof.
  unfold store_at, store. destruct (N.ltb_spec idx (N.of_nat (length (cells out)))).
  - done.
  - rewrite decide_False; [done|lia].
Qed.
End writes.

Section chunks.
Context {S : Type}.

Lemma foldl_option_None (body : blocked_range → S → option S) order :
  foldl (λ acc c, s' ← acc; body c s') None order = None.
Proof. induction order; [done|]. simpl. done. Qed.

Lemma leaves_indices t b e :
  splits t b e → leaves t b e ≫= indices = seq b (e - b).
Proof.
  revert b e. induction t as [|mid l IHl r IHr|mid l IHl r IHr]; intros b e Hsp;
    simpl in Hsp.
  - simpl. unfold indices. simpl. by rewrite app_nil_r.
  - destruct Hsp as (? & ? & ? & ? & _). simpl.
    rewrite bind_app, IHl, IHr by done.
    replace (e - b) with ((mid - b) + (e - mid)) by lia.
    rewrite seq_app. by replace (b + (mid - b)) with mid by lia.
  - destruct Hsp as (? & ? & ? & ?). simpl.
    rewrite bind_app, IHl, IHr by done.
    replace (e - b) with ((mid - b) + (e - mid)) by lia.
    rewrite seq_app. by replace (b + (mid - b)) with mid by lia.
Qed.

(** The indices visited under a chunk order are those of [[0, n)], each
    exactly once. *)
Lemma chunk_order_indices n order :
  chunk_order n order → order ≫= indices ≡ₚ seq 0 n.
Proof.
  intros [[-> ->]|(t & Hsp & Hperm)]; [done|].
  rewrite Hperm, leaves_indices by done. by rewrite Nat.sub_0_r.
Qed.
End chunks.

Lemma leaves_bounds t b e r :
  splits t b e → r ∈ leaves t b e →
  b ≤ r_begin r ∧ r_begin r < r_end r ∧ r_end r ≤ e.
Proof.
  revert b e. induction t as [|mid l IHl t2 IHr|mid l IHl t2 IHr]; intros b e Hsp Hr;
    simpl in Hsp, Hr.
  - apply list_elem_of_singleton in Hr as ->. simpl. lia.
  - destruct Hsp as (? & ? & Hl & Hr' & _).
    apply elem_of_app in Hr as [Hr|Hr];
      [destruct (IHl _ _ Hl Hr)|destruct (IHr _ _ Hr' Hr)]; lia.
  - destruct Hsp as (? & ? & Hl & Hr').
    apply elem_of_app in Hr as [Hr|Hr];
      [destruct (IHl _ _ Hl Hr)|destruct (IHr _ _ Hr' Hr)]; lia.
Qed.

Lemma chunk_order_bounds n order r :
  chunk_order n order → r ∈ order → r_begin r ≤ r_end r ∧ r_end r ≤ n.
Proof.
  intros [[-> ->]|(t & Hsp & Hperm)] Hr; [by apply elem_of_nil in Hr|].
  rewrite Hperm in Hr. destruct (leaves_bounds t 0 n r Hsp Hr). lia.
Qed.

Section for_writes.
Context {T : Type} (w : nat → option (nat * T)).

(** A run of [parallel_for] whose body calls perform the writes [w]
    performs the writes of all the indices visited, in the order of the
    visit. *)
Lemma parallel_for_writes n order body (out : Mem T) :
  0 < n →
  (∀ r o, r ∈ order → body r o = do_writes (omap w (indices r)) o) →
  parallel_for (Range 0 n) order body out
  = do_writes (omap w (order ≫= indices)) out.
Proof.
  intros Hn Hbody. unfold parallel_for, range_empty. simpl.
  rewrite (proj2 (Nat.ltb_lt 0 n) Hn). simpl.
  revert out. induction order as [|c order IH]; intros out; [done|].
  simpl. rewrite Hbody by by left.
  rewrite omap_app, do_writes_app.
  destruct (do_writes (omap w (indices c)) out) as [o|]; simpl.
  - apply IH. intros r o' Hr. apply Hbody. by right.
  - apply foldl_option_None.
Qed.

Lemma parallel_for_empty order body (out : Mem T) :
  parallel_for (Range 0 0) order body out = Some out.
Proof. done. Qed.

(** Whatever the chunk order, the writes are those of the indices
    [0 … n-1], up to their order; they succeed when all are in bounds. *)
Lemma parallel_for_chunks n order body (out : Mem T) :
  chunk_order n order →
  (∀ r o, r ∈ order → body r o = do_writes (omap w (indices r)) o) →
  (∀ i d v, i < n → w i = Some (d, v) → d < length (cells out)) →
  ∃ ws,
    parallel_for (Range 0 n) order body out
      = Some (MkMem (apply_writes ws (cells out)) (wlog out ++ ws))
    ∧ ws ≡ₚ omap w (seq 0 n).
Proof.
  intros Hord Hbody Hb.
  destruct (decide (n = 0)) as [->|Hn].
  - exists []. rewrite parallel_for_empty. simpl. rewrite app_nil_r.
    by destruct out.
  - exists (omap w (order ≫= indices)).
    assert (Hperm : omap w (order ≫= indices) ≡ₚ omap w (seq 0 n))
      by by rewrite (chunk_order_indices n order Hord).
    split; [|done].
    rewrite parallel_for_writes by (done || lia).
    apply do_writes_Some. intros [d v] Hin. simpl.
    rewrite Hperm in Hin. apply list_elem_of_omap in Hin as (i & Hi & Hw).
    apply elem_of_seq in Hi. eapply Hb; [|done]. lia.
Qed.
End for_writes.

Section doMap_facts.
Context {OutT InT : Type} (func : InT → OutT) (inp : list InT).

Lemma map_loop_writes k i (out : Mem OutT) :
  i + k ≤ length inp →
  map_loop func inp k i out = do_writes (omap (map_write func inp) (seq i k)) out.
Proof.
  revert i out. induction k as [|k IH]; intros i out Hb; [done|].
  destruct (lookup_lt_is_Some_2 inp i) as [v Hv]; [lia|].
  simpl. unfold map_write at 1. rewrite Hv. simpl.
  rewrite do_writes_cons. simpl.
  destruct (store i (func v) out); simpl; [apply IH; lia|done].
Qed.

Lemma map_lambda_writes n r (out : Mem OutT) :
  r_begin r ≤ r_end r → r_end r ≤ n → n ≤ length inp →
  map_lambda func inp r out = do_writes (omap (map_write func inp) (indices r)) out.
Proof.
  intros. unfold map_lambda. rewrite decide_True by done.
  apply map_loop_writes. lia.
Qed.

Lemma elem_of_map_writes n d v :
  n ≤ length inp →
  (d, v) ∈ omap (map_write func inp) (seq 0 n)
  ↔ d < n ∧ func <$> inp !! d = Some v.
Proof.
  intros Hn. rewrite list_elem_of_omap. split.
  - intros (i & Hi & Hw). apply elem_of_seq in Hi. unfold map_write in Hw.
    destruct (inp !! i) as [x|] eqn:E; simpl in Hw; [|done].
    injection Hw as <- <-. rewrite E. split; [lia|done].
  - intros [Hd Hv]. exists d. split; [apply elem_of_seq; lia|].
    unfold map_write. destruct (inp !! d); simpl in *; congruence.
Qed.

(** [doMap], whatever the chunk order. *)
Lemma doMap_spec n order (out : Mem OutT) :
  chunk_order n order → n ≤ length inp → n ≤ length (cells out) →
  ∃ out',
    doMap order out inp func n = Some out'
    ∧ cells out' = (func <$> take n inp) ++ drop n (cells out)
    ∧ ∃ ws, wlog out' = wlog out ++ ws
            ∧ ws ≡ₚ omap (map_write func inp) (seq 0 n).
Proof.
  intros Hord Hin Hout.
  destruct (parallel_for_chunks (map_write func inp) n order
              (map_lambda func inp) out) as (ws & Hp & Hperm).
  { done. }
  { intros r o Hr. destruct (chunk_order_bounds n order r Hord Hr).
    by apply (map_lambda_writes n). }
  { intros i d v Hi Hw. unfold map_write in Hw.
    destruct (inp !! i); simpl in Hw; [|done]. injection Hw as <- <-. lia. }
  eexists. split; [exact Hp|]. simpl. split; [|by exists ws].
  apply list_eq. intros j.
  destruct (decide (j < n)) as [Hj|Hj].
  - destruct (lookup_lt_is_Some_2 inp j) as [x Hx]; [lia|].
    rewrite (apply_writes_lookup ws _ j (func x)).
    + rewrite lookup_app_l by (rewrite length_fmap, length_take; lia).
      by rewrite list_lookup_fmap, lookup_take_lt, Hx.
    + rewrite Hperm. apply elem_of_map_writes; [done|]. by rewrite Hx.
    + intros v' Hv'. rewrite Hperm in Hv'.
      apply elem_of_map_writes in Hv' as [_ Hv']; [|done].
      rewrite Hx in Hv'. simpl in Hv'. congruence.
    + lia.
  - rewrite apply_writes_other.
    + rewrite lookup_app_r by (rewrite length_fmap, length_take; lia).
      rewrite length_fmap, length_take, lookup_drop. f_equal. lia.
    + intros v Hv. rewrite Hperm in Hv.
      apply elem_of_map_writes in Hv as [? _]; [lia|done].
Qed.
End doMap_facts.

(* ===================================================================== *)
(** ** Runs of [doMap] on a [std::vector<bool>] *)
(* ===================================================================== *)

Lemma length_bits v : length (bits v) = bv_size v.
Proof. unfold bits. by rewrite length_fmap, length_seq. Qed.

Lemma bits_lookup v i : i < bv_size v → bits v !! i = Some (get_bit v i).
Proof.
  intros. unfold bits. by rewrite list_lookup_fmap, lookup_seq_lt by done.
Qed.

(** Two elements with the same word and the same bit are the same. *)
Lemma word_bit_inj i j : word_of i = word_of j → bit_of i = bit_of j → i = j.
Proof.
  unfold word_of, bit_of, WORD_BITS. intros Hw Hb. apply Nat2N.inj in Hb.
  rewrite (Nat.div_mod_eq i 64), (Nat.div_mod_eq j 64). by rewrite Hw, Hb.
Qed.

Lemma new_bits_wf n : bv_wf (new_bits n).
Proof.
  unfold bv_wf, new_bits, WORD_BITS. cbn [bv_size bv_words].
  rewrite length_replicate. change (64 - 1) with 63.
  pose proof (Nat.div_mod_eq (n + 63) 64).
  pose proof (Nat.mod_upper_bound (n + 63) 64). lia.
Qed.

Lemma bv_wf_word v i : bv_wf v → i < bv_size v → word_of i < length (bv_words v).
Proof.
  unfold bv_wf, word_of, WORD_BITS. intros.
  apply Nat.Div0.div_lt_upper_bound. lia.
Qed.

Lemma bits_new n : bits (new_bits n) = replicate n false.
Proof.
  apply list_eq. intros i. destruct (decide (i < n)) as [Hi|Hi].
  - rewrite bits_lookup by done. rewrite lookup_replicate_2 by done. f_equal.
    unfold get_bit. simpl. rewrite lookup_total_replicate_2; [apply N.bits_0|].
    pose proof (bv_wf_word (new_bits n) i (new_bits_wf n) Hi) as Hw.
    simpl in Hw. by rewrite length_replicate in Hw.
  - rewrite !lookup_ge_None_2; [done| |]; rewrite ?length_bits, ?length_replicate;
      simpl; lia.
Qed.

(** Setting or clearing the bit of element [i] in its own word, and
    storing the result at once, is the assignment [v[i] = x]. *)
Lemma bits_store sz ws i w (x : bool) :
  i < sz → ws !! word_of i = Some w →
  bits (BitVec sz (<[word_of i :=
                      if x then N.setbit w (bit_of i) else N.clearbit w (bit_of i)]> ws))
  = <[i := x]> (bits (BitVec sz ws)).
Proof.
  intros Hi Hw. pose proof (lookup_lt_Some _ _ _ Hw) as Hlen.
  apply list_eq. intros j.
  destruct (decide (j < sz)) as [Hj|Hj].
  2: { rewrite !lookup_ge_None_2; [done| |]; rewrite ?length_insert, length_bits;
         simpl; lia. }
  rewrite bits_lookup by done. unfold get_bit. simpl.
  destruct (decide (j = i)) as [->|Hne].
  - rewrite list_lookup_insert_eq by (by rewrite length_bits). f_equal.
    rewrite list_lookup_total_insert, decide_True by done.
    destruct x.
    + by rewrite N.setbit_eqb, N.eqb_refl.
    + by rewrite N.clearbit_eqb, N.eqb_refl, andb_false_r.
  - rewrite list_lookup_insert_ne by done. rewrite bits_lookup by done. f_equal.
    unfold get_bit. simpl.
    destruct (decide (word_of i = word_of j)) as [Heq|Hw'].
    + rewrite Heq in *. rewrite list_lookup_total_insert, decide_True by done.
      rewrite (list_lookup_total_correct _ _ _ Hw).
      assert (Hb : (bit_of i =? bit_of j)%N = false).
      { apply N.eqb_neq. intros Hb. apply Hne. symmetry. by apply word_bit_inj. }
      destruct x.
      * by rewrite N.setbit_eqb, Hb.
      * by rewrite N.clearbit_eqb, Hb, andb_true_r.
    + by rewrite list_lookup_total_insert_ne.
Qed.

Section bit_steps.
Context {InT : Type} (func : InT → bool) (inp : list InT).

Lemma bit_steps_cons ev run st :
  bit_steps func inp (ev :: run) st
  = bit_step func inp ev st ≫= bit_steps func inp run.
Proof.
  unfold bit_steps. simpl. destruct (bit_step func inp ev st); simpl; [done|].
  induction run as [|ev' run IH]; [done|]. simpl. apply IH.
Qed.

Lemma bit_steps_app run1 run2 st :
  bit_steps func inp (run1 ++ run2) st
  = bit_steps func inp run1 st ≫= bit_steps func inp run2.
Proof.
  revert st. induction run1 as [|ev run1 IH]; intros st; [done|].
  simpl. rewrite !bit_steps_cons.
  destruct (bit_step func inp ev st); simpl; [apply IH|done].
Qed.

(** An assignment whose load and store are not separated by another
    access is a plain write of the element. *)
Lemma bit_steps_assign i x v loaded :
  i < bv_size v → bv_wf v → inp !! i = Some x →
  ∃ v' loaded',
    bit_steps func inp [Load i; Store i] (BitState v loaded)
      = Some (BitState v' loaded')
    ∧ bv_size v' = bv_size v ∧ bv_wf v'
    ∧ bits v' = <[i := func x]> (bits v).
Proof.
  intros Hi Hwf Hx.
  destruct (lookup_lt_is_Some_2 (bv_words v) (word_of i)) as [w Hw];
    [by apply bv_wf_word|].
  rewrite bit_steps_cons. simpl. rewrite Hx. simpl.
  rewrite decide_True by done. rewrite Hw. simpl.
  rewrite bit_steps_cons. simpl. rewrite Hx. simpl. rewrite lookup_insert_eq. simpl.
  eexists _, _. split; [done|]. simpl. split_and!; [done| |].
  - unfold bv_wf in *. simpl. by rewrite length_insert.
  - destruct v as [sz ws]. simpl in *. by apply bits_store.
Qed.

(** Assignments made one after the other are the writes of [doMap] on an
    array of independent cells. *)
Lemma bit_steps_serial ixs v loaded :
  Forall (λ i, i < bv_size v ∧ i < length inp) ixs → bv_wf v →
  ∃ v' loaded',
    bit_steps func inp (assign_events ixs) (BitState v loaded)
      = Some (BitState v' loaded')
    ∧ bv_size v' = bv_size v
    ∧ bits v' = apply_writes (omap (map_write func inp) ixs) (bits v).
Proof.
  revert v loaded. induction ixs as [|i ixs IH]; intros v loaded Hall Hwf.
  - by exists v, loaded.
  - apply Forall_cons in Hall as [[Hi Hin] Hall].
    destruct (lookup_lt_is_Some_2 inp i Hin) as [x Hx].
    destruct (bit_steps_assign i x v loaded Hi Hwf Hx) as (v1 & l1 & H1 & Hsz & Hwf1 & Hb).
    destruct (IH v1 l1) as (v' & l' & H2 & Hsz' & Hb'); [by rewrite Hsz|done|].
    exists v', l'. split_and!; [|congruence|].
    + change (assign_events (i :: ixs)) with ([Load i; Store i] ++ assign_events ixs).
      rewrite bit_steps_app, H1. done.
    + rewrite Hb', Hb. simpl. unfold map_write at 2. rewrite Hx. done.
Qed.
End bit_steps.

Lemma doMap_writes_cells {OutT InT} (func : InT → OutT) (inp : list InT) n order
    (l : list OutT) :
  chunk_order n order → n ≤ length inp → n ≤ length l →
  apply_writes (omap (map_write func inp) (order ≫= indices)) l
  = (func <$> take n inp) ++ drop n l.
Proof.
  intros Hord Hin Hl.
  destruct (doMap_spec func inp n order (MkMem l [])) as (out' & Hm & Hcells & _);
    [done..|].
  pose proof (chunk_order_indices n order Hord) as Hperm.
  destruct (decide (n = 0)) as [->|Hn].
  - simpl in Hperm. symmetry in Hperm. apply Permutation_nil in Hperm. rewrite Hperm. simpl. by rewrite drop_0.
  - unfold doMap in Hm.
    rewrite (parallel_for_writes (map_write func inp)) in Hm.
    + rewrite do_writes_Some in Hm.
      * injection Hm as <-. exact Hcells.
      * intros [d v] Hw. simpl. rewrite Hperm in Hw.
        apply elem_of_map_writes in Hw as [? _]; [lia|done].
    + lia.
    + intros r o Hr. destruct (chunk_order_bounds n order r Hord Hr).
      by apply (map_lambda_writes func inp n).
Qed.

Lemma serial_run_indices order :
  serial_run order = assign_events (order ≫= indices).
Proof.
  induction order as [|r order IH]; [done|].
  change (serial_run (r :: order)) with (chunk_events r ++ serial_run order).
  change ((r :: order) ≫= indices) with (indices r ++ (order ≫= indices)).
  rewrite IH. unfold assign_events. by rewrite bind_app.
Qed.

Lemma pop_event_Some ev ths ths' :
  pop_event ev ths = Some ths' →
  ∃ ths1 th ths2, ths = ths1 ++ (ev :: th) :: ths2 ∧ ths' = ths1 ++ th :: ths2.
Proof.
  revert ths'. induction ths as [|th ths IH]; intros ths' H; simpl in H; [done|].
  assert (Hrec : (th ::.) <$> pop_event ev ths = Some ths' →
    ∃ ths1 th0 ths2, th :: ths = ths1 ++ (ev :: th0) :: ths2
                     ∧ ths' = ths1 ++ th0 :: ths2).
  { destruct (pop_event ev ths) as [ths0|]; simpl; [|done]. intros [= <-].
    destruct (IH _ eq_refl) as (ths1 & th0 & ths2 & -> & ->).
    by exists (th :: ths1), th0, ths2. }
  destruct th as [|ev' th]; [by apply Hrec|].
  destruct (decide (ev' = ev)) as [->|Hne]; [|by apply Hrec].
  injection H as <-. by exists [], th, ths.
Qed.

Lemma thread_ok_mono n loaded loaded' th :
  (∀ i, is_Some (loaded !! i) → is_Some (loaded' !! i)) →
  thread_ok n loaded th → thread_ok n loaded' th.
Proof.
  intros Hsub [H|(i & ixs & -> & Hi & Hn & Hall)]; [by left|].
  right. exists i, ixs. split_and!; auto.
Qed.

Section bit_runs.
Context {InT : Type} (func : InT → bool) (inp : list InT).

Lemma sound_word_set k w i x :
  sound_word func inp k w → word_of i = k → inp !! i = Some x → func x = true →
  sound_word func inp k (N.setbit w (bit_of i)).
Proof.
  intros Hw Hk Hx Hf j Hj. rewrite N.setbit_eqb in Hj.
  apply orb_true_iff in Hj as [Hj|Hj]; [|by apply Hw].
  apply N.eqb_eq in Hj. by exists i, x.
Qed.

Lemma sound_word_clear k w b :
  sound_word func inp k w → sound_word func inp k (N.clearbit w b).
Proof.
  intros Hw j Hj. rewrite N.clearbit_eqb in Hj.
  apply andb_true_iff in Hj as [Hj _]. by apply Hw.
Qed.

Lemma bit_step_size ev st st' :
  bit_step func inp ev st = Some st' →
  bv_size (st_vec st') = bv_size (st_vec st).
Proof.
  destruct ev as [i|i]; simpl.
  - destruct (inp !! i); simpl; [|done].
    destruct (decide _); [|done].
    destruct (bv_words (st_vec st) !! word_of i); simpl; [|done]. by intros [= <-].
  - destruct (inp !! i); simpl; [|done].
    destruct (st_loaded st !! i); simpl; [|done]. by intros [= <-].
Qed.

Lemma bit_steps_size run st st' :
  bit_steps func inp run st = Some st' →
  bv_size (st_vec st') = bv_size (st_vec st).
Proof.
  revert st. induction run as [|ev run IH]; intros st.
  - by intros [= <-].
  - rewrite bit_steps_cons.
    destruct (bit_step func inp ev st) as [st1|] eqn:E; simpl; [|done].
    intros H. rewrite (IH _ H). by apply (bit_step_size ev).
Qed.

(** [doMap] does not change the size of the vector. *)
Lemma doMap_vector_bool_size run out n out' :
  doMap_vector_bool run out inp func n = Some out' → bv_size out' = bv_size out.
Proof.
  unfold doMap_vector_bool. destruct (range_empty _); [by intros [= <-]|].
  destruct (bit_steps func inp run _) as [st|] eqn:E; simpl; [|done].
  intros [= <-]. by apply bit_steps_size in E.
Qed.

(** [doMap] when its calls do not overlap in time, whatever the
    partition and the order of the calls. *)
Lemma doMap_vector_bool_serial n order out :
  chunk_order n order → n ≤ length inp → n ≤ bv_size out → bv_wf out →
  ∃ out',
    doMap_vector_bool (serial_run order) out inp func n = Some out'
    ∧ bv_size out' = bv_size out
    ∧ bits out' = (func <$> take n inp) ++ drop n (bits out).
Proof.
  intros Hord Hin Hout Hwf. unfold doMap_vector_bool, range_empty. simpl.
  destruct (decide (n = 0)) as [->|Hn].
  - simpl. exists out. by rewrite drop_0.
  - rewrite (proj2 (Nat.ltb_lt 0 n)) by lia. simpl.
    rewrite serial_run_indices.
    pose proof (chunk_order_indices n order Hord) as Hperm.
    destruct (bit_steps_serial func inp (order ≫= indices) out ∅)
      as (v' & l' & -> & Hsz & Hb); [|done|].
    { apply Forall_forall. intros i Hi. rewrite Hperm in Hi.
      apply elem_of_seq in Hi. lia. }
    simpl. exists v'. split_and!; [done|done|]. rewrite Hb.
    apply doMap_writes_cells; rewrite ?length_bits; done.
Qed.

(** Whatever the interleaving, every access finds what it needs, and
    no bit is set for an element that fails [func]. *)
Lemma bit_steps_merge n size len run ths st :
  is_merge ths run = true → Forall (thread_ok n (st_loaded st)) ths →
  bit_inv func inp size len st →
  n ≤ size → size ≤ WORD_BITS * len → n ≤ length inp →
  ∃ st', bit_steps func inp run st = Some st' ∧ bit_inv func inp size len st'.
Proof.
  intros Hm Hths Hinv Hn Hwf Hin. revert ths st Hm Hths Hinv.
  induction run as [|ev run IH]; intros ths st Hm Hths Hinv.
  { by exists st. }
  simpl in Hm. destruct (pop_event ev ths) as [ths'|] eqn:E; [|done].
  apply pop_event_Some in E as (ths1 & th & ths2 & -> & ->).
  apply Forall_app in Hths as [Hths1 Hths2].
  apply Forall_cons in Hths2 as [Hth Hths2].
  destruct st as [[sz ws] loaded].
  destruct Hinv as (Hsz & Hlen & Hws & Hld).
  cbn [st_vec st_loaded bv_size bv_words] in *. subst sz.
  unfold WORD_BITS in Hwf.
  rewrite bit_steps_cons.
  destruct Hth as [(ixs & Heq & Hall)|(i & ixs & Heq & [w Hw] & Hi & Hall)].
  - destruct ixs as [|i ixs]; [done|]. injection Heq as -> ->.
    apply Forall_cons in Hall as [Hi Hall].
    destruct (lookup_lt_is_Some_2 ws (word_of i)) as [w Hw].
    { unfold word_of, WORD_BITS. apply Nat.Div0.div_lt_upper_bound. lia. }
    destruct (lookup_lt_is_Some_2 inp i) as [x Hx]; [lia|].
    simpl. rewrite Hx. simpl. rewrite decide_True by lia. rewrite Hw. simpl.
    assert (Hmono : ∀ j, is_Some (loaded !! j) → is_Some (<[i:=w]> loaded !! j)).
    { intros j Hj. apply lookup_insert_is_Some'. by right. }
    apply (IH (ths1 ++ (Store i :: assign_events ixs) :: ths2)); [done| |].
    + apply Forall_app. split; [|apply Forall_cons; split].
      * eapply Forall_impl; [exact Hths1|]. intros th. by apply thread_ok_mono.
      * right. exists i, ixs. split_and!; [done| |done|done].
        simpl. by rewrite lookup_insert_eq.
      * eapply Forall_impl; [exact Hths2|]. intros th. by apply thread_ok_mono.
    + split_and!; simpl; [done|done|done|].
      intros j w' Hj. apply lookup_insert_Some in Hj as [[<- <-]|[_ Hj]].
      * by apply (Hws _ _ Hw).
      * by apply (Hld _ _ Hj).
  - injection Heq as -> ->.
    destruct (lookup_lt_is_Some_2 inp i) as [x Hx]; [lia|].
    simpl. rewrite Hx. simpl. rewrite Hw. simpl.
    apply (IH (ths1 ++ assign_events ixs :: ths2)); [done| |].
    + apply Forall_app. split; [done|]. apply Forall_cons. split; [|done].
      left. by exists ixs.
    + split_and!; simpl; [done|by rewrite length_insert| |done].
      intros k w' Hk. apply list_lookup_insert_Some in Hk as [(<- & <- & _)|[_ Hk]].
      * destruct (func x) eqn:Hf.
        -- apply (sound_word_set _ _ i x); [by apply (Hld _ _ Hw)|done..].
        -- apply sound_word_clear. by apply (Hld _ _ Hw).
      * by apply (Hws _ _ Hk).
Qed.

(** [doMap] into a fresh [vector<bool>], whatever the interleaving of
    its calls: it comes to its end, and an element that is [true]
    afterwards satisfies [func].  (An element that satisfies [func] need
    not be [true] afterwards.) *)
Lemma doMap_vector_bool_sound n run :
  bit_run n run → n ≤ length inp →
  ∃ out',
    doMap_vector_bool run (new_bits n) inp func n = Some out'
    ∧ bv_size out' = n
    ∧ ∀ i, bits out' !! i = Some true → ∃ x, inp !! i = Some x ∧ func x = true.
Proof.
  intros Hrun Hin.
  assert (Hnew : ∀ i, bits (new_bits n) !! i = Some true → False).
  { intros i. rewrite bits_new. intros Hi. apply lookup_replicate in Hi as [? _]. done. }
  destruct Hrun as [[-> ->]|(t & Hsp & Hm)].
  { exists (new_bits 0). split_and!; [done..|]. intros i Hi. by destruct (Hnew i). }
  pose proof (new_bits_wf n) as Hwf. unfold bv_wf in Hwf.
  change (bv_size (new_bits n)) with n in Hwf.
  destruct (bit_steps_merge n n (length (bv_words (new_bits n))) run
              (chunk_events <$> leaves t 0 n) (BitState (new_bits n) ∅))
    as (st' & Hst & Hsz & Hlen & Hws & _); [done| | |done|done|done|].
  { apply Forall_fmap, Forall_forall. intros r Hr.
    destruct (leaves_bounds t 0 n r Hsp Hr) as (_ & _ & He).
    left. exists (seq (r_begin r) (r_end r - r_begin r)). split; [done|].
    apply Forall_forall. intros i Hi. apply elem_of_seq in Hi. lia. }
  { split_and!; simpl; [done|done| |].
    - intros k w Hk. apply lookup_replicate in Hk as [-> _].
      intros j Hj. by rewrite N.bits_0 in Hj.
    - intros i w Hi. by rewrite lookup_empty in Hi. }
  assert (Hn : 0 < n).
  { destruct t; simpl in Hsp; lia. }
  unfold doMap_vector_bool, range_empty. simpl.
  rewrite (proj2 (Nat.ltb_lt 0 n)) by done. simpl. rewrite Hst. simpl.
  exists (st_vec st'). split_and!; [done|done|].
  intros i Hi. pose proof (lookup_lt_Some _ _ _ Hi) as Hlt.
  rewrite length_bits in Hlt. rewrite bits_lookup in Hi by done.
  injection Hi as Hi. unfold get_bit in Hi.
  destruct (lookup_lt_is_Some_2 (bv_words (st_vec st')) (word_of i)) as [w Hw].
  { rewrite Hlen. unfold word_of, WORD_BITS in *.
    apply Nat.Div0.div_lt_upper_bound. lia. }
  rewrite (list_lookup_total_correct _ _ _ Hw) in Hi.
  destruct (Hws _ _ Hw _ Hi) as (i' & x & Hwi & Hbi & Hx & Hf).
  rewrite (word_bit_inj i i') by done. by exists x.
Qed.
End bit_runs.

(* ===================================================================== *)
(** ** Selecting by a list of booleans *)
(* ===================================================================== *)

Lemma selected_cons {T} b bs (x : T) l :
  selected (b :: bs) (x :: l) = (if b then [x] else []) ++ selected bs l.
Proof. unfold selected. simpl. by destruct b. Qed.

Lemma selected_fmap {T} (p : T → bool) l : selected (p <$> l) l = List.filter p l.
Proof.
  induction l as [|x l IH]; [done|].
  rewrite fmap_cons, selected_cons, IH. simpl. by destruct (p x).
Qed.

(** Booleans that are only [true] where [p] holds select a sublist of
    the elements that satisfy [p]. *)
Lemma selected_sublist {T} (p : T → bool) bs l :
  length bs = length l →
  (∀ i, bs !! i = Some true → ∃ x, l !! i = Some x ∧ p x = true) →
  selected bs l `sublist_of` List.filter p l.
Proof.
  revert bs. induction l as [|x l IH]; intros [|b bs] Hlen Hb; simpl in Hlen;
    try done.
  rewrite selected_cons.
  assert (IH' : selected bs l `sublist_of` List.filter p l).
  { apply IH; [lia|]. intros i Hi. apply (Hb (S i) Hi). }
  simpl. destruct b.
  - destruct (Hb 0 eq_refl) as (x' & [= <-] & ->). simpl. by apply sublist_skip.
  - simpl. destruct (p x); [by apply sublist_cons|done].
Qed.

(* ===================================================================== *)
(** ** [size_t] addition, and counting matches *)
(* ===================================================================== *)

Lemma SIZE_MOD_pos : (0 < SIZE_MOD)%N.
Proof. done. Qed.

Lemma size_add_monoid : monoid_on size_add 0%N (λ a, (a < SIZE_MOD)%N).
Proof.
  split.
  - intros a b _ _. unfold size_add. apply N.mod_lt. by intros [=].
  - apply SIZE_MOD_pos.
  - intros a b c _ _ _. unfold size_add.
    rewrite N.Div0.add_mod_idemp_l, N.Div0.add_mod_idemp_r. f_equal. lia.
  - intros a Ha. unfold size_add. rewrite N.add_0_l. by apply N.mod_small.
  - intros a Ha. unfold size_add. rewrite N.add_0_r. by apply N.mod_small.
Qed.

Lemma size_add_small a b :
  (a + b < SIZE_MOD)%N → size_add a b = (a + b)%N.
Proof. intros. unfold size_add. by apply N.mod_small. Qed.

Lemma size_pred_succ c : (c < SIZE_MOD)%N → size_pred (c + 1) = c.
Proof.
  intros Hc. unfold size_pred.
  replace (c + 1 + (SIZE_MOD - 1))%N with (c + 1 * SIZE_MOD)%N
    by (pose proof SIZE_MOD_pos; lia).
  rewrite N.Div0.mod_add. by apply N.mod_small.
Qed.

Lemma bool_to_size_lt b : (bool_to_size b < SIZE_MOD)%N.
Proof. by destruct b. Qed.

Section counting.
Context {T : Type} (p : T → bool).
Implicit Types l : list T.

Local Abbreviation matches_before := (matches_before p).

Lemma filter_take_S l i v :
  l !! i = Some v →
  List.filter p (take (S i) l) = List.filter p (take i l) ++ (if p v then [v] else []).
Proof.
  intros Hv. rewrite (take_S_r _ _ _ Hv), List.filter_app. simpl. by destruct (p v).
Qed.

Lemma matches_before_S l i v :
  l !! i = Some v →
  matches_before l (S i) = matches_before l i + (if p v then 1 else 0).
Proof.
  intros Hv. unfold matches_before. rewrite (filter_take_S _ _ _ Hv), length_app.
  by destruct (p v).
Qed.

Lemma matches_before_le l i : matches_before l i ≤ i.
Proof.
  unfold matches_before.
  etrans; [apply List.filter_length_le|]. rewrite length_take. lia.
Qed.

Lemma matches_before_all l i :
  length l ≤ i → matches_before l i = length (List.filter p l).
Proof. intros. unfold matches_before. by rewrite take_ge. Qed.

Lemma filter_split l i v :
  l !! i = Some v →
  List.filter p l
  = List.filter p (take i l) ++ (if p v then [v] else []) ++ List.filter p (drop (S i) l).
Proof.
  intros Hv. rewrite <- (take_drop_middle l i v Hv) at 1.
  rewrite List.filter_app. simpl. by destruct (p v).
Qed.

(** A match at [i] is the element number [matches_before l i] of the
    filtered list. *)
Lemma filter_lookup_match l i v :
  l !! i = Some v → p v = true →
  List.filter p l !! matches_before l i = Some v.
Proof.
  intros Hv Hp. rewrite (filter_split l i v Hv), Hp.
  unfold matches_before. simpl. by apply list_lookup_middle.
Qed.

Lemma matches_before_lt l i v :
  l !! i = Some v → p v = true →
  matches_before l i < length (List.filter p l).
Proof.
  intros Hv Hp. apply lookup_lt_is_Some. rewrite (filter_lookup_match l i v); eauto.
Qed.

(** Every element of the filtered list is such a match. *)
Lemma filter_lookup_inv l d :
  d < length (List.filter p l) →
  ∃ i v, l !! i = Some v ∧ p v = true ∧ matches_before l i = d.
Proof.
  induction l as [|y l IH] using rev_ind; intros Hd; [simpl in Hd; lia|].
  rewrite List.filter_app, length_app in Hd. simpl in Hd.
  destruct (decide (d < length (List.filter p l))) as [Hlt|Hge].
  - destruct (IH Hlt) as (i & v & Hv & Hp & Hm).
    exists i, v. split_and!; [by apply lookup_app_l_Some|done|].
    unfold matches_before in *. rewrite take_app_le; [done|].
    apply lookup_lt_Some in Hv. lia.
  - destruct (p y) eqn:Hy; simpl in Hd; [|lia].
    exists (length l), y. split_and!; [apply list_lookup_middle; done|done|].
    unfold matches_before. rewrite take_app_le, take_ge by lia. lia.
Qed.

Lemma matches_before_mono l i j :
  i ≤ j → matches_before l i ≤ matches_before l j.
Proof.
  intros Hij. unfold matches_before.
  replace j with (i + (j - i)) by lia.
  rewrite <- take_take_drop, List.filter_app, length_app. lia.
Qed.

(** Two distinct matches have distinct ranks. *)
Lemma matches_before_inj l i j vi vj :
  l !! i = Some vi → p vi = true → l !! j = Some vj → p vj = true →
  matches_before l i = matches_before l j → i = j.
Proof.
  assert (Hlt : ∀ i j vi, l !! i = Some vi → p vi = true → i < j →
                 matches_before l i < matches_before l j).
  { clear. intros i j vi Hvi Hpi Hij.
    pose proof (matches_before_S l i vi Hvi) as HS. rewrite Hpi in HS.
    pose proof (matches_before_mono l (S i) j). lia. }
  intros Hvi Hpi Hvj Hpj Heq.
  destruct (Nat.lt_trichotomy i j) as [H|[H|H]]; [|done|].
  - pose proof (Hlt i j vi Hvi Hpi H). lia.
  - pose proof (Hlt j i vj Hvj Hpj H). lia.
Qed.

(** The prefix sum over the predicate booleans counts the matches: the
    count never reaches [2^64], so the addition never wraps. *)
Lemma run_size_add_count l k :
  (N.of_nat (length l) < SIZE_MOD)%N → k ≤ length l →
  run size_add (bool_to_size <$> (p <$> l)) 0%N 0 k = N.of_nat (matches_before l k).
Proof.
  intros Hl. induction k as [|k IH]; intros Hk.
  - by rewrite run_nil.
  - destruct (lookup_lt_is_Some_2 l k) as [v Hv]; [lia|].
    rewrite (run_snoc _ _ _ _ _ (bool_to_size (p v))); [|by rewrite !list_lookup_fmap, Hv|lia].
    rewrite IH by lia. rewrite (matches_before_S l k v Hv).
    pose proof (matches_before_le l k).
    rewrite size_add_small; destruct (p v); simpl; lia.
Qed.
End counting.

(* ===================================================================== *)
(** ** The scatter pass and the composed filter *)
(* ===================================================================== *)

Section doFilter_facts.
Context {T : Type} (inp : list T) (bolMatch : list bool) (ixMatch : list N).

Local Abbreviation filter_readable := (filter_readable inp bolMatch ixMatch).

Lemma filter_loop_writes n k i (out : Mem T) :
  filter_readable n → i + k ≤ n →
  filter_loop inp bolMatch ixMatch k i out
  = do_writes (omap (filter_write inp bolMatch ixMatch) (seq i k)) out.
Proof.
  intros [Hbol Hrd]. revert i out. induction k as [|k IH]; intros i out Hb; [done|].
  destruct (lookup_lt_is_Some_2 bolMatch i) as [bm Hbm]; [lia|].
  simpl. unfold filter_write at 1. rewrite Hbm. simpl.
  destruct bm.
  - destruct (Hrd i) as [Hix Hin]; [lia|done|].
    destruct (lookup_lt_is_Some_2 ixMatch i Hix) as [ix Hix'].
    destruct (lookup_lt_is_Some_2 inp i Hin) as [v Hv].
    rewrite Hix', Hv. simpl. rewrite do_writes_cons. simpl.
    rewrite store_at_store.
    destruct (store _ v out); simpl; [apply IH; lia|done].
  - apply IH. lia.
Qed.

Lemma elem_of_filter_writes n d v :
  (d, v) ∈ omap (filter_write inp bolMatch ixMatch) (seq 0 n)
  ↔ ∃ i ix, i < n ∧ bolMatch !! i = Some true ∧ ixMatch !! i = Some ix
            ∧ inp !! i = Some v ∧ d = N.to_nat (size_pred ix).
Proof.
  rewrite list_elem_of_omap. split.
  - intros (i & Hi & Hw). apply elem_of_seq in Hi. unfold filter_write in Hw.
    destruct (bolMatch !! i) as [[|]|] eqn:Eb; simpl in Hw; [|done..].
    destruct (ixMatch !! i) as [ix|] eqn:Ei; simpl in Hw; [|done].
    destruct (inp !! i) as [x|] eqn:Ex; simpl in Hw; [|done].
    injection Hw as <- <-. exists i, ix. split_and!; try done. lia.
  - intros (i & ix & Hi & Hb & Hx & Hv & ->). exists i.
    split; [apply elem_of_seq; lia|].
    unfold filter_write. rewrite Hb. simpl. rewrite Hx. simpl. by rewrite Hv.
Qed.

(** [doFilter], whatever the chunk order. *)
Lemma doFilter_spec n order (out : Mem T) :
  chunk_order n order → filter_readable n →
  (∀ i ix, i < n → bolMatch !! i = Some true → ixMatch !! i = Some ix →
           (size_pred ix < N.of_nat (length (cells out)))%N) →
  ∃ ws,
    doFilter order out inp bolMatch ixMatch n
      = Some (MkMem (apply_writes ws (cells out)) (wlog out ++ ws))
    ∧ ws ≡ₚ omap (filter_write inp bolMatch ixMatch) (seq 0 n).
Proof.
  intros Hord Hrd Hdst.
  apply (parallel_for_chunks (filter_write inp bolMatch ixMatch)); [done| |].
  - intros r o Hr. destruct (chunk_order_bounds n order r Hord Hr).
    unfold filter_lambda, indices. apply (filter_loop_writes n); [done|lia].
  - intros i d v Hi Hw.
    assert (Hin : (d, v) ∈ omap (filter_write inp bolMatch ixMatch) (seq 0 n)).
    { apply list_elem_of_omap. exists i. split; [apply elem_of_seq; lia|done]. }
    apply elem_of_filter_writes in Hin as (i' & ix & Hi' & Hb & Hx & _ & ->).
    specialize (Hdst i' ix Hi' Hb Hx). lia.
Qed.
End doFilter_facts.

Section vecFilter_facts.
Context {T : Type} (predicate : T → bool) (inputVec : list T).
Context (Hsize : (N.of_nat (length inputVec) < SIZE_MOD)%N).

Local Abbreviation n := (length inputVec).
Local Abbreviation rank := (matches_before predicate inputVec).

(** SCAN: the running counts of matches, and their total. *)
Lemma vecFilter_scan ts (out : Mem N) :
  scan_sched n ts → length (cells out) = n →
  ∃ ixMatch,
    doScan bool_to_size ts out (predicate <$> inputVec) 0%N size_add n
      = Some (N.of_nat (length (List.filter predicate inputVec)), ixMatch)
    ∧ length (cells ixMatch) = n
    ∧ ∀ i, i < n → cells ixMatch !! i = Some (N.of_nat (rank (S i))).
Proof.
  intros Hts Hout.
  destruct (doScan_monoid bool_to_size size_add 0%N (predicate <$> inputVec)
              (λ a, (a < SIZE_MOD)%N) ts out n)
    as (ixMatch & Hs & Hlen & Hcells).
  { apply size_add_monoid. }
  { apply Forall_fmap, Forall_forall. intros b _. apply bool_to_size_lt. }
  { done. }
  { by rewrite length_fmap. }
  { lia. }
  exists ixMatch. rewrite Hs.
  rewrite run_size_add_count by done || lia.
  rewrite matches_before_all by lia. split_and!; [done|lia|].
  intros i Hi. rewrite Hcells, bool_decide_eq_true_2 by done.
  rewrite run_size_add_count by done || lia. done.
Qed.

(** The slot of a match: [ixMatch[i] - 1] is its rank. *)
Lemma match_slot i v :
  inputVec !! i = Some v → predicate v = true →
  N.to_nat (size_pred (N.of_nat (rank (S i)))) = rank i.
Proof.
  intros Hv Hp. rewrite (matches_before_S _ _ _ _ Hv), Hp.
  replace (N.of_nat (rank i + 1)) with (N.of_nat (rank i) + 1)%N by lia.
  rewrite size_pred_succ; [lia|].
  pose proof (matches_before_le predicate inputVec i).
  apply lookup_lt_Some in Hv. lia.
Qed.

(** JOIN: the scatter pass rebuilds the filtered list. *)
Lemma vecFilter_join dflt os (ixMatch : list N) :
  chunk_order n os → length ixMatch = n →
  (∀ i, i < n → ixMatch !! i = Some (N.of_nat (rank (S i)))) →
  ∃ filteredVec,
    doFilter os (new_vec (length (List.filter predicate inputVec)) dflt) inputVec
             (predicate <$> inputVec) ixMatch n = Some filteredVec
    ∧ cells filteredVec = List.filter predicate inputVec.
Proof.
  intros Hos Hlen Hix.
  set (m := length (List.filter predicate inputVec)).
  assert (Hmatch : ∀ i, (predicate <$> inputVec) !! i = Some true →
            ∃ v, inputVec !! i = Some v ∧ predicate v = true).
  { intros i Hi. rewrite list_lookup_fmap in Hi.
    destruct (inputVec !! i) as [v|]; simpl in Hi; [|done].
    exists v. split; [done|congruence]. }
  destruct (doFilter_spec inputVec (predicate <$> inputVec) ixMatch n os (new_vec m dflt))
    as (ws & Hf & Hperm).
  { done. }
  { split; [by rewrite length_fmap|]. intros i Hi _. lia. }
  { intros i ix Hi Hb Hx. destruct (Hmatch i Hb) as (v & Hv & Hp).
    rewrite Hix in Hx by done. injection Hx as <-.
    pose proof (match_slot i v Hv Hp).
    pose proof (matches_before_lt predicate inputVec i v Hv Hp).
    simpl. rewrite length_replicate. unfold m. lia. }
  eexists. split; [exact Hf|]. simpl.
  assert (Hws : ∀ d v, (d, v) ∈ ws → List.filter predicate inputVec !! d = Some v).
  { intros d v Hin. rewrite Hperm in Hin.
    apply elem_of_filter_writes in Hin as (i & ix & Hi & Hb & Hx & Hv & ->).
    destruct (Hmatch i Hb) as (v' & Hv' & Hp).
    rewrite Hix in Hx by done. injection Hx as <-.
    rewrite (match_slot i v' Hv' Hp).
    rewrite Hv in Hv'. injection Hv' as <-.
    by apply filter_lookup_match. }
  apply list_eq. intros d.
  destruct (decide (d < m)) as [Hd|Hd].
  - destruct (filter_lookup_inv predicate inputVec d Hd) as (i & v & Hv & Hp & Hr).
    pose proof (lookup_lt_Some _ _ _ Hv) as Hi.
    rewrite <- Hr, (filter_lookup_match predicate inputVec i v Hv Hp).
    apply apply_writes_lookup.
    + rewrite Hperm. apply elem_of_filter_writes.
      exists i, (N.of_nat (rank (S i))). split_and!; try done.
      * by rewrite list_lookup_fmap, Hv; simpl; rewrite Hp.
      * by apply Hix.
      * symmetry. by apply (match_slot i v).
    + intros v' Hin. apply Hws in Hin.
      rewrite (filter_lookup_match predicate inputVec i v Hv Hp) in Hin. congruence.
    + rewrite length_replicate. lia.
  - rewrite !lookup_ge_None_2; [done|fold m; lia|].
    rewrite length_apply_writes, length_replicate. lia.
Qed.

End vecFilter_facts.

(** The scan and the scatter pass of [vecFilter], on whatever booleans
    the map step has left in [bolMatch]. *)
Section vecFilter_steps.
Context {T : Type} (inputVec : list T) (bolMatch : list bool).
Context (Hlen : length bolMatch = length inputVec).
Context (Hsize : (N.of_nat (length inputVec) < SIZE_MOD)%N).

Local Abbreviation n := (length inputVec).
Local Abbreviation marked := (zip inputVec bolMatch).
Local Abbreviation rank := (matches_before snd marked).

Lemma length_marked : length marked = n.
Proof. rewrite length_zip_with. lia. Qed.

Lemma marked_lookup i :
  bolMatch !! i = Some true →
  ∃ v, inputVec !! i = Some v ∧ marked !! i = Some (v, true).
Proof.
  intros Hb. destruct (lookup_lt_is_Some_2 inputVec i) as [v Hv].
  { apply lookup_lt_Some in Hb. lia. }
  exists v. split; [done|]. apply lookup_zip_with_Some. by exists v, true.
Qed.

Lemma selected_lookup_match i v :
  inputVec !! i = Some v → bolMatch !! i = Some true →
  selected bolMatch inputVec !! rank i = Some v.
Proof.
  intros Hv Hb. unfold selected. rewrite list_lookup_fmap.
  rewrite (filter_lookup_match snd marked i (v, true)); [done| |done].
  apply lookup_zip_with_Some. by exists v, true.
Qed.

Lemma scan_steps ts (out : Mem N) :
  scan_sched n ts → length (cells out) = n →
  ∃ ixMatch,
    doScan bool_to_size ts out bolMatch 0%N size_add n
      = Some (N.of_nat (length (selected bolMatch inputVec)), ixMatch)
    ∧ length (cells ixMatch) = n
    ∧ ∀ i, i < n → cells ixMatch !! i = Some (N.of_nat (rank (S i))).
Proof.
  intros Hts Hout.
  assert (Hsize' : (N.of_nat (length marked) < SIZE_MOD)%N) by by rewrite length_marked.
  destruct (vecFilter_scan snd marked Hsize' ts out) as (ixMatch & Hs & Hl & Hix);
    rewrite ?length_marked; [done..|].
  rewrite length_marked in Hs, Hl, Hix.
  rewrite snd_zip in Hs by lia.
  exists ixMatch. split_and!; [|done|done].
  rewrite Hs. unfold selected. by rewrite length_fmap.
Qed.

Lemma join_steps dflt os (ixMatch : list N) :
  chunk_order n os → length ixMatch = n →
  (∀ i, i < n → ixMatch !! i = Some (N.of_nat (rank (S i)))) →
  ∃ filteredVec,
    doFilter os (new_vec (length (selected bolMatch inputVec)) dflt) inputVec
             bolMatch ixMatch n = Some filteredVec
    ∧ cells filteredVec = selected bolMatch inputVec.
Proof.
  intros Hos Hlenx Hix.
  assert (Hsize' : (N.of_nat (length marked) < SIZE_MOD)%N) by by rewrite length_marked.
  set (m := length (selected bolMatch inputVec)).
  assert (Hm : m = length (List.filter snd marked)).
  { unfold m, selected. by rewrite length_fmap. }
  assert (Hslot : ∀ i v, inputVec !! i = Some v → bolMatch !! i = Some true →
            N.to_nat (size_pred (N.of_nat (rank (S i)))) = rank i ∧ rank i < m).
  { intros i v Hv Hb.
    assert (Hz : marked !! i = Some (v, true)).
    { apply lookup_zip_with_Some. by exists v, true. }
    split.
    - by apply (match_slot snd marked Hsize' i (v, true)).
    - rewrite Hm. by apply (matches_before_lt snd marked i (v, true)). }
  destruct (doFilter_spec inputVec bolMatch ixMatch n os (new_vec m dflt))
    as (ws & Hf & Hperm).
  { done. }
  { split; [lia|]. intros i Hi _. lia. }
  { intros i ix Hi Hb Hx. destruct (marked_lookup i Hb) as (v & Hv & _).
    rewrite Hix in Hx by done. injection Hx as <-.
    destruct (Hslot i v Hv Hb). simpl. rewrite length_replicate. lia. }
  eexists. split; [exact Hf|]. simpl.
  assert (Hws : ∀ d v, (d, v) ∈ ws → selected bolMatch inputVec !! d = Some v).
  { intros d v Hin. rewrite Hperm in Hin.
    apply elem_of_filter_writes in Hin as (i & ix & Hi & Hb & Hx & Hv & ->).
    rewrite Hix in Hx by done. injection Hx as <-.
    destruct (Hslot i v Hv Hb) as [-> _]. by apply selected_lookup_match. }
  apply list_eq. intros d.
  destruct (decide (d < m)) as [Hd|Hd].
  - rewrite Hm in Hd.
    destruct (filter_lookup_inv snd marked d Hd) as (i & [v b] & Hz & Hp & Hr).
    simpl in Hp. subst b.
    apply lookup_zip_with_Some in Hz as (v' & b' & [= <- <-] & Hv & Hb).
    pose proof (lookup_lt_Some _ _ _ Hv) as Hi.
    rewrite <- Hr, (selected_lookup_match i v Hv Hb).
    apply apply_writes_lookup.
    + rewrite Hperm. apply elem_of_filter_writes.
      exists i, (N.of_nat (rank (S i))). split_and!; try done.
      * by apply Hix.
      * symmetry. by apply (Hslot i v).
    + intros v' Hin. apply Hws in Hin.
      rewrite (selected_lookup_match i v Hv Hb) in Hin. congruence.
    + rewrite length_replicate. destruct (Hslot i v Hv Hb). lia.
  - rewrite !lookup_ge_None_2; [done|fold m; lia|].
    rewrite length_apply_writes, length_replicate. lia.
Qed.
End vecFilter_steps.

Section vecFilter_runs.
Context {T : Type} (predicate : T → bool) (inputVec : list T).
Context (Hsize : (N.of_nat (length inputVec) < SIZE_MOD)%N).

Local Abbreviation n := (length inputVec).

(** [vecFilter] returns the elements at the positions where its map
    step has left [true] in [bolMatch]; it fails where the map step
    fails. *)
Lemma vecFilter_selected dflt om ts os :
  scan_sched n ts → chunk_order n os →
  vecFilter dflt om ts os inputVec predicate
  = (λ bolMatch, selected (bits bolMatch) inputVec)
      <$> doMap_vector_bool om (new_bits n) inputVec predicate n.
Proof.
  intros Hts Hos. unfold vecFilter.
  destruct (doMap_vector_bool om (new_bits n) inputVec predicate n)
    as [bolMatch|] eqn:Hm; simpl; [|done].
  assert (Hlen : length (bits bolMatch) = n).
  { rewrite length_bits. by rewrite (doMap_vector_bool_size _ _ _ _ _ _ Hm). }
  destruct (scan_steps inputVec (bits bolMatch) Hlen Hsize ts (new_vec n 0%N) Hts)
    as (ixMatch & -> & Hlenx & Hix); [by simpl; rewrite length_replicate|]. simpl.
  rewrite Nat2N.id.
  destruct (join_steps inputVec (bits bolMatch) Hlen Hsize dflt os (cells ixMatch)
              Hos Hlenx Hix) as (out & -> & Hout).
  simpl. by rewrite Hout.
Qed.

(** MAP, when the calls do not overlap in time: the predicate booleans. *)
Lemma vecFilter_map order :
  chunk_order n order →
  ∃ bolMatch,
    doMap_vector_bool (serial_run order) (new_bits n) inputVec predicate n
      = Some bolMatch
    ∧ bits bolMatch = predicate <$> inputVec.
Proof.
  clear Hsize. intros Hom.
  destruct (doMap_vector_bool_serial predicate inputVec n order (new_bits n))
    as (bolMatch & Hm & _ & Hbits); [done|done|done|apply new_bits_wf|].
  exists bolMatch. split; [done|]. rewrite Hbits.
  rewrite take_ge, drop_ge by (rewrite ?length_bits; simpl; lia).
  by rewrite app_nil_r.
Qed.

(** [vecFilter], when the calls of its map step do not overlap in time,
    whatever the partitions and the runs of the other two steps. *)
Lemma vecFilter_spec dflt order ts os :
  chunk_order n order → scan_sched n ts → chunk_order n os →
  vecFilter dflt (serial_run order) ts os inputVec predicate
  = Some (List.filter predicate inputVec).
Proof.
  intros Hom Hts Hos. rewrite vecFilter_selected by done.
  destruct (vecFilter_map order Hom) as (bolMatch & -> & Hbol). simpl.
  by rewrite Hbol, selected_fmap.
Qed.
End vecFilter_runs.

(* ===================================================================== *)
(** ** The properties of the specification *)
(* ===================================================================== *)

Lemma run_0 {T} (f : T → T → T) xs s k : run f xs s 0 k = foldl f s (take k xs).
Proof. unfold run. by rewrite Nat.sub_0_r, drop_0. Qed.

Lemma monoid_on_all {T} (f : T → T → T) (e0 : T) :
  (∀ a b c, f (f a b) c = f a (f b c)) →
  (∀ a, f e0 a = a) → (∀ a, f a e0 = a) →
  monoid_on f e0 (λ _, True).
Proof. intros. by split. Qed.

Lemma cells_eq_lookup {T} (l1 l2 l : list T) n (P : nat → T) :
  length l1 = length l → length l2 = length l →
  (∀ j, l1 !! j = if bool_decide (j < n) then Some (P j) else l !! j) →
  (∀ j, l2 !! j = if bool_decide (j < n) then Some (P j) else l !! j) →
  l1 = l2.
Proof. intros _ _ H1 H2. apply list_eq. intros j. by rewrite H1, H2. Qed.

(** C1.  For every associative combiner with identity, every input and
    every length [n], [doScan] succeeds on arrays of at least [n] cells,
    whatever the splitting of the range; it sets [out[i]] to
    [in[0] ⊕ … ⊕ in[i]] for every [i < n] (the left-to-right fold of the
    first [i + 1] inputs, which for an identity is the same started at
    the identity or at [in[0]]), leaves the other cells alone, and
    returns the fold of all [n] inputs.  Cells and total are those of
    the sequential loop [DoSerialScan] run with the same combiner. *)
Theorem doScan_matches_sequential_fold {T InT} (cast : InT → T)
    (func : T → T → T) (ident : T) (inp : list InT) (out : Mem T)
    (n : nat) (t : sched) :
  (∀ a b c, func (func a b) c = func a (func b c)) →
  (∀ a, func ident a = a) → (∀ a, func a ident = a) →
  scan_sched n t → n ≤ length inp → n ≤ length (cells out) →
  ∃ out',
    doScan cast t out inp ident func n
      = Some (foldl func ident (cast <$> take n inp), out')
    ∧ (∀ i, i < n →
         cells out' !! i = Some (foldl func ident (cast <$> take (S i) inp)))
    ∧ (∀ i x0, i < n → inp !! 0 = Some x0 →
         cells out' !! i
         = Some (foldl func (cast x0) (cast <$> take i (drop 1 inp))))
    ∧ (∀ i, n ≤ i → cells out' !! i = cells out !! i)
    ∧ length (cells out') = length (cells out)
    ∧ ∃ y',
        SeqVsParallel.DoSerialScan ident func out (cast <$> inp) n
          = Some (foldl func ident (cast <$> take n inp), y')
        ∧ cells y' = cells out'.
Proof.
  intros Hassoc Hleft Hright Hsched Hin Hout.
  destruct (doScan_monoid cast func ident inp (λ _, True) t out n)
    as (out' & Hs & Hlen & Hcells);
    [by apply monoid_on_all|by apply Forall_true|done..|].
  destruct (DoSerialScan_spec ident func out (cast <$> inp) n)
    as (y' & Hy & Hylen & Hycells & _); [by rewrite length_fmap|done|].
  rewrite run_0, <- fmap_take in Hs, Hy.
  exists out'. split_and!; try done.
  - intros i Hi. rewrite Hcells, bool_decide_eq_true_2 by done.
    by rewrite run_0, <- fmap_take.
  - intros i x0 Hi Hx0. rewrite Hcells, bool_decide_eq_true_2 by done.
    rewrite run_0, <- fmap_take.
    destruct inp as [|x1 inp']; [done|]. injection Hx0 as ->.
    simpl. rewrite drop_0. by rewrite Hleft.
  - intros i Hi. rewrite Hcells, bool_decide_eq_false_2 by lia. done.
  - exists y'. split; [done|].
    by apply (cells_eq_lookup _ _ (cells out) n
                (λ j, run func (cast <$> inp) ident 0 (S j))).
Qed.

Lemma doScan_matches_sequential_fold_witness :
  ∃ out',
    doScan id (Steal 1 Run (Steal 2 Run Run)) (new_vec 3 []) [[1]; [2]; [3]] [] app 3
      = Some (foldl app [] (id <$> take 3 [[1]; [2]; [3]]), out')
    ∧ (∀ i, i < 3 →
         cells out' !! i = Some (foldl app [] (id <$> take (S i) [[1]; [2]; [3]])))
    ∧ (∀ i x0, i < 3 → [[1]; [2]; [3]] !! 0 = Some x0 →
         cells out' !! i = Some (foldl app (id x0) (id <$> take i (drop 1 [[1]; [2]; [3]]))))
    ∧ (∀ i, 3 ≤ i → cells out' !! i = cells (new_vec 3 ([] : list nat)) !! i)
    ∧ length (cells out') = length (cells (new_vec 3 ([] : list nat)))
    ∧ ∃ y',
        SeqVsParallel.DoSerialScan [] app (new_vec 3 []) (id <$> [[1]; [2]; [3]]) 3
          = Some (foldl app [] (id <$> take 3 [[1]; [2]; [3]]), y')
        ∧ cells y' = cells out'.
Proof.
  apply (doScan_matches_sequential_fold id app [] [[1]; [2]; [3]] (new_vec 3 []) 3).
  - intros a b c. symmetry. apply app_assoc.
  - intros a. reflexivity.
  - intros a. apply app_nil_r.
  - right. simpl. lia.
  - simpl. lia.
  - simpl. lia.
Defined.



(** C9.  The two versions of the inner loop of [Body::operator()]
    ([USE_OPTIMISED_LOOP] 1 and 0) agree: for every range, incoming sum
    and tag they fail together or leave the same sum and the same output
    array, with the same writes made in the same order. *)
Theorem Body_call_variants_agree {T} (plus : T → T → T) (r : blocked_range)
    (is_final_scan : bool) (b : SeqVsParallel.Body) (y : Mem T) :
  SeqVsParallel.call_optimised plus r is_final_scan b y
  = SeqVsParallel.call_plain plus r is_final_scan b y.
Proof.
  unfold SeqVsParallel.call_optimised, SeqVsParallel.call_plain.
  destruct is_final_scan.
  - by rewrite loop_final_tagged.
  - by rewrite loop_pre_tagged.
Qed.

(** C4.  [doMap] with a [std::vector<bool>] for [out], which is how
    [vecFilter] calls it: input [13, 20], function [x > 10], [n = 2].
    The range is split into [[0, 1)] and [[1, 2)], the two calls run at
    the same time, and both load the word of the vector before either
    stores it.  [doMap] comes to its end with [out[0] = false] although
    [func(in[0])] is [true]: the store of the second call has put back
    the word as it was before the first call set its bit. *)
Theorem doMap_vector_bool_loses_write :
  bit_run 2 race_run_2
  ∧ ∃ out',
      doMap_vector_bool race_run_2 (new_bits 2) [13; 20]%Z main_predicate 2 = Some out'
      ∧ bits out' = [false; true]
      ∧ main_predicate <$> [13; 20]%Z = [true; true]
      ∧ bits out' !! 0 ≠ main_predicate <$> [13; 20]%Z !! 0.
Proof.
  split.
  - right. exists (Steal 1 Run Run). split; [simpl; lia|reflexivity].
  - eexists. split; [vm_compute; reflexivity|]. by split_and!.
Qed.

Lemma length_filter_count {T} (p : T → bool) l :
  length (List.filter p l) = count_matches p l.
Proof. induction l as [|v l IH]; [done|]. simpl. destruct (p v); simpl; lia. Qed.

(** C2.  [vecFilter] on the input [13, 20] with the predicate [x > 10],
    when the two calls of its map step on [[0, 1)] and [[1, 2)] both
    load the word of [bolMatch] before either stores it: [bolMatch] is
    left as [0, 1], the scan returns 1, and [vecFilter] returns [20],
    one element, where two elements satisfy the predicate and the
    elements that satisfy it are [13, 20]. *)
Theorem vecFilter_loses_match :
  bit_run 2 race_run_2
  ∧ scan_sched 2 (Steal 1 Run Run)
  ∧ chunk_order 2 [Range 0 1; Range 1 2]
  ∧ vecFilter 0%Z race_run_2 (Steal 1 Run Run) [Range 0 1; Range 1 2]
              [13; 20]%Z main_predicate = Some [20]%Z
  ∧ List.filter main_predicate [13; 20]%Z = [13; 20]%Z
  ∧ count_matches main_predicate [13; 20]%Z = 2
  ∧ ∃ bolMatch ixMatch,
      doMap_vector_bool race_run_2 (new_bits 2) [13; 20]%Z main_predicate 2
        = Some bolMatch
      ∧ bits bolMatch = [false; true]
      ∧ doScan bool_to_size (Steal 1 Run Run) (new_vec 2 0%N) (bits bolMatch)
               0%N size_add 2 = Some (1%N, ixMatch).
Proof.
  split_and!.
  - right. exists (Steal 1 Run Run). split; [simpl; lia|reflexivity].
  - right. simpl. lia.
  - right. exists (Steal 1 Run Run). split; [simpl; lia|reflexivity].
  - vm_compute. reflexivity.
  - reflexivity.
  - reflexivity.
  - eexists _, _. split_and!; vm_compute; reflexivity.
Qed.

Lemma size_pred_pos ix :
  (0 < ix)%N → (ix < SIZE_MOD)%N → N.to_nat (size_pred ix) = N.to_nat ix - 1.
Proof.
  intros H0 Hlt. replace ix with (ix - 1 + 1)%N at 1 by lia.
  rewrite size_pred_succ by lia. lia.
Qed.

Lemma omap_seq_ext {A} (f g : nat → option A) b k :
  (∀ i, b ≤ i < b + k → f i = g i) → omap f (seq b k) = omap g (seq b k).
Proof.
  revert b. induction k as [|k IH]; intros b Hfg; [done|].
  assert (Hcons : ∀ h : nat → option A,
            omap h (seq b (S k))
            = match h b with
              | Some y => y :: omap h (seq (S b) k)
              | None => omap h (seq (S b) k)
              end) by done.
  rewrite !Hcons, (Hfg b) by lia.
  by rewrite (IH (S b)) by (intros; apply Hfg; lia).
Qed.

(** C3.  In the scatter pass, on arrays that can be read over [[0, n)],
    with [ixMatch[i]] a count between 1 and the length of [out] wherever
    [bolMatch[i]] is true, and whatever the partition of the range and
    the order of its parts: the writes made to [out] are exactly the
    writes [out[ixMatch[i] - 1] = in[i]] of the indices [i < n] with
    [bolMatch[i]] true, one for each such index, and nothing else.  The
    destination [d] of such a write is one less than the count:
    [d + 1 = ixMatch[i]].  So a slot that is no destination keeps its
    value, and a destination that only one index targets ends up with
    the input of that index. *)
Theorem doFilter_scatter_writes {T} (inp : list T) (bolMatch : list bool)
    (ixMatch : list N) (out : Mem T) (n : nat) (order : list blocked_range) :
  chunk_order n order → filter_readable inp bolMatch ixMatch n →
  (∀ i ix, i < n → bolMatch !! i = Some true → ixMatch !! i = Some ix →
           (0 < ix)%N ∧ (ix < SIZE_MOD)%N ∧ N.to_nat ix - 1 < length (cells out)) →
  ∃ out' ws,
    doFilter order out inp bolMatch ixMatch n = Some out'
    ∧ wlog out' = wlog out ++ ws
    ∧ ws ≡ₚ omap (scatter_write inp bolMatch ixMatch) (seq 0 n)
    ∧ (∀ d v, (d, v) ∈ ws ↔
         ∃ i ix, i < n ∧ bolMatch !! i = Some true ∧ ixMatch !! i = Some ix
                 ∧ inp !! i = Some v ∧ d + 1 = N.to_nat ix)
    ∧ length (cells out') = length (cells out)
    ∧ (∀ d, (∀ i ix, i < n → bolMatch !! i = Some true → ixMatch !! i = Some ix →
                     d + 1 ≠ N.to_nat ix) →
            cells out' !! d = cells out !! d)
    ∧ (∀ i ix v, i < n → bolMatch !! i = Some true → ixMatch !! i = Some ix →
         inp !! i = Some v →
         (∀ j jx, j < n → bolMatch !! j = Some true → ixMatch !! j = Some jx →
                  jx = ix → j = i) →
         cells out' !! (N.to_nat ix - 1) = Some v).
Proof.
  intros Hord Hrd Hdst.
  assert (Hpred : ∀ i ix, i < n → bolMatch !! i = Some true →
            ixMatch !! i = Some ix → N.to_nat (size_pred ix) = N.to_nat ix - 1).
  { intros i ix Hi Hb Hx. destruct (Hdst i ix Hi Hb Hx) as (? & ? & _).
    by apply size_pred_pos. }
  destruct (doFilter_spec inp bolMatch ixMatch n order out Hord Hrd)
    as (ws & Hf & Hperm).
  { intros i ix Hi Hb Hx. pose proof (Hpred i ix Hi Hb Hx).
    destruct (Hdst i ix Hi Hb Hx) as (? & ? & ?). lia. }
  assert (Hsame : omap (filter_write inp bolMatch ixMatch) (seq 0 n)
                  = omap (scatter_write inp bolMatch ixMatch) (seq 0 n)).
  { apply omap_seq_ext. intros i Hi. unfold filter_write, scatter_write.
    destruct (bolMatch !! i) as [[|]|] eqn:Hb; simpl; try done.
    destruct (ixMatch !! i) as [ix|] eqn:Hx; simpl; [|done].
    destruct (inp !! i) as [v|]; simpl; [|done].
    by rewrite (Hpred i ix) by (done || lia). }
  assert (Hws : ∀ d v, (d, v) ∈ ws ↔
         ∃ i ix, i < n ∧ bolMatch !! i = Some true ∧ ixMatch !! i = Some ix
                 ∧ inp !! i = Some v ∧ d + 1 = N.to_nat ix).
  { intros d v. rewrite Hperm, elem_of_filter_writes. split.
    - intros (i & ix & Hi & Hb & Hx & Hv & ->). exists i, ix.
      split_and!; try done. rewrite (Hpred i ix) by done.
      destruct (Hdst i ix Hi Hb Hx) as (? & _). lia.
    - intros (i & ix & Hi & Hb & Hx & Hv & Hd). exists i, ix.
      split_and!; try done. rewrite (Hpred i ix) by done. lia. }
  eexists _, ws. split; [exact Hf|]. simpl. split_and!; try done.
  - by rewrite Hperm, Hsame.
  - apply length_apply_writes.
  - intros d Hd. apply apply_writes_other. intros v Hin.
    apply Hws in Hin as (i & ix & Hi & Hb & Hx & _ & Heq). by eapply Hd.
  - intros i ix v Hi Hb Hx Hv Huniq.
    destruct (Hdst i ix Hi Hb Hx) as (H0 & Hlt & Hin).
    apply apply_writes_lookup.
    + apply Hws. exists i, ix. split_and!; try done. lia.
    + intros v' Hin'. apply Hws in Hin' as (j & jx & Hj & Hjb & Hjx & Hjv & Heq).
      assert (j = i) as ->; [|congruence].
      apply (Huniq j jx); try done. lia.
    + lia.
Qed.

Lemma doFilter_scatter_writes_witness :
  ∃ out' ws,
    doFilter [Range 1 3; Range 0 1] (new_vec 2 0%Z) [13; 1; 20]%Z
             [true; false; true] [1; 1; 2]%N 3 = Some out'
    ∧ wlog out' = wlog (new_vec 2 0%Z) ++ ws
    ∧ ws ≡ₚ omap (scatter_write [13; 1; 20]%Z [true; false; true] [1; 1; 2]%N) (seq 0 3)
    ∧ (∀ d v, (d, v) ∈ ws ↔
         ∃ i ix, i < 3 ∧ [true; false; true] !! i = Some true
                 ∧ [1; 1; 2]%N !! i = Some ix
                 ∧ [13; 1; 20]%Z !! i = Some v ∧ d + 1 = N.to_nat ix)
    ∧ length (cells out') = length (cells (new_vec 2 0%Z))
    ∧ (∀ d, (∀ i ix, i < 3 → [true; false; true] !! i = Some true →
                     [1; 1; 2]%N !! i = Some ix → d + 1 ≠ N.to_nat ix) →
            cells out' !! d = cells (new_vec 2 0%Z) !! d)
    ∧ (∀ i ix v, i < 3 → [true; false; true] !! i = Some true →
         [1; 1; 2]%N !! i = Some ix → [13; 1; 20]%Z !! i = Some v →
         (∀ j jx, j < 3 → [true; false; true] !! j = Some true →
                  [1; 1; 2]%N !! j = Some jx → jx = ix → j = i) →
         cells out' !! (N.to_nat ix - 1) = Some v).
Proof.
  apply doFilter_scatter_writes.
  - right. exists (Steal 1 Run Run). split; [simpl; lia|]. simpl. apply perm_swap.
  - split; [simpl; lia|]. intros i Hi _. simpl. lia.
  - intros i ix Hi Hb Hx.
    destruct i as [|[|[|i]]]; simpl in *; try lia; try discriminate;
      injection Hx as <-; split_and!; (reflexivity || lia).
Defined.

(** C5.  When [ixMatch] is what [doScan] computes from [bolMatch] (as in
    [vecFilter]) and [out] has the length that [doScan] returns, the
    destinations [ixMatch[i] - 1] of two distinct indices with
    [bolMatch] true are distinct, and each lies inside [out]. *)
Theorem scatter_slots_distinct_in_bounds {T} (dflt : T) (bolMatch : list bool)
    (ts : sched) (outSize : N) (ixMatch : Mem N) :
  (N.of_nat (length bolMatch) < SIZE_MOD)%N →
  scan_sched (length bolMatch) ts →
  doScan bool_to_size ts (new_vec (length bolMatch) 0%N) bolMatch 0%N size_add
         (length bolMatch) = Some (outSize, ixMatch) →
  ∀ i j ix jx,
    bolMatch !! i = Some true → bolMatch !! j = Some true →
    cells ixMatch !! i = Some ix → cells ixMatch !! j = Some jx →
    (i ≠ j → size_pred ix ≠ size_pred jx)
    ∧ (size_pred ix < outSize)%N
    ∧ N.to_nat (size_pred ix) < length (cells (new_vec (N.to_nat outSize) dflt)).
Proof.
  intros Hsize Hts Hscan i j ix jx Hbi Hbj Hix Hjx.
  destruct (vecFilter_scan id bolMatch Hsize ts (new_vec (length bolMatch) 0%N) Hts)
    as (ixMatch' & Hs & _ & Hcells); [by simpl; rewrite length_replicate|].
  rewrite list_fmap_id in Hs. rewrite Hs in Hscan. injection Hscan as <- <-.
  pose proof (lookup_lt_Some _ _ _ Hbi) as Hi.
  pose proof (lookup_lt_Some _ _ _ Hbj) as Hj.
  rewrite Hcells in Hix, Hjx by done. injection Hix as <-. injection Hjx as <-.
  pose proof (match_slot id bolMatch Hsize i true Hbi eq_refl) as Hsi.
  pose proof (match_slot id bolMatch Hsize j true Hbj eq_refl) as Hsj.
  pose proof (matches_before_lt id bolMatch i true Hbi eq_refl) as Hlt.
  split_and!.
  - intros Hne Heq. apply Hne.
    apply (matches_before_inj id bolMatch i j true true); try done.
    rewrite <- Hsi, <- Hsj. by rewrite Heq.
  - lia.
  - simpl. rewrite length_replicate. lia.
Qed.

Lemma scatter_slots_distinct_in_bounds_witness :
  (0 ≠ 2 → size_pred 1 ≠ size_pred 2)
  ∧ (size_pred 1 < 2)%N
  ∧ N.to_nat (size_pred 1) < length (cells (new_vec (N.to_nat 2) 0%Z)).
Proof.
  refine (scatter_slots_distinct_in_bounds 0%Z [true; false; true]
            (Steal 1 Run (Steal 2 Run Run)) 2%N
            (MkMem [1; 1; 2]%N [(0, 1%N); (1, 1%N); (2, 2%N)])
            _ _ _ 0 2 1%N 2%N _ _ _ _).
  - reflexivity.
  - right. simpl. lia.
  - reflexivity.
  - reflexivity.
  - reflexivity.
  - reflexivity.
  - reflexivity.
Defined.

(** C6.  [vecFilter] on the input [13, 20] with the predicate [x > 10],
    in two runs that differ only in how the two calls of the map step
    on [[0, 1)] and [[1, 2)] run: one after the other, the result is
    [13, 20]; both loading the word of [bolMatch] before either stores
    it, the result is [20].  The result of the filter depends on the
    run. *)
Theorem vecFilter_depends_on_run :
  bit_run 2 serial_run_2 ∧ bit_run 2 race_run_2
  ∧ scan_sched 2 (Steal 1 Run Run) ∧ chunk_order 2 [Range 0 2]
  ∧ vecFilter 0%Z serial_run_2 (Steal 1 Run Run) [Range 0 2]
              [13; 20]%Z main_predicate = Some [13; 20]%Z
  ∧ vecFilter 0%Z race_run_2 (Steal 1 Run Run) [Range 0 2]
              [13; 20]%Z main_predicate = Some [20]%Z.
Proof.
  split_and!.
  - right. exists (Steal 1 Run Run). split; [simpl; lia|reflexivity].
  - right. exists (Steal 1 Run Run). split; [simpl; lia|reflexivity].
  - right. simpl. lia.
  - right. exists Run. split; [simpl; lia|reflexivity].
  - vm_compute. reflexivity.
  - vm_compute. reflexivity.
Qed.

(** Associativity is needed: with subtraction, a part stolen inside a
    stolen part is entered with a sum joined in another order than the
    sequential loop would have it. *)
Example doScan_sub_sequential :
  doScan id Run (new_vec 3 0%Z) [7; 1; 5]%Z 0%Z Z.sub 3
  = Some ((-13)%Z, MkMem [-7; -8; -13]%Z [(0, (-7)%Z); (1, (-8)%Z); (2, (-13)%Z)]).
Proof. reflexivity. Qed.

Example doScan_sub_stolen :
  doScan id (Steal 1 Run (Steal 2 Run Run)) (new_vec 3 0%Z) [7; 1; 5]%Z 0%Z Z.sub 3
  = Some ((-11)%Z, MkMem [-7; -8; -11]%Z [(0, (-7)%Z); (1, (-8)%Z); (2, (-11)%Z)]).
Proof. reflexivity. Qed.

(** Outside the contract of [doFilter] the behaviour is undefined: a
    match whose running count is 0 would be written at index
    [2^64 - 1]. *)
Example doFilter_count_zero_undefined :
  doFilter [Range 0 1] (new_vec 1 0%Z) [13]%Z [true] [0%N] 1 = None.
Proof. reflexivity. Qed.

Lemma splits_one t : splits t 0 1 → t = Run.
Proof. destruct t; simpl; [done|lia|lia]. Qed.

(** C7.  On an empty range ([n = 0]) [doMap] and [doScan] leave the
    output as it is and [doScan] returns the identity; [vecFilter] of the
    empty vector is the empty vector.  On a single element ([n = 1]),
    with [ident] a left identity of the combiner, [doScan] sets
    [out[0] = in[0]] and returns it. *)
Theorem boundary_cases {T InT OutT} (cast : InT → T) (func : T → T → T)
    (ident : T) (f : InT → OutT) (predicate : InT → bool) (dflt : InT)
    (inp : list InT) (x0 : InT) (out : Mem T) (outm : Mem OutT)
    (order : list blocked_range) (om : list bit_event) (os : list blocked_range)
    (t ts : sched) :
  (∀ a, func ident a = a) →
  inp !! 0 = Some x0 → 1 ≤ length (cells out) → splits t 0 1 →
  doMap order outm inp f 0 = Some outm
  ∧ doMap order (new_vec 0 (f x0)) inp f 0 = Some (MkMem [] [])
  ∧ doScan cast t out inp ident func 0 = Some (ident, out)
  ∧ doScan cast t (new_vec 0 ident) [] ident func 0 = Some (ident, MkMem [] [])
  ∧ vecFilter dflt om ts os [] predicate = Some []
  ∧ ∃ out',
      doScan cast t out inp ident func 1 = Some (cast x0, out')
      ∧ cells out' !! 0 = Some (cast x0)
      ∧ wlog out' = wlog out ++ [(0, cast x0)].
Proof.
  intros Hleft Hx0 Hout Ht. split_and!; try done.
  apply splits_one in Ht as ->.
  destruct out as [[|c cs] lg]; simpl in Hout; [lia|].
  destruct inp as [|x inp']; [done|]. injection Hx0 as ->.
  eexists. unfold doScan, parallel_scan_fn, parallel_scan. simpl.
  unfold scan_lambda. simpl. rewrite !Hleft. simpl. done.
Qed.

Lemma boundary_cases_witness :
  doMap [] (new_vec 2 false) [7; 1]%Z main_predicate 0 = Some (new_vec 2 false)
  ∧ doMap [] (new_vec 0 (main_predicate 7%Z)) [7; 1]%Z main_predicate 0 = Some (MkMem [] [])
  ∧ doScan id Run (new_vec 2 0%Z) [7; 1]%Z 0%Z Z.add 0 = Some (0%Z, new_vec 2 0%Z)
  ∧ doScan id Run (new_vec 0 0%Z) [] 0%Z Z.add 0 = Some (0%Z, MkMem [] [])
  ∧ vecFilter 0%Z [] Run [] [] main_predicate = Some []
  ∧ ∃ out',
      doScan id Run (new_vec 2 0%Z) [7; 1]%Z 0%Z Z.add 1 = Some (id 7%Z, out')
      ∧ cells out' !! 0 = Some (id 7%Z)
      ∧ wlog out' = wlog (new_vec 2 0%Z) ++ [(0, id 7%Z)].
Proof.
  apply (boundary_cases id Z.add 0%Z main_predicate main_predicate 0%Z [7; 1]%Z 7%Z
           (new_vec 2 0%Z) (new_vec 2 false) [] [] [] Run Run).
  - intros a. lia.
  - reflexivity.
  - simpl. lia.
  - simpl. lia.
Defined.

(** C8.  The run of [main]: the input [7, 1, 0, 13, 0, 15, 20, -1] and
    the predicate [x > 10].  When the calls of the map step are made one
    after the other, [bolMatch] is [0,0,0,1,0,1,1,0], [ixMatch] is
    [0,0,0,1,1,2,3,3], the scan returns 3 and the filtered vector is
    [13, 15, 20].  When the calls on [[0, 4)] and [[4, 8)] run at the
    same time as in [main_race_run], the bit of the element 20 is lost:
    [bolMatch] is [0,0,0,1,0,1,0,0], [ixMatch] is [0,0,0,1,1,2,2,2], the
    scan returns 2 and the filtered vector is [13, 15]. *)
Theorem main_scenario_race :
  (bit_run 8 (serial_run [Range 0 4; Range 4 8])
   ∧ ∃ bolMatch ixMatch,
       doMap_vector_bool (serial_run [Range 0 4; Range 4 8]) (new_bits 8)
         main_input main_predicate 8 = Some bolMatch
       ∧ bits bolMatch = [false; false; false; true; false; true; true; false]
       ∧ doScan bool_to_size (Steal 4 Run Run) (new_vec 8 0%N) (bits bolMatch)
                0%N size_add 8 = Some (3%N, ixMatch)
       ∧ cells ixMatch = [0; 0; 0; 1; 1; 2; 3; 3]%N
       ∧ vecFilter 0%Z (serial_run [Range 0 4; Range 4 8]) (Steal 4 Run Run)
                   [Range 0 4; Range 4 8] main_input main_predicate
         = Some [13; 15; 20]%Z)
  ∧ (bit_run 8 main_race_run
     ∧ ∃ bolMatch ixMatch,
         doMap_vector_bool main_race_run (new_bits 8) main_input main_predicate 8
           = Some bolMatch
         ∧ bits bolMatch = [false; false; false; true; false; true; false; false]
         ∧ doScan bool_to_size (Steal 4 Run Run) (new_vec 8 0%N) (bits bolMatch)
                  0%N size_add 8 = Some (2%N, ixMatch)
         ∧ cells ixMatch = [0; 0; 0; 1; 1; 2; 2; 2]%N
         ∧ vecFilter 0%Z main_race_run (Steal 4 Run Run)
                     [Range 0 4; Range 4 8] main_input main_predicate
           = Some [13; 15]%Z).
Proof.
  split; (split;
    [right; exists (Steal 4 Run Run); split; [simpl; lia|reflexivity]|]).
  - eexists _, _. split_and!; vm_compute; reflexivity.
  - eexists _, _. split_and!; vm_compute; reflexivity.
Qed.

(* ===================================================================== *)
(** ** Further properties of the scan bodies *)
(* ===================================================================== *)

Section scan_loop_more.
Context {T InT : Type} (cast : InT → T) (func : T → T → T) (inp : list InT).

Lemma scan_loop_app is_final k1 k2 i tmp (out : Mem T) :
  scan_loop cast func inp is_final (k1 + k2) i tmp out
  = scan_loop cast func inp is_final k1 i tmp out
    ≫= λ '(t1, o1), scan_loop cast func inp is_final k2 (i + k1) t1 o1.
Proof.
  revert i tmp out. induction k1 as [|k1 IH]; intros i tmp out.
  - simpl. by rewrite Nat.add_0_r.
  - simpl. destruct (inp !! i) as [v|]; simpl; [|done].
    destruct (if is_final then store i (func tmp (cast v)) out else Some out)
      as [o|]; simpl; [|done].
    rewrite IH. by replace (S i + k1) with (i + S k1) by lia.
Qed.

Lemma length_store i (v : T) out out' :
  store i v out = Some out' →
  i < length (cells out) ∧ length (cells out') = length (cells out).
Proof.
  unfold store. case_decide; [|done]. intros [= <-]. simpl.
  by rewrite length_insert.
Qed.

(** A loop that comes to its end has stayed inside the arrays. *)
Lemma scan_loop_Some_bounds is_final k i tmp (out : Mem T) r :
  scan_loop cast func inp is_final k i tmp out = Some r →
  length (cells r.2) = length (cells out)
  ∧ (0 < k → i + k ≤ length inp
             ∧ (is_final = true → i + k ≤ length (cells out))).
Proof.
  revert i tmp out. induction k as [|k IH]; intros i tmp out Hs.
  - simpl in Hs. injection Hs as <-. split; [done|lia].
  - simpl in Hs. destruct (inp !! i) as [v|] eqn:Hv; simpl in Hs; [|done].
    apply lookup_lt_Some in Hv.
    destruct is_final.
    + destruct (store i (func tmp (cast v)) out) as [o|] eqn:Ho; simpl in Hs; [|done].
      apply length_store in Ho as [Hi Hlen].
      destruct (IH _ _ _ Hs) as [Hlen' Hb]. split; [congruence|].
      intros _. destruct k as [|k]; [lia|].
      destruct Hb as [? Hb]; [lia|]. specialize (Hb eq_refl). lia.
    + destruct (IH _ _ _ Hs) as [Hlen' Hb]. split; [done|].
      intros _. split; [|done]. destruct k as [|k]; [lia|].
      destruct Hb as [? _]; lia.
Qed.
End scan_loop_more.

(** X1.  The scan lambda of [doScan] comes to its end on a non-empty
    range exactly when the input can be read up to the end of the range
    and, for a final scan, the output has a cell for each index. *)
Theorem scan_lambda_defined_iff {T InT} (cast : InT → T) (func : T → T → T)
    (inp : list InT) (b e : nat) (sum : T) (is_final_scan : bool) (out : Mem T) :
  b < e →
  is_Some (scan_lambda cast func inp (Range b e) sum is_final_scan out)
  ↔ e ≤ length inp ∧ (is_final_scan = true → e ≤ length (cells out)).
Proof.
  intros Hbe. unfold scan_lambda. simpl. rewrite decide_True by lia. split.
  - intros [r Hr].
    destruct (scan_loop_Some_bounds cast func inp _ _ _ _ _ _ Hr) as [_ Hb].
    destruct Hb as [? Hb]; [lia|]. split; [lia|]. intros Hf. specialize (Hb Hf). lia.
  - intros [Hin Hout].
    destruct (scan_loop_spec cast func inp is_final_scan (e - b) b sum out)
      as (out' & -> & _); [lia| |done].
    intros Hf. specialize (Hout Hf). lia.
Qed.

Lemma scan_lambda_defined_iff_witness :
  is_Some (scan_lambda id Z.add [7; 1; 0]%Z (Range 1 3) 5%Z true (new_vec 3 0%Z))
  ↔ 3 ≤ length [7; 1; 0]%Z ∧ (true = true → 3 ≤ length (cells (new_vec 3 0%Z))).
Proof. apply scan_lambda_defined_iff. lia. Defined.

(** X2.  A pre-scan call of the scan lambda returns the left-to-right
    fold of the range into the incoming sum and leaves the output array
    as it is, cells and writes; it needs no output cell at all. *)
Theorem scan_lambda_pre_scan_pure {T InT} (cast : InT → T) (func : T → T → T)
    (inp : list InT) (b e : nat) (sum : T) (out : Mem T) :
  b ≤ e → e ≤ length inp →
  scan_lambda cast func inp (Range b e) sum false out
  = Some (foldl func sum (cast <$> take (e - b) (drop b inp)), out).
Proof.
  intros Hbe Hin. unfold scan_lambda. simpl. rewrite decide_True by done.
  destruct (scan_loop_spec cast func inp false (e - b) b sum out)
    as (out' & -> & _ & _ & _ & Heq); [lia|done|].
  rewrite (Heq eq_refl). unfold run.
  replace (b + (e - b) - b) with (e - b) by lia.
  by rewrite fmap_take, fmap_drop.
Qed.

Lemma scan_lambda_pre_scan_pure_witness :
  scan_lambda id Z.sub [7; 1; 0; 13]%Z (Range 1 3) 100%Z false (new_vec 0 0%Z)
  = Some (foldl Z.sub 100%Z (id <$> take (3 - 1) (drop 1 [7; 1; 0; 13]%Z)),
          new_vec 0 0%Z).
Proof. apply scan_lambda_pre_scan_pure; simpl; lia. Defined.

(** X3.  Calling the scan lambda on [[b, m)] and then, with the sum it
    returns, on [[m, e)] is the same as one call on [[b, e)]: same sum,
    same cells, same writes in the same order, and undefined together. *)
Theorem scan_lambda_adjacent {T InT} (cast : InT → T) (func : T → T → T)
    (inp : list InT) (b m e : nat) (sum : T) (is_final_scan : bool) (out : Mem T) :
  b ≤ m → m ≤ e →
  scan_lambda cast func inp (Range b m) sum is_final_scan out
    ≫= (λ '(s1, o1), scan_lambda cast func inp (Range m e) s1 is_final_scan o1)
  = scan_lambda cast func inp (Range b e) sum is_final_scan out.
Proof.
  intros Hbm Hme. unfold scan_lambda. simpl. rewrite !decide_True by lia.
  replace (e - b) with ((m - b) + (e - m)) by lia.
  rewrite scan_loop_app. replace (b + (m - b)) with m by lia.
  destruct (scan_loop _ _ _ _ (m - b) _ _ _) as [[s1 o1]|]; simpl; [|done].
  by rewrite decide_True by lia.
Qed.

Lemma scan_lambda_adjacent_witness :
  scan_lambda id Z.sub [7; 1; 0; 13]%Z (Range 0 1) 0%Z true (new_vec 4 0%Z)
    ≫= (λ '(s1, o1), scan_lambda id Z.sub [7; 1; 0; 13]%Z (Range 1 4) s1 true o1)
  = scan_lambda id Z.sub [7; 1; 0; 13]%Z (Range 0 4) 0%Z true (new_vec 4 0%Z).
Proof. apply scan_lambda_adjacent; lia. Defined.

(** X4.  [Body::operator()] on [[b, m)] and then on [[m, e)] is the same
    as one call on [[b, e)], for either tag: same sum, same output
    array, same writes, and undefined together. *)
Theorem Body_call_adjacent {T} (plus : T → T → T) (b m e : nat)
    (is_final_scan : bool) (bd : SeqVsParallel.Body) (y : Mem T) :
  b ≤ m → m ≤ e →
  SeqVsParallel.call plus (Range b m) is_final_scan bd y
    ≫= (λ '(bd1, y1), SeqVsParallel.call plus (Range m e) is_final_scan bd1 y1)
  = SeqVsParallel.call plus (Range b e) is_final_scan bd y.
Proof.
  intros Hbm Hme. unfold SeqVsParallel.call, SeqVsParallel.call_plain. simpl.
  rewrite !loop_tagged_scan_loop.
  replace (e - b) with ((m - b) + (e - m)) by lia.
  rewrite scan_loop_app. replace (b + (m - b)) with m by lia.
  destruct (scan_loop _ _ _ _ (m - b) _ _ _) as [[s1 o1]|]; simpl; [|done].
  by rewrite loop_tagged_scan_loop.
Qed.

Lemma Body_call_adjacent_witness :
  SeqVsParallel.call Z.add (Range 0 2) true (SeqVsParallel.MkBody 0%Z [7; 1; 0]%Z)
                     (new_vec 3 0%Z)
    ≫= (λ '(bd1, y1), SeqVsParallel.call Z.add (Range 2 3) true bd1 y1)
  = SeqVsParallel.call Z.add (Range 0 3) true (SeqVsParallel.MkBody 0%Z [7; 1; 0]%Z)
                       (new_vec 3 0%Z).
Proof. apply Body_call_adjacent; lia. Defined.

(* ===================================================================== *)
(** ** Further properties of [DoParallelScan] and [DoSerialScan] *)
(* ===================================================================== *)

(** X5.  For an addition that is associative and has [0] as identity,
    [DoParallelScan], whatever the splitting, returns the total that
    [DoSerialScan] returns and leaves the same cells in [y]: the two
    outputs that [main] prints side by side are equal. *)
Theorem DoParallelScan_agrees_with_serial {T} (zero : T) (plus : T → T → T)
    (t : sched) (y : Mem T) (xs : list T) (n : nat) :
  (∀ a b c, plus (plus a b) c = plus a (plus b c)) →
  (∀ a, plus zero a = a) → (∀ a, plus a zero = a) →
  scan_sched n t → n ≤ length xs → n ≤ length (cells y) →
  ∃ total y1 y2,
    SeqVsParallel.DoParallelScan zero plus t y xs n = Some (total, y1)
    ∧ SeqVsParallel.DoSerialScan zero plus y xs n = Some (total, y2)
    ∧ cells y1 = cells y2
    ∧ total = foldl plus zero (take n xs).
Proof.
  intros Hassoc Hleft Hright Ht Hin Hout.
  destruct (DoParallelScan_monoid zero plus (λ _, True) t y xs n)
    as (y1 & Hp & Hlen1 & Hc1);
    [by apply monoid_on_all|by apply Forall_true|done..|].
  destruct (DoSerialScan_spec zero plus y xs n) as (y2 & Hs & Hlen2 & Hc2 & _);
    [done..|].
  eexists _, y1, y2. split_and!; [done..| |apply run_0].
  by apply (cells_eq_lookup _ _ (cells y) n (λ j, run plus xs zero 0 (S j))).
Qed.

Lemma DoParallelScan_agrees_with_serial_witness :
  ∃ total y1 y2,
    SeqVsParallel.DoParallelScan [] app (Steal 1 Run (Steal 2 Run Run))
      (new_vec 3 []) [[1]; [2]; [3]] 3 = Some (total, y1)
    ∧ SeqVsParallel.DoSerialScan [] app (new_vec 3 []) [[1]; [2]; [3]] 3
      = Some (total, y2)
    ∧ cells y1 = cells y2
    ∧ total = foldl app [] (take 3 [[1]; [2]; [3]]).
Proof.
  apply DoParallelScan_agrees_with_serial.
  - intros a b c. symmetry. apply app_assoc.
  - intros a. reflexivity.
  - intros a. apply app_nil_r.
  - right. simpl. lia.
  - simpl. lia.
  - simpl. lia.
Defined.



(** X7.  [DoSerialScan] comes to its end exactly when both arrays have
    at least [n] cells; it then has written [y[0]], …, [y[n-1]], each
    once and in this order, and nothing else. *)
Theorem DoSerialScan_defined_iff {T} (zero : T) (plus : T → T → T)
    (y : Mem T) (xs : list T) (n : nat) :
  (is_Some (SeqVsParallel.DoSerialScan zero plus y xs n)
   ↔ n ≤ length xs ∧ n ≤ length (cells y))
  ∧ match SeqVsParallel.DoSerialScan zero plus y xs n with
    | Some (total, y') => (wlog y').*1 = (wlog y).*1 ++ seq 0 n
    | None => True
    end.
Proof.
  split; [|destruct (SeqVsParallel.DoSerialScan zero plus y xs n)
             as [[total y']|] eqn:Hs; [revert total y' Hs|done]].
  - unfold SeqVsParallel.DoSerialScan. rewrite serial_loop_scan_loop. split.
    + intros [r Hr]. destruct n as [|n]; [lia|].
      destruct (scan_loop_Some_bounds id plus xs _ _ _ _ _ _ Hr) as [_ Hb].
      destruct Hb as [? Hb]; [lia|]. specialize (Hb eq_refl). lia.
    + intros [Hin Hout].
      destruct (scan_loop_spec id plus xs true n 0 zero y) as (y' & -> & _);
        done.
  - intros total y' Hs.
    assert (Hb : n ≤ length xs ∧ n ≤ length (cells y)).
    { unfold SeqVsParallel.DoSerialScan in Hs. rewrite serial_loop_scan_loop in Hs.
      destruct n as [|n]; [lia|].
      destruct (scan_loop_Some_bounds id plus xs _ _ _ _ _ _ Hs) as [_ Hb].
      destruct Hb as [? Hb]; [lia|]. specialize (Hb eq_refl). lia. }
    destruct Hb as [Hin Hout].
    destruct (DoSerialScan_spec zero plus y xs n Hin Hout)
      as (y2 & Hs2 & _ & _ & Hlog).
    rewrite Hs in Hs2. injection Hs2 as _ <-.
    rewrite Hlog, fmap_app. f_equal.
    rewrite <- list_fmap_compose. simpl. apply list_fmap_id.
Qed.

(* ===================================================================== *)
(** ** Further properties of [doScan] *)
(* ===================================================================== *)

Lemma foldl_size_add a l :
  foldl size_add (a mod SIZE_MOD)%N l = (foldl N.add a l mod SIZE_MOD)%N.
Proof.
  revert a. induction l as [|v l IH]; intros a; [done|].
  simpl. rewrite <- IH. f_equal. unfold size_add.
  by rewrite N.Div0.add_mod_idemp_l.
Qed.

(** X8.  With the combiner of [vecFilter] ([a + b] on [size_t]) and any
    [size_t] inputs, [doScan] gives in every cell, and as its total, the
    sum of the inputs so far reduced modulo [2^64], whatever the
    splitting: a sum that wraps around does not make the parallel scan
    differ from the sequential one. *)
Theorem doScan_size_t_sum_wraps (t : sched) (out : Mem N) (xs : list N) (n : nat) :
  Forall (λ v, (v < SIZE_MOD)%N) xs →
  scan_sched n t → n ≤ length xs → n ≤ length (cells out) →
  ∃ out',
    doScan id t out xs 0%N size_add n
      = Some ((foldl N.add 0%N (take n xs) mod SIZE_MOD)%N, out')
    ∧ (∀ i, i < n →
         cells out' !! i = Some (foldl N.add 0%N (take (S i) xs) mod SIZE_MOD)%N)
    ∧ ∃ y',
        SeqVsParallel.DoSerialScan 0%N size_add out xs n
          = Some ((foldl N.add 0%N (take n xs) mod SIZE_MOD)%N, y')
        ∧ cells y' = cells out'.
Proof.
  intros Hxs Ht Hin Hout.
  destruct (doScan_monoid id size_add 0%N xs (λ a, (a < SIZE_MOD)%N) t out n)
    as (out' & Hs & Hlen & Hcells);
    [apply size_add_monoid|by rewrite list_fmap_id|done..|].
  destruct (DoSerialScan_spec 0%N size_add out xs n) as (y' & Hy & Hylen & Hycells & _);
    [done..|].
  rewrite list_fmap_id in Hs, Hcells.
  assert (Hrun : ∀ k, run size_add xs 0%N 0 k
                      = (foldl N.add 0%N (take k xs) mod SIZE_MOD)%N).
  { intros k. rewrite run_0. apply (foldl_size_add 0). }
  rewrite Hrun in Hs, Hy.
  exists out'. split_and!; [done| |].
  - intros i Hi. by rewrite Hcells, bool_decide_eq_true_2, Hrun.
  - exists y'. split; [done|].
    by apply (cells_eq_lookup _ _ (cells out) n (λ j, run size_add xs 0%N 0 (S j))).
Qed.

Lemma doScan_size_t_sum_wraps_witness :
  ∃ out',
    doScan id (Steal 1 Run (Steal 2 Run Run)) (new_vec 3 0%N)
           [18446744073709551615; 2; 18446744073709551615]%N 0%N size_add 3
      = Some ((foldl N.add 0%N
                 (take 3 [18446744073709551615; 2; 18446744073709551615]%N)
               mod SIZE_MOD)%N, out')
    ∧ (∀ i, i < 3 →
         cells out' !! i
         = Some (foldl N.add 0%N
                   (take (S i) [18446744073709551615; 2; 18446744073709551615]%N)
                 mod SIZE_MOD)%N)
    ∧ ∃ y',
        SeqVsParallel.DoSerialScan 0%N size_add (new_vec 3 0%N)
          [18446744073709551615; 2; 18446744073709551615]%N 3
          = Some ((foldl N.add 0%N
                     (take 3 [18446744073709551615; 2; 18446744073709551615]%N)
                   mod SIZE_MOD)%N, y')
        ∧ cells y' = cells out'.
Proof.
  apply doScan_size_t_sum_wraps.
  - repeat constructor.
  - right. simpl. lia.
  - simpl. lia.
  - simpl. lia.
Defined.

(** X9.  For an associative combiner with identity, the cells that
    [doScan] leaves obey the recurrence of an inclusive scan, whatever
    the splitting: [out[0] = in[0]] and [out[i+1] = out[i] ⊕ in[i+1]]. *)
Theorem doScan_recurrence {T InT} (cast : InT → T) (func : T → T → T) (ident : T)
    (inp : list InT) (out : Mem T) (n : nat) (t : sched) :
  (∀ a b c, func (func a b) c = func a (func b c)) →
  (∀ a, func ident a = a) → (∀ a, func a ident = a) →
  scan_sched n t → n ≤ length inp → n ≤ length (cells out) →
  ∃ total out',
    doScan cast t out inp ident func n = Some (total, out')
    ∧ (0 < n → cast <$> inp !! 0 = cells out' !! 0)
    ∧ ∀ i, S i < n →
        ∃ c v, cells out' !! i = Some c ∧ inp !! S i = Some v
               ∧ cells out' !! S i = Some (func c (cast v)).
Proof.
  intros Hassoc Hleft Hright Ht Hin Hout.
  destruct (doScan_monoid cast func ident inp (λ _, True) t out n)
    as (out' & Hs & Hlen & Hcells);
    [by apply monoid_on_all|by apply Forall_true|done..|].
  eexists _, out'. split_and!; [done| |].
  - intros Hn. rewrite Hcells, bool_decide_eq_true_2 by done.
    destruct (lookup_lt_is_Some_2 inp 0) as [x0 Hx0]; [lia|].
    rewrite Hx0. simpl.
    rewrite (run_snoc func _ ident 0 0 (cast x0)); [|by rewrite list_lookup_fmap, Hx0|done].
    by rewrite run_nil, Hleft.
  - intros i Hi.
    destruct (lookup_lt_is_Some_2 inp (S i)) as [v Hv]; [lia|].
    exists (run func (cast <$> inp) ident 0 (S i)), v.
    rewrite !Hcells, !bool_decide_eq_true_2 by lia. split_and!; [done..|].
    f_equal. apply run_snoc; [by rewrite list_lookup_fmap, Hv|lia].
Qed.

Lemma doScan_recurrence_witness :
  ∃ total out',
    doScan id (Steal 1 Run (Steal 2 Run Run)) (new_vec 3 []) [[1]; [2]; [3]] [] app 3
      = Some (total, out')
    ∧ (0 < 3 → id <$> [[1]; [2]; [3]] !! 0 = cells out' !! 0)
    ∧ ∀ i, S i < 3 →
        ∃ c v, cells out' !! i = Some c ∧ [[1]; [2]; [3]] !! S i = Some v
               ∧ cells out' !! S i = Some (c ++ id v).
Proof.
  apply (doScan_recurrence id app [] [[1]; [2]; [3]] (new_vec 3 []) 3).
  - intros a b c. symmetry. apply app_assoc.
  - intros a. reflexivity.
  - intros a. apply app_nil_r.
  - right. simpl. lia.
  - simpl. lia.
  - simpl. lia.
Defined.

(** X10.  The [ixMatch] that [vecFilter] computes is a running count:
    [ixMatch[i]] is at most [i + 1], from one cell to the next it grows
    by one where [bolMatch] is true and stays where it is false (no
    wrap-around), and the total returned is the number of true
    entries. *)
Theorem ixMatch_running_count (bolMatch : list bool) (ts : sched)
    (outSize : N) (ixMatch : Mem N) :
  (N.of_nat (length bolMatch) < SIZE_MOD)%N →
  scan_sched (length bolMatch) ts →
  doScan bool_to_size ts (new_vec (length bolMatch) 0%N) bolMatch 0%N size_add
         (length bolMatch) = Some (outSize, ixMatch) →
  outSize = N.of_nat (count_matches id bolMatch)
  ∧ length (cells ixMatch) = length bolMatch
  ∧ (∀ b, bolMatch !! 0 = Some b → cells ixMatch !! 0 = Some (bool_to_size b))
  ∧ (∀ i ix, cells ixMatch !! i = Some ix → (ix ≤ N.of_nat (S i))%N)
  ∧ (∀ i ix b, cells ixMatch !! i = Some ix → bolMatch !! S i = Some b →
       cells ixMatch !! S i = Some (ix + bool_to_size b)%N).
Proof.
  intros Hsize Hts Hscan.
  destruct (vecFilter_scan id bolMatch Hsize ts (new_vec (length bolMatch) 0%N) Hts)
    as (ixMatch' & Hs & Hlen & Hcells); [by simpl; rewrite length_replicate|].
  rewrite list_fmap_id in Hs. rewrite Hs in Hscan. injection Hscan as <- <-.
  split_and!.
  - by rewrite length_filter_count.
  - done.
  - intros b Hb. pose proof (lookup_lt_Some _ _ _ Hb).
    rewrite Hcells by done. rewrite (matches_before_S id bolMatch 0 b Hb).
    unfold matches_before. rewrite take_0. simpl. by destruct b.
  - intros i ix Hix. pose proof (lookup_lt_Some _ _ _ Hix) as Hi. rewrite Hlen in Hi.
    rewrite Hcells in Hix by done. injection Hix as <-.
    pose proof (matches_before_le id bolMatch (S i)). lia.
  - intros i ix b Hix Hb. pose proof (lookup_lt_Some _ _ _ Hb) as Hi.
    rewrite Hcells in Hix by lia. injection Hix as <-.
    rewrite Hcells by done. rewrite (matches_before_S id bolMatch (S i) b Hb).
    f_equal. destruct b; simpl; lia.
Qed.

Lemma ixMatch_running_count_witness :
  2%N = N.of_nat (count_matches id [true; false; true])
  ∧ length (cells (MkMem [1; 1; 2]%N [(0, 1%N); (1, 1%N); (2, 2%N)]))
    = length [true; false; true]
  ∧ (∀ b, [true; false; true] !! 0 = Some b →
       cells (MkMem [1; 1; 2]%N [(0, 1%N); (1, 1%N); (2, 2%N)]) !! 0
       = Some (bool_to_size b))
  ∧ (∀ i ix, cells (MkMem [1; 1; 2]%N [(0, 1%N); (1, 1%N); (2, 2%N)]) !! i = Some ix →
       (ix ≤ N.of_nat (S i))%N)
  ∧ (∀ i ix b,
       cells (MkMem [1; 1; 2]%N [(0, 1%N); (1, 1%N); (2, 2%N)]) !! i = Some ix →
       [true; false; true] !! S i = Some b →
       cells (MkMem [1; 1; 2]%N [(0, 1%N); (1, 1%N); (2, 2%N)]) !! S i
       = Some (ix + bool_to_size b)%N).
Proof.
  apply (ixMatch_running_count [true; false; true] (Steal 1 Run (Steal 2 Run Run))).
  - reflexivity.
  - right. simpl. lia.
  - reflexivity.
Defined.

(* ===================================================================== *)
(** ** When [doMap] and [doFilter] stay inside their arrays *)
(* ===================================================================== *)

Lemma do_writes_is_Some {T} (ws : list (nat * T)) (out : Mem T) :
  is_Some (do_writes ws out) ↔ ∀ w, w ∈ ws → w.1 < length (cells out).
Proof.
  split; [|intros Hb; rewrite do_writes_Some by done; eauto].
  induction ws as [|[d v] ws IH] using rev_ind; intros [o Ho] w Hw.
  - by apply elem_of_nil in Hw.
  - rewrite do_writes_app in Ho.
    destruct (do_writes ws out) as [o1|] eqn:Ho1; simpl in Ho; [|done].
    assert (Hws : ∀ w, w ∈ ws → w.1 < length (cells out)) by (apply IH; eauto).
    rewrite do_writes_Some in Ho1 by done. injection Ho1 as <-.
    apply elem_of_app in Hw as [Hw|Hw]; [by apply Hws|].
    apply list_elem_of_singleton in Hw as ->.
    rewrite do_writes_cons in Ho. simpl in Ho.
    destruct (store d v _) as [o2|] eqn:Ho2; simpl in Ho; [|done].
    apply length_store in Ho2 as [Hd _]. simpl in Hd.
    by rewrite length_apply_writes in Hd.
Qed.

Lemma leaves_last t b e :
  splits t b e → ∃ r, r ∈ leaves t b e ∧ r_end r = e ∧ r_begin r < e.
Proof.
  revert b e. induction t as [|mid l IHl t2 IHr|mid l IHl t2 IHr]; intros b e Hsp;
    simpl in Hsp.
  - exists (Range b e). simpl. split; [by apply list_elem_of_singleton|done].
  - destruct Hsp as (_ & _ & _ & Hr & _). destruct (IHr _ _ Hr) as (r & ? & ? & ?).
    exists r. simpl. split; [apply elem_of_app; by right|done].
  - destruct Hsp as (_ & _ & _ & Hr). destruct (IHr _ _ Hr) as (r & ? & ? & ?).
    exists r. simpl. split; [apply elem_of_app; by right|done].
Qed.

(** In a run that comes to its end every call of the body did, on a
    state that the calls before it left. *)
Lemma foldl_chunks_Some {S} (body : blocked_range → S → option S) (Inv : S → Prop)
    order s s' :
  Inv s → (∀ r a b, body r a = Some b → Inv a → Inv b) →
  foldl (λ acc c, a ← acc; body c a) (Some s) order = Some s' →
  ∀ r, r ∈ order → ∃ a b, Inv a ∧ body r a = Some b.
Proof.
  intros Hs Hinv. revert s Hs. induction order as [|c order IH]; intros s Hs Hf r Hr.
  - by apply elem_of_nil in Hr.
  - simpl in Hf. destruct (body c s) as [s1|] eqn:Hc.
    + apply elem_of_cons in Hr as [->|Hr]; [by eauto|].
      by apply (IH s1); eauto.
    + by rewrite foldl_option_None in Hf.
Qed.

Lemma map_loop_Some_bounds {OutT InT} (func : InT → OutT) inp k i
    (out out' : Mem OutT) :
  map_loop func inp k i out = Some out' →
  length (cells out') = length (cells out)
  ∧ (0 < k → i + k ≤ length inp ∧ i + k ≤ length (cells out)).
Proof.
  revert i out. induction k as [|k IH]; intros i out Hm.
  - simpl in Hm. injection Hm as <-. split; [done|lia].
  - simpl in Hm. destruct (inp !! i) as [v|] eqn:Hv; simpl in Hm; [|done].
    apply lookup_lt_Some in Hv.
    destruct (store i (func v) out) as [o|] eqn:Ho; simpl in Hm; [|done].
    apply length_store in Ho as [Hi Hlen].
    destruct (IH _ _ Hm) as [Hlen' Hb]. split; [congruence|].
    intros _. destruct k as [|k]; [lia|]. destruct Hb; lia.
Qed.

(** X11.  Whatever the partition and the order of its parts, [doMap]
    comes to its end exactly when the input and the output array both
    have at least [n] cells; with a shorter array some access falls
    outside it. *)
Theorem doMap_defined_iff {OutT InT} (func : InT → OutT) (inp : list InT)
    (out : Mem OutT) (n : nat) (order : list blocked_range) :
  chunk_order n order →
  is_Some (doMap order out inp func n)
  ↔ n ≤ length inp ∧ n ≤ length (cells out).
Proof.
  intros Hord. split.
  - intros [out' Hm]. destruct (decide (n = 0)) as [->|Hn]; [lia|].
    destruct Hord as [[? _]|(t & Hsp & Hperm)]; [done|].
    destruct (leaves_last t 0 n Hsp) as (r & Hr & Hend & Hbeg).
    rewrite <- Hperm in Hr.
    unfold doMap, parallel_for, range_empty in Hm. simpl in Hm.
    rewrite (proj2 (Nat.ltb_lt 0 n)) in Hm by lia. simpl in Hm.
    destruct (foldl_chunks_Some (map_lambda func inp)
                (λ a, length (cells a) = length (cells out)) order out out')
      with (r := r) as (a & b & Ha & Hc); [done| |done|done|].
    { intros r' a b Hc Ha. unfold map_lambda in Hc. case_decide; [|done].
      apply map_loop_Some_bounds in Hc as [? _]. congruence. }
    unfold map_lambda in Hc. case_decide; [|done].
    apply map_loop_Some_bounds in Hc as [_ Hb]. destruct Hb; lia.
  - intros [Hin Hout].
    destruct (doMap_spec func inp n order out) as (out' & -> & _); done.
Qed.

Lemma doMap_defined_iff_witness :
  is_Some (doMap [Range 2 3; Range 0 2] (new_vec 2 false) [7; 13; 20]%Z main_predicate 3)
  ↔ 3 ≤ length [7; 13; 20]%Z ∧ 3 ≤ length (cells (new_vec 2 false)).
Proof.
  apply doMap_defined_iff.
  right. exists (Steal 2 Run Run). split; [simpl; lia|]. simpl. apply perm_swap.
Defined.

Lemma doFilter_Some_in_bounds {T} (inp : list T) (bolMatch : list bool)
    (ixMatch : list N) (out : Mem T) (n : nat) (order : list blocked_range) :
  chunk_order n order → filter_readable inp bolMatch ixMatch n →
  is_Some (doFilter order out inp bolMatch ixMatch n) →
  ∀ i ix, i < n → bolMatch !! i = Some true → ixMatch !! i = Some ix →
          (size_pred ix < N.of_nat (length (cells out)))%N.
Proof.
  intros Hord Hrd Hsome i ix Hi Hb Hx.
  assert (Hn : 0 < n) by lia.
  unfold doFilter in Hsome.
  rewrite (parallel_for_writes (filter_write inp bolMatch ixMatch)) in Hsome.
  - destruct Hrd as [Hbol Hrd']. destruct (Hrd' i Hi Hb) as [_ Hv].
    destruct (lookup_lt_is_Some_2 inp i Hv) as [v Hv'].
    pose proof (proj1 (do_writes_is_Some _ _) Hsome
                  (N.to_nat (size_pred ix), v)) as Hw.
    simpl in Hw. cut (N.to_nat (size_pred ix) < length (cells out)); [lia|].
    apply Hw. rewrite (chunk_order_indices n order Hord).
    apply elem_of_filter_writes. by exists i, ix.
  - done.
  - intros r o Hr. destruct (chunk_order_bounds n order r Hord Hr).
    unfold filter_lambda, indices. apply (filter_loop_writes _ _ _ n); [done|lia].
Qed.

(** X12.  On arrays that can be read over [[0, n)], whatever the
    partition and the order of its parts, [doFilter] comes to its end
    exactly when the destination [ixMatch[i] - 1] of every index with
    [bolMatch[i]] true is an index of [out]. *)
Theorem doFilter_defined_iff {T} (inp : list T) (bolMatch : list bool)
    (ixMatch : list N) (out : Mem T) (n : nat) (order : list blocked_range) :
  chunk_order n order → filter_readable inp bolMatch ixMatch n →
  is_Some (doFilter order out inp bolMatch ixMatch n)
  ↔ ∀ i ix, i < n → bolMatch !! i = Some true → ixMatch !! i = Some ix →
            (size_pred ix < N.of_nat (length (cells out)))%N.
Proof.
  intros Hord Hrd. split.
  - by apply doFilter_Some_in_bounds.
  - intros Hdst.
    destruct (doFilter_spec inp bolMatch ixMatch n order out Hord Hrd Hdst)
      as (ws & -> & _). eauto.
Qed.

Lemma doFilter_defined_iff_witness :
  is_Some (doFilter [Range 1 3; Range 0 1] (new_vec 1 0%Z) [13; 1; 20]%Z
                    [true; false; true] [1; 1; 2]%N 3)
  ↔ ∀ i ix, i < 3 → [true; false; true] !! i = Some true →
            [1; 1; 2]%N !! i = Some ix →
            (size_pred ix < N.of_nat (length (cells (new_vec 1 0%Z))))%N.
Proof.
  apply doFilter_defined_iff.
  - right. exists (Steal 1 Run Run). split; [simpl; lia|]. simpl. apply perm_swap.
  - split; [simpl; lia|]. intros i Hi _. simpl. lia.
Defined.

(** X13.  The [- 1] wraps on a count of 0: if some index with
    [bolMatch[i]] true has [ixMatch[i] = 0], the scatter pass writes at
    index [2^64 - 1], outside any array, whatever the partition. *)
Theorem doFilter_zero_count_out_of_bounds {T} (inp : list T) (bolMatch : list bool)
    (ixMatch : list N) (out : Mem T) (n i : nat) (order : list blocked_range) :
  chunk_order n order → filter_readable inp bolMatch ixMatch n →
  (N.of_nat (length (cells out)) < SIZE_MOD)%N →
  i < n → bolMatch !! i = Some true → ixMatch !! i = Some 0%N →
  doFilter order out inp bolMatch ixMatch n = None.
Proof.
  intros Hord Hrd Hlen Hi Hb Hx.
  destruct (doFilter order out inp bolMatch ixMatch n) as [o|] eqn:Hf; [|done].
  exfalso.
  pose proof (doFilter_Some_in_bounds inp bolMatch ixMatch out n order Hord Hrd
                (ex_intro _ o Hf) i 0%N Hi Hb Hx) as Hlt.
  assert (size_pred 0 = SIZE_MOD - 1)%N as Hp by done.
  rewrite Hp in Hlt. lia.
Qed.

Lemma doFilter_zero_count_out_of_bounds_witness :
  doFilter [Range 1 2; Range 0 1] (new_vec 2 0%Z) [13; 20]%Z
           [true; true] [0; 1]%N 2 = None.
Proof.
  apply (doFilter_zero_count_out_of_bounds [13; 20]%Z [true; true] [0; 1]%N
           (new_vec 2 0%Z) 2 0).
  - right. exists (Steal 1 Run Run). split; [simpl; lia|]. simpl. apply perm_swap.
  - split; [simpl; lia|]. intros i Hi _. simpl. lia.
  - reflexivity.
  - lia.
  - reflexivity.
  - reflexivity.
Defined.

(* ===================================================================== *)
(** ** Further properties of [vecFilter] and [doMap] *)
(* ===================================================================== *)

Lemma filter_all_true {T} (p : T → bool) l :
  (∀ v, v ∈ l → p v = true) → List.filter p l = l.
Proof.
  induction l as [|v l IH]; intros Hp; [done|]. simpl.
  rewrite (Hp v) by by left. f_equal. apply IH. intros w Hw. apply Hp. by right.
Qed.

Lemma filter_all_false {T} (p : T → bool) l :
  (∀ v, v ∈ l → p v = false) → List.filter p l = [].
Proof.
  induction l as [|v l IH]; intros Hp; [done|]. simpl.
  rewrite (Hp v) by by left. apply IH. intros w Hw. apply Hp. by right.
Qed.

Lemma filter_filter_and {T} (p q : T → bool) l :
  List.filter q (List.filter p l) = List.filter (λ v, p v && q v) l.
Proof.
  induction l as [|v l IH]; [done|]. simpl.
  destruct (p v); simpl; [|done]. destruct (q v); by rewrite IH.
Qed.



(** X15.  With the calls of the map steps made one after the other:
    filtering the result of [vecFilter] again, with a second predicate
    and any partitions, gives what one [vecFilter] with the conjunction
    of the two predicates gives; with the same predicate it gives the
    first result back. *)
Theorem vecFilter_twice {T} (dflt : T) (p q : T → bool) (inputVec : list T)
    (order : list blocked_range) (ts : sched) (os : list blocked_range) :
  (N.of_nat (length inputVec) < SIZE_MOD)%N →
  chunk_order (length inputVec) order → scan_sched (length inputVec) ts →
  chunk_order (length inputVec) os →
  ∃ r1,
    vecFilter dflt (serial_run order) ts os inputVec p = Some r1
    ∧ vecFilter dflt (serial_run order) ts os inputVec (λ v, p v && q v)
      = Some (List.filter q r1)
    ∧ ∀ order2 ts2 os2,
        chunk_order (length r1) order2 → scan_sched (length r1) ts2 →
        chunk_order (length r1) os2 →
        vecFilter dflt (serial_run order2) ts2 os2 r1 q = Some (List.filter q r1)
        ∧ vecFilter dflt (serial_run order2) ts2 os2 r1 p = Some r1.
Proof.
  intros Hsize Hom Hts Hos.
  exists (List.filter p inputVec).
  assert (Hsize1 : (N.of_nat (length (List.filter p inputVec)) < SIZE_MOD)%N).
  { pose proof (List.filter_length_le p inputVec). lia. }
  rewrite !(vecFilter_spec _ inputVec Hsize dflt order ts os) by done.
  split_and!; [done|by rewrite filter_filter_and|].
  intros order2 ts2 os2 Hom2 Hts2 Hos2.
  rewrite !(vecFilter_spec _ _ Hsize1 dflt order2 ts2 os2) by done.
  split; [done|]. f_equal. apply filter_all_true.
  intros v Hv. apply list_elem_of_In, List.filter_In in Hv. tauto.
Qed.

Lemma vecFilter_twice_witness :
  ∃ r1,
    vecFilter 0%Z (serial_run [Range 1 3; Range 0 1]) (Steal 1 Run (Cont 2 Run Run))
              [Range 0 3] [13; 1; 20]%Z main_predicate = Some r1
    ∧ vecFilter 0%Z (serial_run [Range 1 3; Range 0 1]) (Steal 1 Run (Cont 2 Run Run))
                [Range 0 3] [13; 1; 20]%Z (λ v, main_predicate v && Z.even v)
      = Some (List.filter Z.even r1)
    ∧ ∀ order2 ts2 os2,
        chunk_order (length r1) order2 → scan_sched (length r1) ts2 →
        chunk_order (length r1) os2 →
        vecFilter 0%Z (serial_run order2) ts2 os2 r1 Z.even
        = Some (List.filter Z.even r1)
        ∧ vecFilter 0%Z (serial_run order2) ts2 os2 r1 main_predicate = Some r1.
Proof.
  apply vecFilter_twice.
  - reflexivity.
  - right. exists (Steal 1 Run Run). split; [simpl; lia|]. simpl. apply perm_swap.
  - right. simpl. repeat split; lia.
  - right. exists Run. split; [simpl; lia|]. simpl. reflexivity.
Defined.

(** X16.  Two [doMap] steps in a row, the second reading what the first
    wrote, leave in the first [n] cells what one [doMap] with the
    composed function leaves, whatever the three partitions. *)
Theorem doMap_twice {A B C} (f : A → B) (g : B → C) (inp : list A)
    (out1 : Mem B) (out2 : Mem C) (n : nat) (o1 o2 o3 : list blocked_range) :
  chunk_order n o1 → chunk_order n o2 → chunk_order n o3 →
  n ≤ length inp → n ≤ length (cells out1) → n ≤ length (cells out2) →
  ∃ m1 m2 m3,
    doMap o1 out1 inp f n = Some m1
    ∧ doMap o2 out2 (cells m1) g n = Some m2
    ∧ doMap o3 out2 inp (g ∘ f) n = Some m3
    ∧ cells m2 = cells m3.
Proof.
  intros Ho1 Ho2 Ho3 Hin Hout1 Hout2.
  destruct (doMap_spec f inp n o1 out1) as (m1 & H1 & Hc1 & _); [done..|].
  assert (Hlen1 : length (cells m1) = length (cells out1)).
  { rewrite Hc1, length_app, length_fmap, length_take, length_drop. lia. }
  destruct (doMap_spec g (cells m1) n o2 out2) as (m2 & H2 & Hc2 & _); [done|lia|done|].
  destruct (doMap_spec (g ∘ f) inp n o3 out2) as (m3 & H3 & Hc3 & _); [done..|].
  exists m1, m2, m3. split_and!; [done..|].
  rewrite Hc2, Hc3. f_equal. rewrite Hc1.
  rewrite take_app_length' by (rewrite length_fmap, length_take; lia).
  by rewrite <- list_fmap_compose.
Qed.

Lemma doMap_twice_witness :
  ∃ m1 m2 m3,
    doMap [Range 2 3; Range 0 2] (new_vec 3 false) [7; 13; 20]%Z main_predicate 3
      = Some m1
    ∧ doMap [Range 0 3] (new_vec 3 0%N) (cells m1) bool_to_size 3 = Some m2
    ∧ doMap [Range 1 3; Range 0 1] (new_vec 3 0%N) [7; 13; 20]%Z
            (bool_to_size ∘ main_predicate) 3 = Some m3
    ∧ cells m2 = cells m3.
Proof.
  apply doMap_twice.
  - right. exists (Steal 2 Run Run). split; [simpl; lia|]. simpl. apply perm_swap.
  - right. exists Run. split; [simpl; lia|]. simpl. reflexivity.
  - right. exists (Steal 1 Run Run). split; [simpl; lia|]. simpl. apply perm_swap.
  - simpl. lia.
  - simpl. lia.
  - simpl. lia.
Defined.

(* ===================================================================== *)
(** ** Which cells [parallel_scan] writes, and how often *)
(* ===================================================================== *)

(** X17.  Whatever the combiner and the splitting, [doScan] and
    [DoParallelScan] write each of the cells [0 … n-1] of the output
    exactly once and write no other cell: a pre-scan writes nothing, and
    no subrange gets its final scan twice. *)
Theorem scan_writes_each_cell_once {T InT} (cast : InT → T) (func : T → T → T)
    (ident : T) (inp : list InT) (out : Mem T) (n : nat) (t : sched) :
  scan_sched n t → n ≤ length inp → n ≤ length (cells out) →
  (∃ total out' ws,
     doScan cast t out inp ident func n = Some (total, out')
     ∧ (wlog out').*1 = (wlog out).*1 ++ ws ∧ ws ≡ₚ seq 0 n)
  ∧ (∃ total y' ws,
     SeqVsParallel.DoParallelScan ident func t out (cast <$> inp) n = Some (total, y')
     ∧ (wlog y').*1 = (wlog out).*1 ++ ws ∧ ws ≡ₚ seq 0 n).
Proof.
  intros [->|Hsp] Hin Hout.
  { split; exists ident, out, []; by rewrite app_nil_r. }
  split.
  - destruct (parallel_scan_log _ func ident (cast <$> inp)
                (doScan_body_laws cast func ident inp)
                (doScan_body_logs cast func ident inp)
                t 0 n (doScan_body cast func ident inp ident) ident out)
      as (body' & out' & Hp & _ & ws & Hlog & Hperm);
      [done|done|by rewrite length_fmap|done|].
    exists (m_sum_slot body'), out', ws.
    rewrite doScan_unfold, Hp, Hlog. rewrite Nat.sub_0_r in Hperm. done.
  - destruct (parallel_scan_log _ func ident (cast <$> inp)
                (Body_laws ident func (cast <$> inp))
                (Body_logs ident func (cast <$> inp))
                t 0 n (SeqVsParallel.Body_new ident (cast <$> inp)) ident out)
      as (body' & y' & Hp & _ & ws & Hlog & Hperm);
      [done|done|by rewrite length_fmap|done|].
    exists (SeqVsParallel.get_sum body'), y', ws.
    unfold SeqVsParallel.DoParallelScan. rewrite Hp, Hlog.
    rewrite Nat.sub_0_r in Hperm. done.
Qed.

Lemma scan_writes_each_cell_once_witness :
  (∃ total out' ws,
     doScan id (Steal 2 (Cont 1 Run Run) (Steal 3 Run Run)) (new_vec 4 0%Z)
            [7; 1; 0; 13]%Z 0%Z Z.sub 4 = Some (total, out')
     ∧ (wlog out').*1 = (wlog (new_vec 4 0%Z)).*1 ++ ws ∧ ws ≡ₚ seq 0 4)
  ∧ (∃ total y' ws,
     SeqVsParallel.DoParallelScan 0%Z Z.sub (Steal 2 (Cont 1 Run Run) (Steal 3 Run Run))
       (new_vec 4 0%Z) (id <$> [7; 1; 0; 13]%Z) 4 = Some (total, y')
     ∧ (wlog y').*1 = (wlog (new_vec 4 0%Z)).*1 ++ ws ∧ ws ≡ₚ seq 0 4).
Proof.
  apply scan_writes_each_cell_once.
  - right. simpl. repeat split; lia.
  - simpl. lia.
  - simpl. lia.
Defined.

(* ===================================================================== *)
(** ** What [printVec] and [vecFilter] print *)
(* ===================================================================== *)

Lemma chars_app s1 s2 :
  String.list_ascii_of_string (s1 +:+ s2)
  = String.list_ascii_of_string s1 ++ String.list_ascii_of_string s2.
Proof. induction s1 as [|c s1 IH]; [done|]. simpl. by rewrite IH. Qed.

Lemma chars_length s : length (String.list_ascii_of_string s) = String.length s.
Proof. induction s as [|c s IH]; [done|]. simpl. by rewrite IH. Qed.

Lemma chars_get s k : String.get k s = String.list_ascii_of_string s !! k.
Proof.
  revert k. induction s as [|c s IH]; intros k; [done|].
  destruct k as [|k]; [done|]. simpl. apply IH.
Qed.

Lemma chars_spaces k : String.list_ascii_of_string (spaces k) = replicate k " "%char.
Proof. induction k as [|k IH]; [done|]. simpl. by rewrite IH. Qed.

Lemma chars_inj s1 s2 :
  String.list_ascii_of_string s1 = String.list_ascii_of_string s2 → s1 = s2.
Proof.
  intros H. rewrite <- (String.string_of_list_ascii_of_string s1),
    <- (String.string_of_list_ascii_of_string s2). by rewrite H.
Qed.

Section printVec_facts.
Context {T : Type} (show : T → string).

Local Abbreviation cell_chars := (cell_chars show).

Lemma chars_cells (vec : list T) os :
  String.list_ascii_of_string
    (foldl (λ os e, put ","%string (put_setw 4 (show e) os)) os vec)
  = String.list_ascii_of_string os ++ (vec ≫= cell_chars).
Proof.
  revert os. induction vec as [|e vec IH]; intros os; simpl.
  - by rewrite app_nil_r.
  - rewrite IH. unfold put_setw, put. rewrite !chars_app, chars_spaces.
    unfold cell_chars. simpl. by rewrite <- !app_assoc.
Qed.

Lemma chars_printVec (vec : list T) name cout :
  String.list_ascii_of_string (printVec show vec name cout)
  = String.list_ascii_of_string cout
    ++ (replicate (16 - String.length
                          (name +:+ " ["%string +:+ pretty (length vec) +:+ "]:"%string))
                  " "%char
        ++ String.list_ascii_of_string
             (name +:+ " ["%string +:+ pretty (length vec) +:+ "]:"%string)
        ++ (vec ≫= cell_chars) ++ ["010"%char]).
Proof.
  unfold printVec, put_setw, put.
  rewrite chars_app, chars_cells, !chars_app, chars_spaces. simpl.
  by rewrite <- !app_assoc.
Qed.

Lemma length_cell_chars e :
  String.length (show e) ≤ 4 → length (cell_chars e) = 5.
Proof.
  intros. unfold cell_chars.
  rewrite !length_app, length_replicate, chars_length. simpl. lia.
Qed.

Lemma cells_comma (vec : list T) k :
  Forall (λ e, String.length (show e) ≤ 4) vec → k < length vec →
  (vec ≫= cell_chars) !! (5 * k + 4) = Some ","%char.
Proof.
  intros Hvec. revert k. induction Hvec as [|e vec He Hvec IH]; intros k Hk;
    [simpl in Hk; lia|].
  rewrite bind_cons. destruct k as [|k].
  - rewrite lookup_app_l by (rewrite length_cell_chars by done; lia).
    unfold cell_chars. rewrite app_assoc. apply list_lookup_middle.
    rewrite length_app, length_replicate, chars_length. lia.
  - rewrite lookup_app_r by (rewrite length_cell_chars by done; lia).
    rewrite length_cell_chars by done.
    replace (5 * S k + 4 - 5) with (5 * k + 4) by lia.
    apply IH. simpl in Hk. lia.
Qed.

Lemma length_cells (vec : list T) :
  Forall (λ e, String.length (show e) ≤ 4) vec →
  length (vec ≫= cell_chars) = 5 * length vec.
Proof.
  induction 1 as [|e vec He Hvec IH]; [done|].
  rewrite bind_cons, length_app, length_cell_chars, IH by done. simpl. lia.
Qed.
End printVec_facts.

(** X18.  [printVec] appends one line to [cout].  When the prefix
    (name, size in brackets, colon) has at most 16 characters and every
    element prints in at most 4, the line has [16 + 5 n] characters and
    the newline, with the comma of element [k] in column [16 + 5 k + 4]:
    lines printed for such vectors are aligned column by column. *)
Theorem printVec_aligned {T} (show : T → string) (vec : list T)
    (name cout : string) :
  String.length (name +:+ " ["%string +:+ pretty (length vec) +:+ "]:"%string) ≤ 16 →
  Forall (λ e, String.length (show e) ≤ 4) vec →
  ∃ line,
    printVec show vec name cout = cout +:+ line
    ∧ String.length line = 16 + 5 * length vec + 1
    ∧ (∀ k, k < length vec → String.get (16 + 5 * k + 4) line = Some ","%char)
    ∧ String.get (16 + 5 * length vec) line = Some "010"%char.
Proof.
  intros Hname Hvec.
  set (prefix := name +:+ " ["%string +:+ pretty (length vec) +:+ "]:"%string) in *.
  set (head := replicate (16 - String.length prefix) " "%char
               ++ String.list_ascii_of_string prefix).
  assert (Hhead : length head = 16).
  { unfold head. rewrite length_app, length_replicate, chars_length. lia. }
  exists (String.string_of_list_ascii (head ++ (vec ≫= cell_chars show) ++ ["010"%char])).
  split_and!.
  - apply chars_inj.
    rewrite (chars_app cout), String.list_ascii_of_string_of_list_ascii.
    rewrite chars_printVec. fold prefix. unfold head. by rewrite <- !app_assoc.
  - rewrite <- chars_length, String.list_ascii_of_string_of_list_ascii.
    rewrite !length_app, Hhead, length_cells by done. simpl. lia.
  - intros k Hk. rewrite chars_get, String.list_ascii_of_string_of_list_ascii.
    rewrite lookup_app_r by lia. rewrite Hhead.
    replace (16 + 5 * k + 4 - 16) with (5 * k + 4) by lia.
    rewrite lookup_app_l by (rewrite length_cells by done; lia).
    by apply cells_comma.
  - rewrite chars_get, String.list_ascii_of_string_of_list_ascii.
    rewrite lookup_app_r by lia. rewrite Hhead.
    rewrite lookup_app_r by (rewrite length_cells by done; lia).
    rewrite length_cells by done.
    by replace (16 + 5 * length vec - 16 - 5 * length vec) with 0 by lia.
Qed.

Lemma printVec_aligned_witness :
  ∃ line,
    printVec pretty [13; -1; 20]%Z "filteredVec"%string ""%string = (""%string +:+ line)
    ∧ String.length line = 16 + 5 * length [13; -1; 20]%Z + 1
    ∧ (∀ k, k < length [13; -1; 20]%Z →
         String.get (16 + 5 * k + 4) line = Some ","%char)
    ∧ String.get (16 + 5 * length [13; -1; 20]%Z) line = Some "010"%char.
Proof.
  apply printVec_aligned.
  - vm_compute. lia.
  - repeat constructor.
Defined.



(* ===================================================================== *)
(** ** When [parallel_scan] stays inside the arrays *)
(* ===================================================================== *)

Section scan_bounds.
Context {B T : Type} `{!ScanBody B (Mem T)}.
Context (R : B → T → Prop) (f : T → T → T) (e0 : T) (xs : list T).
Context (HL : scan_body_laws R f e0 xs) (HB : call_in_bounds R xs).

Lemma call_Some is_final b e bd s m bd' m' :
  R bd s → b < e → body_call (Range b e) is_final bd m = Some (bd', m') →
  e ≤ length xs ∧ (is_final = true → e ≤ length (cells m))
  ∧ (∃ s', R bd' s') ∧ length (cells m') = length (cells m).
Proof.
  intros HR Hbe Hc.
  destruct (HB b e is_final bd s m bd' m' HR Hbe Hc) as [Hx Hm].
  destruct (law_call _ _ _ _ HL b e is_final bd s m)
    as (bd2 & m2 & Hc2 & HR2 & Hlen & _); [done|lia|done|done|].
  rewrite Hc in Hc2. injection Hc2 as <- <-. by eauto.
Qed.

Lemma pass1_Some is_final t b e bd s m bd' st m' :
  R bd s → splits t b e → pass1 is_final t b e bd m = Some (bd', st, m') →
  e ≤ length xs ∧ (∃ s', R bd' s')
  ∧ length (cells m') = length (cells m) ∧ sum_shape R st b e
  ∧ (is_final = true → st = SLeaf → e ≤ length (cells m)).
Proof.
  revert is_final b e bd s m bd' st m'.
  induction t as [|mid l IHl r IHr|mid l IHl r IHr];
    intros is_final b e bd s m bd' st m' HR Hsp Hp; simpl in Hsp, Hp.
  - destruct (body_call _ _ _ _) as [[bd1 m1]|] eqn:Hc; simpl in Hp; [|done].
    injection Hp as <- <- <-.
    destruct (call_Some _ _ _ _ _ _ _ _ HR Hsp Hc) as (? & Hm & ? & ?).
    split_and!; try done. intros Hf _. by apply Hm.
  - destruct Hsp as (Hb & He & Hl & Hr & _ & ->).
    destruct (pass1 is_final l _ _ _ _) as [[[bd1 st1] m1]|] eqn:H1; simpl in Hp; [|done].
    destruct (IHl _ _ _ _ _ _ _ _ _ HR Hl H1) as (_ & [s1 HR1] & Hlen1 & _ & _).
    destruct (body_call _ _ bd1 m1) as [[bd2 m2]|] eqn:Hc2; simpl in Hp; [|done].
    injection Hp as <- <- <-.
    assert (H2 : pass1 is_final Run mid e bd1 m1 = Some (bd2, SLeaf, m2))
      by (simpl; by rewrite Hc2).
    destruct (IHr _ _ _ _ _ _ _ _ _ HR1 Hr H2) as (? & ? & Hlen2 & _ & Hlast).
    split_and!; try done; [congruence|simpl; lia|].
    intros Hf _. rewrite <- Hlen1. by apply Hlast.
  - destruct Hsp as (Hb & He & Hl & Hr).
    destruct (pass1 is_final l _ _ _ _) as [[[bd1 st1] m1]|] eqn:H1; simpl in Hp; [|done].
    destruct (IHl _ _ _ _ _ _ _ _ _ HR Hl H1) as (_ & [s1 HR1] & Hlen1 & Hsh1 & _).
    destruct (pass1 false r _ _ _ _) as [[[bd2 st2] m2]|] eqn:H2; simpl in Hp; [|done].
    injection Hp as <- <- <-.
    destruct (IHr _ _ _ _ _ _ _ _ _ (R_split R f e0 xs HL bd s HR) Hr H2)
      as (? & [s2 HR2] & Hlen2 & Hsh2 & _).
    split_and!; try done.
    + eexists. by eapply (R_join R f e0 xs HL).
    + congruence.
    + simpl. split_and!; eauto.
Qed.

Lemma pass2_Some has_incoming st b e bd s m last m' :
  R bd s → sum_shape R st b e →
  pass2 has_incoming st b e bd m = Some (last, m') →
  length (cells m') = length (cells m)
  ∧ (has_incoming = true ∨ st ≠ SLeaf → e ≤ length (cells m)).
Proof.
  revert has_incoming b e bd s m last m'.
  induction st as [|ls mid l IHl r IHr];
    intros has_incoming b e bd s m last m' HR Hsh Hp; simpl in Hsh, Hp.
  - destruct has_incoming.
    + destruct (call_Some _ _ _ _ _ _ _ _ HR Hsh Hp) as (_ & Hm & _ & ?).
      split; [done|]. intros _. by apply Hm.
    + injection Hp as <- <-. split; [done|]. by intros [|].
  - destruct Hsh as (Hb & He & [v Hv] & Hl & Hr).
    destruct (pass2 has_incoming l _ _ _ _) as [[bd1 m1]|] eqn:H1; simpl in Hp; [|done].
    destruct (IHl _ _ _ _ _ _ _ _ HR Hl H1) as [Hlen1 _].
    assert (∃ w, R (if has_incoming then body_reverse_join bd ls else ls) w)
      as [w Hw].
    { destruct has_incoming; [|by eauto].
      eexists. by eapply (R_join R f e0 xs HL). }
    destruct (IHr _ _ _ _ _ _ _ _ Hw Hr Hp) as [Hlen2 Hm].
    split; [congruence|]. intros _. rewrite <- Hlen1. apply Hm. by left.
Qed.

Lemma parallel_scan_Some t b e body s m body' m' :
  R body s → splits t b e →
  parallel_scan (Range b e) t body m = Some (body', m') →
  e ≤ length xs ∧ e ≤ length (cells m).
Proof.
  intros HR Hsp Hp.
  assert (Hbe : b < e) by (destruct t; simpl in Hsp; lia).
  unfold parallel_scan, range_empty in Hp. simpl in Hp.
  rewrite (proj2 (Nat.ltb_lt b e) Hbe) in Hp. simpl in Hp.
  destruct (pass1 true t _ _ _ _) as [[[bd1 st] m1]|] eqn:H1; simpl in Hp; [|done].
  assert (HR0 : R (body_reverse_join body (body_split body)) (f s e0)).
  { eapply (R_join R f e0 xs HL); [done|]. by eapply (R_split R f e0 xs HL). }
  destruct (pass1_Some _ _ _ _ _ _ _ _ _ _ HR0 Hsp H1)
    as (Hx & [s1 HR1] & Hlen1 & Hsh & Hlast).
  split; [done|]. destruct st as [|ls mid sl sr]; [by apply Hlast|].
  destruct (pass2 false _ _ _ _ _) as [[last m2]|] eqn:H2; simpl in Hp; [|done].
  destruct (pass2_Some _ _ _ _ _ _ _ _ _ HR1 Hsh H2) as [_ Hm].
  rewrite <- Hlen1. apply Hm. by right.
Qed.
End scan_bounds.

Lemma doScan_body_in_bounds {T InT} (cast : InT → T) func ident (inp : list InT) :
  call_in_bounds (λ bd s, bd = doScan_body cast func ident inp s) (cast <$> inp).
Proof.
  intros b e is_final bd s m bd' m' -> Hbe Hc. simpl in Hc. unfold scan_lambda in Hc.
  simpl in Hc. case_decide; [|done].
  destruct (scan_loop _ _ _ _ _ _ _ _) as [r|] eqn:Hl; simpl in Hc; [|done].
  destruct (scan_loop_Some_bounds _ _ _ _ _ _ _ _ _ Hl) as [_ Hb].
  destruct Hb as [? Hb]; [lia|]. rewrite length_fmap. split; [lia|].
  intros Hf. specialize (Hb Hf). lia.
Qed.

Lemma Body_in_bounds {T} (zero : T) (plus : T → T → T) (xs : list T) :
  call_in_bounds (ScanBody0 := SeqVsParallel.Body_ScanBody zero plus)
    (λ bd s, bd = SeqVsParallel.MkBody s xs) xs.
Proof.
  intros b e is_final bd s m bd' m' -> Hbe Hc. simpl in Hc.
  unfold SeqVsParallel.call, SeqVsParallel.call_plain in Hc. simpl in Hc.
  rewrite loop_tagged_scan_loop in Hc.
  destruct (scan_loop _ _ _ _ _ _ _ _) as [r|] eqn:Hl; simpl in Hc; [|done].
  destruct (scan_loop_Some_bounds _ _ _ _ _ _ _ _ _ Hl) as [_ Hb].
  destruct Hb as [? Hb]; [lia|]. split; [lia|].
  intros Hf. specialize (Hb Hf). lia.
Qed.

(** X20.  Whatever the combiner and the splitting, [doScan] and
    [DoParallelScan] come to their end exactly when the input and the
    output array both have at least [n] cells. *)
Theorem scan_defined_iff {T InT} (cast : InT → T) (func : T → T → T)
    (ident : T) (inp : list InT) (out : Mem T) (n : nat) (t : sched) :
  scan_sched n t →
  (is_Some (doScan cast t out inp ident func n)
   ↔ n ≤ length inp ∧ n ≤ length (cells out))
  ∧ (is_Some (SeqVsParallel.DoParallelScan ident func t out (cast <$> inp) n)
     ↔ n ≤ length inp ∧ n ≤ length (cells out)).
Proof.
  intros [->|Hsp].
  { split; (split; [intros _; lia|intros _; by eexists]). }
  split; split.
  - intros [[total out'] Hs]. rewrite doScan_unfold in Hs.
    destruct (parallel_scan _ _ _ _) as [[body' m']|] eqn:Hp; simpl in Hs; [|done].
    destruct (parallel_scan_Some _ func ident (cast <$> inp)
                (doScan_body_laws cast func ident inp)
                (doScan_body_in_bounds cast func ident inp)
                t 0 n _ ident out body' m' eq_refl Hsp Hp) as [Hin Hout].
    by rewrite length_fmap in Hin.
  - intros [Hin Hout].
    destruct (doScan_last cast func ident inp t out n) as (total & out' & -> & _);
      by eauto.
  - intros [[total y'] Hs]. unfold SeqVsParallel.DoParallelScan in Hs.
    destruct (parallel_scan _ _ _ _) as [[body' m']|] eqn:Hp; simpl in Hs; [|done].
    destruct (parallel_scan_Some _ func ident (cast <$> inp)
                (Body_laws ident func (cast <$> inp))
                (Body_in_bounds ident func (cast <$> inp))
                t 0 n _ ident out body' m' eq_refl Hsp Hp) as [Hin Hout].
    by rewrite length_fmap in Hin.
  - intros [Hin Hout].
    destruct (parallel_scan_last _ func ident (cast <$> inp)
                (Body_laws ident func (cast <$> inp))
                t 0 n (SeqVsParallel.Body_new ident (cast <$> inp)) ident out)
      as (body' & s' & y' & Hp & _); [done|done|by rewrite length_fmap|done|].
    unfold SeqVsParallel.DoParallelScan. rewrite Hp. by eexists.
Qed.

Lemma scan_defined_iff_witness :
  (is_Some (doScan id (Steal 1 Run (Steal 2 Run Run)) (new_vec 2 0%Z)
                   [7; 1; 5]%Z 0%Z Z.sub 3)
   ↔ 3 ≤ length [7; 1; 5]%Z ∧ 3 ≤ length (cells (new_vec 2 0%Z)))
  ∧ (is_Some (SeqVsParallel.DoParallelScan 0%Z Z.sub (Steal 1 Run (Steal 2 Run Run))
                (new_vec 2 0%Z) (id <$> [7; 1; 5]%Z) 3)
     ↔ 3 ≤ length [7; 1; 5]%Z ∧ 3 ≤ length (cells (new_vec 2 0%Z))).
Proof.
  apply scan_defined_iff. right. simpl. lia.
Defined.

(* ===================================================================== *)
(** ** [doMap] and [vecFilter], run by run *)
(* ===================================================================== *)

(** X21.  [doMap] into an output array whose cells are independent
    locations: for every length [n], input and function [func], whatever
    the partition of the range and the order in which its parts are
    done, [doMap] succeeds on arrays of at least [n] cells and sets
    [out[i] = func(in[i])] for every [i < n]; the other cells keep their
    value, and the writes made are exactly these [n], one per index. *)
Theorem doMap_elementwise {OutT InT} (func : InT → OutT) (inp : list InT)
    (out : Mem OutT) (n : nat) (order : list blocked_range) :
  chunk_order n order → n ≤ length inp → n ≤ length (cells out) →
  ∃ out',
    doMap order out inp func n = Some out'
    ∧ cells out' = (func <$> take n inp) ++ drop n (cells out)
    ∧ (∀ i, i < n → cells out' !! i = func <$> inp !! i)
    ∧ (∀ i, n ≤ i → cells out' !! i = cells out !! i)
    ∧ ∃ ws, wlog out' = wlog out ++ ws
            ∧ ws ≡ₚ omap (map_write func inp) (seq 0 n).
Proof.
  intros Hord Hin Hout.
  destruct (doMap_spec func inp n order out) as (out' & Hm & Hcells & Hlog);
    [done..|].
  exists out'. split_and!; try done.
  - intros i Hi. rewrite Hcells.
    rewrite lookup_app_l by (rewrite length_fmap, length_take; lia).
    by rewrite list_lookup_fmap, lookup_take_lt.
  - intros i Hi. rewrite Hcells.
    rewrite lookup_app_r by (rewrite length_fmap, length_take; lia).
    rewrite length_fmap, length_take, lookup_drop. f_equal. lia.
Qed.

Lemma doMap_elementwise_witness :
  ∃ out',
    doMap [Range 2 3; Range 0 2] (new_vec 3 0%N) [7; 13; 20]%Z
          (bool_to_size ∘ main_predicate) 3 = Some out'
    ∧ cells out' = ((bool_to_size ∘ main_predicate) <$> take 3 [7; 13; 20]%Z)
                   ++ drop 3 (cells (new_vec 3 0%N))
    ∧ (∀ i, i < 3 → cells out' !! i
                    = (bool_to_size ∘ main_predicate) <$> [7; 13; 20]%Z !! i)
    ∧ (∀ i, 3 ≤ i → cells out' !! i = cells (new_vec 3 0%N) !! i)
    ∧ ∃ ws, wlog out' = wlog (new_vec 3 0%N) ++ ws
            ∧ ws ≡ₚ omap (map_write (bool_to_size ∘ main_predicate) [7; 13; 20]%Z)
                         (seq 0 3).
Proof.
  apply doMap_elementwise.
  - right. exists (Steal 2 Run Run). split; [simpl; lia|]. simpl. apply perm_swap.
  - simpl. lia.
  - simpl. lia.
Defined.

(** X22.  [doMap] into a [std::vector<bool>] of at least [n] elements,
    when its calls are made one after the other, whatever the partition
    and the order of the calls: it sets [out[i] = func(in[i])] for every
    [i < n] and leaves the other elements and the size as they are. *)
Theorem doMap_vector_bool_elementwise {InT} (func : InT → bool) (inp : list InT)
    (out : bit_vector) (n : nat) (order : list blocked_range) :
  chunk_order n order → n ≤ length inp → n ≤ bv_size out → bv_wf out →
  ∃ out',
    doMap_vector_bool (serial_run order) out inp func n = Some out'
    ∧ bv_size out' = bv_size out
    ∧ bits out' = (func <$> take n inp) ++ drop n (bits out)
    ∧ (∀ i, i < n → bits out' !! i = func <$> inp !! i)
    ∧ (∀ i, n ≤ i → bits out' !! i = bits out !! i).
Proof.
  intros Hord Hin Hout Hwf.
  destruct (doMap_vector_bool_serial func inp n order out)
    as (out' & Hm & Hsz & Hbits); [done..|].
  exists out'. split_and!; try done.
  - intros i Hi. rewrite Hbits.
    rewrite lookup_app_l by (rewrite length_fmap, length_take; lia).
    by rewrite list_lookup_fmap, lookup_take_lt.
  - intros i Hi. rewrite Hbits.
    rewrite lookup_app_r by (rewrite length_fmap, length_take; lia).
    rewrite length_fmap, length_take, lookup_drop. f_equal. lia.
Qed.

Lemma doMap_vector_bool_elementwise_witness :
  ∃ out',
    doMap_vector_bool (serial_run [Range 2 3; Range 0 2]) (new_bits 4)
      [7; 13; 20]%Z main_predicate 3 = Some out'
    ∧ bv_size out' = bv_size (new_bits 4)
    ∧ bits out' = (main_predicate <$> take 3 [7; 13; 20]%Z) ++ drop 3 (bits (new_bits 4))
    ∧ (∀ i, i < 3 → bits out' !! i = main_predicate <$> [7; 13; 20]%Z !! i)
    ∧ (∀ i, 3 ≤ i → bits out' !! i = bits (new_bits 4) !! i).
Proof.
  apply doMap_vector_bool_elementwise.
  - right. exists (Steal 2 Run Run). split; [simpl; lia|]. simpl. apply perm_swap.
  - simpl. lia.
  - simpl. lia.
  - apply new_bits_wf.
Defined.

(** X23.  When the calls of its map step are made one after the other,
    for every input vector (of a size that fits [size_t], of elements
    other than [bool]) and every predicate, whatever the partitions and
    the runs of the other two steps: [vecFilter] returns the elements of
    [inputVec] that satisfy the predicate, in their original order;
    [bolMatch] holds the predicate booleans; the length of the result
    is the number of elements that satisfy the predicate, and it is the
    total that the scan over [bolMatch] returns. *)
Theorem vecFilter_filters {T} (dflt : T) (predicate : T → bool) (inputVec : list T)
    (order : list blocked_range) (ts : sched) (os : list blocked_range) :
  (N.of_nat (length inputVec) < SIZE_MOD)%N →
  chunk_order (length inputVec) order → scan_sched (length inputVec) ts →
  chunk_order (length inputVec) os →
  ∃ result bolMatch outSize ixMatch,
    vecFilter dflt (serial_run order) ts os inputVec predicate = Some result
    ∧ result = List.filter predicate inputVec
    ∧ length result = count_matches predicate inputVec
    ∧ doMap_vector_bool (serial_run order) (new_bits (length inputVec)) inputVec
        predicate (length inputVec) = Some bolMatch
    ∧ bits bolMatch = predicate <$> inputVec
    ∧ doScan bool_to_size ts (new_vec (length inputVec) 0%N) (bits bolMatch)
             0%N size_add (length inputVec)
      = Some (outSize, ixMatch)
    ∧ N.to_nat outSize = length result.
Proof.
  intros Hsize Hom Hts Hos.
  destruct (vecFilter_map predicate inputVec order Hom) as (bolMatch & Hm & Hbol).
  destruct (vecFilter_scan predicate inputVec Hsize ts (new_vec (length inputVec) 0%N) Hts)
    as (ixMatch & Hs & _); [by simpl; rewrite length_replicate|].
  exists (List.filter predicate inputVec), bolMatch,
    (N.of_nat (length (List.filter predicate inputVec))), ixMatch.
  split_and!; try done.
  - by apply vecFilter_spec.
  - apply length_filter_count.
  - by rewrite Hbol.
  - apply Nat2N.id.
Qed.

Lemma vecFilter_filters_witness :
  ∃ result bolMatch outSize ixMatch,
    vecFilter 0%Z (serial_run [Range 2 3; Range 0 2]) (Steal 1 Run (Cont 2 Run Run))
              [Range 0 1; Range 1 3] [13; 1; 20]%Z main_predicate = Some result
    ∧ result = List.filter main_predicate [13; 1; 20]%Z
    ∧ length result = count_matches main_predicate [13; 1; 20]%Z
    ∧ doMap_vector_bool (serial_run [Range 2 3; Range 0 2])
        (new_bits (length [13; 1; 20]%Z)) [13; 1; 20]%Z main_predicate
        (length [13; 1; 20]%Z) = Some bolMatch
    ∧ bits bolMatch = main_predicate <$> [13; 1; 20]%Z
    ∧ doScan bool_to_size (Steal 1 Run (Cont 2 Run Run))
             (new_vec (length [13; 1; 20]%Z) 0%N) (bits bolMatch)
             0%N size_add (length [13; 1; 20]%Z)
      = Some (outSize, ixMatch)
    ∧ N.to_nat outSize = length result.
Proof.
  apply vecFilter_filters.
  - reflexivity.
  - right. exists (Steal 2 Run Run). split; [simpl; lia|]. simpl. apply perm_swap.
  - right. simpl. repeat split; lia.
  - right. exists (Steal 1 Run Run). split; [simpl; lia|]. simpl. reflexivity.
Defined.

(** X24.  Whatever the run of the map step, calls that overlap in time
    included, and whatever the runs of the other two steps, [vecFilter]
    (on elements other than [bool]) comes to its end.  An element of
    [bolMatch] is only [true] where the predicate holds; the result
    holds the input elements at the positions where [bolMatch] is
    [true], so it is a sublist of the elements that satisfy the
    predicate: elements can be missing, but none is wrong, repeated or
    out of order.  Its length is the total that the scan returns. *)
Theorem vecFilter_under_races {T} (dflt : T) (predicate : T → bool)
    (inputVec : list T) (om : list bit_event) (ts : sched)
    (os : list blocked_range) :
  (N.of_nat (length inputVec) < SIZE_MOD)%N →
  bit_run (length inputVec) om → scan_sched (length inputVec) ts →
  chunk_order (length inputVec) os →
  ∃ result bolMatch outSize ixMatch,
    vecFilter dflt om ts os inputVec predicate = Some result
    ∧ doMap_vector_bool om (new_bits (length inputVec)) inputVec predicate
        (length inputVec) = Some bolMatch
    ∧ length (bits bolMatch) = length inputVec
    ∧ (∀ i, bits bolMatch !! i = Some true →
            predicate <$> inputVec !! i = Some true)
    ∧ result = selected (bits bolMatch) inputVec
    ∧ result `sublist_of` List.filter predicate inputVec
    ∧ doScan bool_to_size ts (new_vec (length inputVec) 0%N) (bits bolMatch)
             0%N size_add (length inputVec)
      = Some (outSize, ixMatch)
    ∧ N.to_nat outSize = length result.
Proof.
  intros Hsize Hom Hts Hos.
  destruct (doMap_vector_bool_sound predicate inputVec (length inputVec) om Hom)
    as (bolMatch & Hm & Hsz & Hsound); [done|].
  assert (Hlen : length (bits bolMatch) = length inputVec) by by rewrite length_bits.
  destruct (scan_steps inputVec (bits bolMatch) Hlen Hsize ts
              (new_vec (length inputVec) 0%N) Hts)
    as (ixMatch & Hs & _); [by simpl; rewrite length_replicate|].
  exists (selected (bits bolMatch) inputVec), bolMatch,
    (N.of_nat (length (selected (bits bolMatch) inputVec))), ixMatch.
  split_and!; try done.
  - rewrite (vecFilter_selected predicate inputVec Hsize dflt om ts os) by done.
    by rewrite Hm.
  - intros i Hi. destruct (Hsound i Hi) as (x & -> & Hx). simpl. by rewrite Hx.
  - by apply selected_sublist.
  - apply Nat2N.id.
Qed.

Lemma vecFilter_under_races_witness :
  ∃ result bolMatch outSize ixMatch,
    vecFilter 0%Z main_race_run (Steal 4 (Cont 2 Run Run) (Steal 6 (Steal 5 Run Run) Run))
              [Range 0 8] main_input main_predicate = Some result
    ∧ doMap_vector_bool main_race_run (new_bits (length main_input)) main_input
        main_predicate (length main_input) = Some bolMatch
    ∧ length (bits bolMatch) = length main_input
    ∧ (∀ i, bits bolMatch !! i = Some true →
            main_predicate <$> main_input !! i = Some true)
    ∧ result = selected (bits bolMatch) main_input
    ∧ result `sublist_of` List.filter main_predicate main_input
    ∧ doScan bool_to_size (Steal 4 (Cont 2 Run Run) (Steal 6 (Steal 5 Run Run) Run))
             (new_vec (length main_input) 0%N) (bits bolMatch)
             0%N size_add (length main_input)
      = Some (outSize, ixMatch)
    ∧ N.to_nat outSize = length result.
Proof.
  apply vecFilter_under_races.
  - reflexivity.
  - right. exists (Steal 4 Run Run). split; [simpl; lia|reflexivity].
  - right. simpl. repeat split; lia.
  - right. exists Run. split; [simpl; lia|]. simpl. reflexivity.
Defined.

(** X25.  For a fixed input, two runs that split the ranges differently
    give the same result.  [doScan] and [DoParallelScan] (for a combiner
    that is associative and has the identity given) return the same
    total and leave the same cells.  [vecFilter] returns the same vector
    when the calls of its map step are made one after the other,
    whatever the partitions; and given the run of the map step, whatever
    it is, the result does not depend on the runs of the other two
    steps. *)
Theorem scan_filter_partition_independent {T InT} (cast : InT → T)
    (func : T → T → T) (ident : T) (inp : list InT) (out : Mem T) (n : nat)
    (t1 t2 : sched)
    (dflt : InT) (predicate : InT → bool) (om : list bit_event)
    (order1 order2 : list blocked_range) (ts1 ts2 : sched)
    (os1 os2 : list blocked_range) :
  (∀ a b c, func (func a b) c = func a (func b c)) →
  (∀ a, func ident a = a) → (∀ a, func a ident = a) →
  scan_sched n t1 → scan_sched n t2 → n ≤ length inp → n ≤ length (cells out) →
  (N.of_nat (length inp) < SIZE_MOD)%N →
  chunk_order (length inp) order1 → scan_sched (length inp) ts1 →
  chunk_order (length inp) os1 →
  chunk_order (length inp) order2 → scan_sched (length inp) ts2 →
  chunk_order (length inp) os2 →
  (∃ total out1 out2,
      doScan cast t1 out inp ident func n = Some (total, out1)
      ∧ doScan cast t2 out inp ident func n = Some (total, out2)
      ∧ cells out1 = cells out2)
  ∧ (∃ total y1 y2,
      SeqVsParallel.DoParallelScan ident func t1 out (cast <$> inp) n = Some (total, y1)
      ∧ SeqVsParallel.DoParallelScan ident func t2 out (cast <$> inp) n = Some (total, y2)
      ∧ cells y1 = cells y2)
  ∧ (∃ result,
      vecFilter dflt (serial_run order1) ts1 os1 inp predicate = Some result
      ∧ vecFilter dflt (serial_run order2) ts2 os2 inp predicate = Some result)
  ∧ vecFilter dflt om ts1 os1 inp predicate = vecFilter dflt om ts2 os2 inp predicate.
Proof.
  intros Hassoc Hleft Hright Ht1 Ht2 Hin Hout Hsize Hom1 Hts1 Hos1 Hom2 Hts2 Hos2.
  pose proof (monoid_on_all func ident Hassoc Hleft Hright) as HM.
  split_and!.
  - destruct (doScan_monoid cast func ident inp (λ _, True) t1 out n)
      as (out1 & Hs1 & Hlen1 & Hc1); [done|by apply Forall_true|done..|].
    destruct (doScan_monoid cast func ident inp (λ _, True) t2 out n)
      as (out2 & Hs2 & Hlen2 & Hc2); [done|by apply Forall_true|done..|].
    eexists _, out1, out2. split_and!; [done..|].
    by apply (cells_eq_lookup _ _ (cells out) n
                (λ j, run func (cast <$> inp) ident 0 (S j))).
  - destruct (DoParallelScan_monoid ident func (λ _, True) t1 out (cast <$> inp) n)
      as (y1 & Hs1 & Hlen1 & Hc1);
      [done|by apply Forall_true|done|by rewrite length_fmap|done|].
    destruct (DoParallelScan_monoid ident func (λ _, True) t2 out (cast <$> inp) n)
      as (y2 & Hs2 & Hlen2 & Hc2);
      [done|by apply Forall_true|done|by rewrite length_fmap|done|].
    eexists _, y1, y2. split_and!; [done..|].
    by apply (cells_eq_lookup _ _ (cells out) n
                (λ j, run func (cast <$> inp) ident 0 (S j))).
  - exists (List.filter predicate inp). split; by apply vecFilter_spec.
  - by rewrite !(vecFilter_selected predicate inp Hsize dflt om) by done.
Qed.

Lemma scan_filter_partition_independent_witness :
  (∃ total out1 out2,
      doScan id (Steal 1 Run (Steal 2 Run Run)) (new_vec 3 0%Z) [13; 1; 20]%Z 0%Z Z.add 3
        = Some (total, out1)
      ∧ doScan id (Cont 2 (Cont 1 Run Run) Run) (new_vec 3 0%Z) [13; 1; 20]%Z 0%Z Z.add 3
        = Some (total, out2)
      ∧ cells out1 = cells out2)
  ∧ (∃ total y1 y2,
      SeqVsParallel.DoParallelScan 0%Z Z.add (Steal 1 Run (Steal 2 Run Run))
        (new_vec 3 0%Z) (id <$> [13; 1; 20]%Z) 3 = Some (total, y1)
      ∧ SeqVsParallel.DoParallelScan 0%Z Z.add (Cont 2 (Cont 1 Run Run) Run)
        (new_vec 3 0%Z) (id <$> [13; 1; 20]%Z) 3 = Some (total, y2)
      ∧ cells y1 = cells y2)
  ∧ (∃ result,
      vecFilter 0%Z (serial_run [Range 2 3; Range 0 2]) (Steal 1 Run (Steal 2 Run Run))
                [Range 0 1; Range 1 3] [13; 1; 20]%Z main_predicate = Some result
      ∧ vecFilter 0%Z (serial_run [Range 0 3]) (Cont 2 (Cont 1 Run Run) Run)
                [Range 1 3; Range 0 1] [13; 1; 20]%Z main_predicate = Some result)
  ∧ vecFilter 0%Z [Load 0; Load 2; Store 0; Load 1; Store 2; Store 1]
              (Steal 1 Run (Steal 2 Run Run)) [Range 0 1; Range 1 3]
              [13; 1; 20]%Z main_predicate
    = vecFilter 0%Z [Load 0; Load 2; Store 0; Load 1; Store 2; Store 1]
                (Cont 2 (Cont 1 Run Run) Run) [Range 1 3; Range 0 1]
                [13; 1; 20]%Z main_predicate.
Proof.
  apply (scan_filter_partition_independent id Z.add 0%Z [13; 1; 20]%Z (new_vec 3 0%Z) 3).
  - intros a b c. lia.
  - intros a. lia.
  - intros a. lia.
  - right. simpl. lia.
  - right. simpl. repeat split; lia.
  - simpl. lia.
  - simpl. lia.
  - reflexivity.
  - right. exists (Steal 2 Run Run). split; [simpl; lia|]. simpl. apply perm_swap.
  - right. simpl. lia.
  - right. exists (Steal 1 Run Run). split; [simpl; lia|]. simpl. reflexivity.
  - right. exists Run. split; [simpl; lia|]. simpl. reflexivity.
  - right. simpl. repeat split; lia.
  - right. exists (Steal 1 Run Run). split; [simpl; lia|]. simpl. apply perm_swap.
Defined.
